(** * Work-item replication engine: a shallow embedding

    This development embeds [scripts/copy_parent_workitems_with_children.py]
    and states the properties of its path remapper, relation classifier,
    parent enumerator and replication loop.

    Conventions.
    - Python [int] is unbounded: [Z].  Python [str] is [string]; the models of
      [lower], [strip] and [int] below cover ASCII text (bytes above 127 are
      left alone by [lower] and are neither white space nor digits).
    - [Optional[str]] is [option string]; a JSON field value is [jval].
    - Python [set] of ints is [gset Z]; [list(s)] is [elements s] (the order of
      a Python set is unspecified, no statement below depends on it).
    - The two remote systems are explicit values: the source is read-only, the
      target is threaded through the run together with the counters and the
      log of mutating calls. *)

From Stdlib Require Import ZArith String Ascii List Lia.
From stdpp Require Import base option list gmap sets strings pretty sorting.

Local Open Scope string_scope.
Local Open Scope list_scope.
Local Open Scope Z_scope.

(** ** Python built-ins used by the script *)

Module Py.

Definition backslash : ascii := ascii_of_nat 92.
Definition slash : ascii := ascii_of_nat 47.

(** [c.lower()] on one ASCII character. *)
Definition lower_ascii (c : ascii) : ascii :=
  let n := nat_of_ascii c in
  if ((65 <=? n) && (n <=? 90))%nat then ascii_of_nat (n + 32) else c.

(** [s.lower()]. *)
Fixpoint lower (s : string) : string :=
  match s with
  | EmptyString => EmptyString
  | String c r => String (lower_ascii c) (lower r)
  end.

(** [s.split(d)] for a one-character separator [d]: never empty,
    ["".split(d) == [""]]. *)
Fixpoint split (d : ascii) (s : string) : list string :=
  match s with
  | EmptyString => [EmptyString]
  | String c r =>
      if Ascii.eqb c d then EmptyString :: split d r
      else match split d r with
           | h :: t => String c h :: t
           | [] => [String c EmptyString]
           end
  end.

(** [sep.join(parts)]. *)
Fixpoint join (sep : string) (parts : list string) : string :=
  match parts with
  | [] => EmptyString
  | [x] => x
  | x :: rest => x +:+ sep +:+ join sep rest
  end.

(** [s.rsplit(d, 1)]: at most one cut, at the last occurrence of [d]. *)
Definition rsplit1 (d : ascii) (s : string) : list string :=
  match rev (split d s) with
  | [] | [_] => [s]
  | tl :: rev_init => [join (String d EmptyString) (rev rev_init); tl]
  end.

(** [l[-1]] on a list known to be non-empty ([rsplit1] never returns []). *)
Definition last_item (l : list string) : string := List.last l EmptyString.

(** [sub in s]. *)
Fixpoint contains (sub s : string) : bool :=
  String.prefix sub s ||
  match s with
  | EmptyString => false
  | String _ r => contains sub r
  end.

(** [s.endswith(t)]. *)
Definition endswith (s t : string) : bool :=
  let n := String.length s in
  let m := String.length t in
  (m <=? n)%nat && String.eqb (String.substring (n - m) m s) t.

(** [s.startswith(t)]. *)
Definition startswith (s t : string) : bool := String.prefix t s.

(** White space as [str.strip] sees it (ASCII part). *)
Definition is_space (c : ascii) : bool :=
  let n := nat_of_ascii c in
  (((9 <=? n) && (n <=? 13)) || ((28 <=? n) && (n <=? 32)))%nat.

Fixpoint lstrip (s : string) : string :=
  match s with
  | EmptyString => EmptyString
  | String c r => if is_space c then lstrip r else s
  end.

Fixpoint rstrip (s : string) : string :=
  match s with
  | EmptyString => EmptyString
  | String c r =>
      match rstrip r with
      | EmptyString => if is_space c then EmptyString else String c EmptyString
      | r' => String c r'
      end
  end.

(** [s.strip()]. *)
Definition strip (s : string) : string := rstrip (lstrip s).

Definition is_digit (c : ascii) : bool :=
  let n := nat_of_ascii c in ((48 <=? n) && (n <=? 57))%nat.

Definition digit_val (c : ascii) : Z := Z.of_nat (nat_of_ascii c) - 48.

(** Digits of a decimal literal after the first one; a single underscore is
    allowed between two digits. *)
Fixpoint int_digits (acc : Z) (after_underscore : bool) (s : string) : option Z :=
  match s with
  | EmptyString => if after_underscore then None else Some acc
  | String c r =>
      if is_digit c then int_digits (acc * 10 + digit_val c) false r
      else if Ascii.eqb c (ascii_of_nat 95) && negb after_underscore
           then int_digits acc true r
           else None
  end.

Definition int_unsigned (s : string) : option Z :=
  match s with
  | EmptyString => None
  | String c r => if is_digit c then int_digits (digit_val c) false r else None
  end.

(** White space as [int] skips it around an ASCII literal: tab to carriage
    return and the space, without the separators 28-31 that [str.strip]
    removes ([int] of a literal padded with one of those raises). *)
Definition is_space_int (c : ascii) : bool :=
  let n := nat_of_ascii c in
  (((9 <=? n) && (n <=? 13)) || (n =? 32))%nat.

Fixpoint int_lstrip (s : string) : string :=
  match s with
  | EmptyString => EmptyString
  | String c r => if is_space_int c then int_lstrip r else s
  end.

Fixpoint int_rstrip (s : string) : string :=
  match s with
  | EmptyString => EmptyString
  | String c r =>
      match int_rstrip r with
      | EmptyString => if is_space_int c then EmptyString else String c EmptyString
      | r' => String c r'
      end
  end.

(** [int(s)] in base 10; [None] is the [ValueError]. *)
Definition int (s : string) : option Z :=
  match int_rstrip (int_lstrip s) with
  | String c r =>
      if Ascii.eqb c (ascii_of_nat 43) then int_unsigned r
      else if Ascii.eqb c (ascii_of_nat 45) then Z.opp <$> int_unsigned r
      else int_unsigned (String c r)
  | EmptyString => None
  end.

(** [str(n)] for an int. *)
Definition str (n : Z) : string := pretty n.

(** Truthiness of an [Optional[str]]. *)
Definition truthy_str (o : option string) : bool :=
  match o with
  | Some (String _ _) => true
  | _ => false
  end.

(** [o or ""]. *)
Definition or_empty (o : option string) : string := default EmptyString o.

End Py.

(** ** Path remapper *)

(** [remap_root(src_path, src_root, tgt_root)]. *)
Definition remap_root (src_path : option string) (src_root tgt_root : string) : string :=
  match src_path with
  | None | Some EmptyString => tgt_root
  | Some p =>
      let sep := String Py.backslash EmptyString in
      let parts := Py.split Py.backslash p in
      match parts with
      | p0 :: rest =>
          if String.eqb (Py.lower p0) (Py.lower src_root)
          then Py.join sep (tgt_root :: rest)
          else Py.join sep (tgt_root :: parts)
      | [] => Py.join sep (tgt_root :: parts)
      end
  end.

(** ** Source system (read-only) *)

(** A JSON field value as the script reads it: [null] or a string. *)
Inductive jval : Type :=
  | JNull
  | JStr (s : string).

(** One entry of a work item's ["relations"] array; [None] stands for a
    missing key or a [null]. *)
Record relation : Type := mkRelation {
  r_rel : option string;
  r_url : option string
}.

Record src_item : Type := mkSrcItem {
  s_fields : gmap string jval;
  (** the ["relations"] array of the expanded work item *)
  s_relations : option (list relation);
  (** the ["text"] of each entry of the comments endpoint, [None] when both
      candidate URLs fail *)
  s_discussion : option (list (option string));
  (** the [System.History] of each revision, in revision order *)
  s_revisions : list (option string)
}.

Record Source : Type := mkSource {
  src_project : string;
  src_items : gmap Z src_item;
  (** how many rows the server returns for one query at most *)
  src_query_cap : nat
}.

(** [f.get(k)] read as an [Optional[str]]. *)
Definition get_str (f : gmap string jval) (k : string) : option string :=
  match f !! k with
  | Some (JStr s) => Some s
  | _ => None
  end.

Definition REFLECTED : string := "Custom.ReflectedWorkItemId".
Definition PARENT_TYPES : list string := ["Work Bundle"; "Workbundle"; "WorkBundle"].
Definition TARGET_PARENT_TYPE : string := "Work Bundle".
Definition CHILD_TYPE_MAP : list (string * string) :=
  [("User Story", "User Story"); ("Issue", "User Story")].

(** [{k.lower(): v for k, v in CHILD_TYPE_MAP.items()}]: later keys win. *)
Definition CHILD_TYPE_MAP_LOWER : gmap string string :=
  foldl (fun m kv => <[Py.lower kv.1 := kv.2]> m) ∅ CHILD_TYPE_MAP.

Definition parent_fields : list string :=
  ["System.Id"; "System.Title"; "System.Description"; "System.State"; "System.Tags";
   "System.AreaPath"; "System.IterationPath"; "System.AssignedTo"; "Custom.OwnerOrg"].

Definition child_fields : list string :=
  ["System.Id"; "System.WorkItemType"; "System.Title"; "System.Description";
   "System.State"; "System.Tags"; "System.AreaPath"; "System.IterationPath";
   "System.AssignedTo"].

(** [batch_get(conn_src, [wid], fields).get("value", [])] followed by
    [data[0].get("fields", {}) or {}]: [None] is the empty ["value"] list, the
    map holds the requested fields only. *)
Definition batch_get (src : Source) (wid : Z) (fields : list string)
  : option (gmap string jval) :=
  (fun it => filter (fun kv => kv.1 ∈ fields) (s_fields it)) <$> src_items src !! wid.

(** ** Relation classifier *)

(** One turn of the loop of [get_children_related]; the accumulator is
    [(children, related)]. *)
Definition classify (acc : gset Z * gset Z) (r : relation) : gset Z * gset Z :=
  let rel := Py.lower (Py.or_empty (r_rel r)) in
  let href := Py.or_empty (r_url r) in
  match Py.int (Py.last_item (Py.rsplit1 Py.slash href)) with
  | None => acc
  | Some wid =>
      if Py.contains "hierarchy-forward" rel then ({[wid]} ∪ acc.1, acc.2)
      else if Py.endswith rel "related" then (acc.1, {[wid]} ∪ acc.2)
      else acc
  end.

(** The three readings [classify] takes of a relation: the id at the end of
    its URL, and the two tests on its lower-cased type. *)
Definition rel_id (r : relation) : option Z :=
  Py.int (Py.last_item (Py.rsplit1 Py.slash (Py.or_empty (r_url r)))).

Definition is_forward (r : relation) : bool :=
  Py.contains "hierarchy-forward" (Py.lower (Py.or_empty (r_rel r))).

Definition ends_related (r : relation) : bool :=
  Py.endswith (Py.lower (Py.or_empty (r_rel r))) "related".

(** [get_children_related] on the relations array of the fetched item
    ([wi.get("relations", []) or []]). *)
Definition children_related_of (rels : option (list relation)) : list Z * list Z :=
  let acc := foldl classify (∅, ∅) (default [] rels) in
  let children := acc.1 in
  let related := acc.2 ∖ children in
  (elements children, elements related).

(** [get_children_related(conn_src, parent_id)]; an empty response
    ([http_json(...) or {}]) has no relations. *)
Definition get_children_related (src : Source) (parent_id : Z) : list Z * list Z :=
  children_related_of ((src_items src !! parent_id) ≫= s_relations).

(** [get_comments(conn_src, wid)]: the texts of the discussion, or of the
    revisions when the discussion cannot be read. *)
Definition get_comments (src : Source) (wid : Z) : list (option string) :=
  match src_items src !! wid with
  | None => []
  | Some it =>
      match s_discussion it with
      | Some cs => cs
      | None =>
          omap (fun h => if Py.truthy_str h then Some h else None) (s_revisions it)
      end
  end.

(** ** Parent enumerator *)

(** The rows matching the [WHERE] clause of the parent query apart from the
    bound on the id: type in [PARENT_TYPES] and, when both parts of the
    exclusion are given, owner field different from the excluded value. *)
Definition parent_row (excl_field excl_value : option string) (it : src_item) : bool :=
  bool_decide (get_str (s_fields it) "System.WorkItemType" ∈ (Some <$> PARENT_TYPES)) &&
  (if Py.truthy_str excl_field && Py.truthy_str excl_value
   then negb (bool_decide
                (get_str (s_fields it) (Py.or_empty excl_field) = excl_value))
   else true).

Definition parent_rows (src : Source) (excl_field excl_value : option string) : list Z :=
  merge_sort Z.le
    ((filter (fun kv => parent_row excl_field excl_value kv.2 = true)
             (map_to_list (src_items src))).*1).

(** The answer to the query of [iterate_parent_ids] for a given [last_id]:
    [System.Id > last_id], [ORDER BY System.Id ASC]. *)
Definition wiql_parents (src : Source) (excl_field excl_value : option string)
    (last_id : Z) : list Z :=
  take (src_query_cap src)
       (filter (fun i => last_id < i) (parent_rows src excl_field excl_value)).

(** [max_items and fetched >= max_items]. *)
Definition max_reached (max_items : option Z) (fetched : Z) : bool :=
  match max_items with
  | Some m => negb (m =? 0) && (m <=? fetched)
  | None => false
  end.

(** The [for wid in page] loop: the ids yielded, and [Some (last_id, fetched)]
    when the page is exhausted, [None] when the generator returned. *)
Fixpoint drain_page (max_items : option Z) (page : list Z) (last_id fetched : Z)
  : list Z * option (Z * Z) :=
  match page with
  | [] => ([], Some (last_id, fetched))
  | wid :: rest =>
      if max_reached max_items (fetched + 1) then ([wid], None)
      else let '(ys, k) := drain_page max_items rest wid (fetched + 1) in
           (wid :: ys, k)
  end.

(** The [while True] loop; [fuel] bounds the number of queries. *)
Fixpoint iterate_loop (src : Source) (max_items : option Z)
    (excl_field excl_value : option string) (fuel : nat) (last_id fetched : Z)
  : option (list Z) :=
  match fuel with
  | O => None
  | S n =>
      match wiql_parents src excl_field excl_value last_id with
      | [] => Some []
      | page =>
          match drain_page max_items page last_id fetched with
          | (ys, None) => Some ys
          | (ys, Some (last_id', fetched')) =>
              (fun zs => ys ++ zs) <$>
                iterate_loop src max_items excl_field excl_value n last_id' fetched'
          end
      end
  end.

(** [(start_id - 1) if (start_id and start_id > 0) else 0]. *)
Definition first_last_id (start_id : option Z) : Z :=
  match start_id with
  | Some s => if negb (s =? 0) && (0 <? s) then s - 1 else 0
  | None => 0
  end.

(** [iterate_parent_ids]: the sequence of ids the generator yields. *)
Definition iterate_parent_ids (src : Source) (max_items start_id : option Z)
    (excl_field excl_value : option string) (fuel : nat) : option (list Z) :=
  iterate_loop src max_items excl_field excl_value fuel (first_last_id start_id) 0.

(** ** Target system *)

(** One operation of a JSON patch document: [{"op": "add", "path":
    "/fields/<name>", "value": v}] or [{"op": "add", "path": "/relations/-",
    "value": {"rel": rel, "url": <work item to>}}]. *)
Inductive patch_op : Type :=
  | AddField (name : string) (value : string)
  | AddRelation (rel : string) (to : Z).

(** A work item of the target: its server-assigned id, its type and every
    patch operation applied to it so far, oldest first. *)
Record tgt_item : Type := mkTgtItem {
  t_id : positive;
  t_type : string;
  t_ops : list patch_op
}.

Record Target : Type := mkTarget {
  tgt_project : string;
  tgt_items : list tgt_item;
  (** the id the server gives to the next work item *)
  tgt_next : positive
}.

(** The mutating calls the engine sends to the target. *)
Inductive mutation : Type :=
  | Create (type_name : string) (patch : list patch_op)
  | Patch (workitem_id : Z) (patch : list patch_op).

(** The current value of a field: the last [add] wins. *)
Fixpoint field_of_ops (ops : list patch_op) (name : string) : option string :=
  match ops with
  | [] => None
  | AddField k v :: rest =>
      match field_of_ops rest name with
      | Some v' => Some v'
      | None => if String.eqb k name then Some v else None
      end
  | AddRelation _ _ :: rest => field_of_ops rest name
  end.

Definition item_field (it : tgt_item) (name : string) : option string :=
  field_of_ops (t_ops it) name.

(** Server side of a creation: a new item with the next id. *)
Definition server_create (T : Target) (type_name : string) (patch : list patch_op)
  : Target * Z :=
  let id := tgt_next T in
  ({| tgt_project := tgt_project T;
      tgt_items := tgt_items T ++ [mkTgtItem id type_name patch];
      tgt_next := Pos.succ id |}, Z.pos id).

(** Server side of a patch of an existing item: the operations are appended
    to the item with that id. *)
Definition patch_item (workitem_id : Z) (patch : list patch_op) (it : tgt_item) : tgt_item :=
  if Z.pos (t_id it) =? workitem_id
  then mkTgtItem (t_id it) (t_type it) (t_ops it ++ patch)
  else it.

Definition server_patch (T : Target) (workitem_id : Z) (patch : list patch_op) : Target :=
  {| tgt_project := tgt_project T;
     tgt_items := patch_item workitem_id patch <$> tgt_items T;
     tgt_next := tgt_next T |}.

(** [find_target_by_reflected(conn_tgt, source_id)]: the first id of the rows
    whose correlation field equals [str(source_id)]. *)
Definition find_target_by_reflected (T : Target) (source_id : Z) : option Z :=
  head ((fun it => Z.pos (t_id it)) <$>
        filter (fun it => item_field it REFLECTED = Some (Py.str source_id))
               (tgt_items T)).

(** ** Replication engine *)

Record Args : Type := mkArgs {
  max_items : option Z;
  start_id : option Z;
  dry_run : bool;
  with_comments : bool;
  exclude_ownerorg_field : option string;
  exclude_ownerorg_value : option string;
  target_area_root : option string;
  target_iteration_root : option string;
  force_root : bool
}.

(** The state the run threads: the target, the three counters of [main] and
    the mutating calls sent so far. *)
Record run : Type := mkRun {
  tgt : Target;
  created_parent : nat;
  created_other : nat;
  related_links : nat;
  calls : list mutation
}.

Definition start (T : Target) : run := mkRun T 0 0 0 [].

(** [(root or "").strip() or conn_tgt.project]. *)
Definition root_or_project (root : option string) (project : string) : string :=
  match Py.strip (Py.or_empty root) with
  | EmptyString => project
  | s => s
  end.

Definition area_root (args : Args) (T : Target) : string :=
  root_or_project (target_area_root args) (tgt_project T).

Definition iter_root (args : Args) (T : Target) : string :=
  root_or_project (target_iteration_root args) (tgt_project T).

(** The [fields] dict built in [main] for a root, a child or a related item
    (the three dict displays are the same up to the names of the variables),
    in insertion order; a value [None] is Python's [None]. *)
Definition build_fields (args : Args) (src : Source) (T : Target)
    (f : gmap string jval) (wid : Z) : list (string * option string) :=
  [ ("System.Title",
      match f !! "System.Title" with
      | None => Some ("Migrated " +:+ Py.str wid)
      | Some JNull => None
      | Some (JStr s) => Some s
      end);
    ("System.Description", Some (Py.or_empty (get_str f "System.Description")));
    ("System.Tags", Some (Py.or_empty (get_str f "System.Tags")));
    (REFLECTED, Some (Py.str wid));
    ("System.AreaPath",
      Some (if force_root args then area_root args T
            else remap_root (get_str f "System.AreaPath") (src_project src)
                            (area_root args T)));
    ("System.IterationPath",
      Some (if force_root args then iter_root args T
            else remap_root (get_str f "System.IterationPath") (src_project src)
                            (iter_root args T))) ].

(** The patch document [create_work_item] sends. *)
Definition create_patch (fields : list (string * option string)) (parent_id : option Z)
  : list patch_op :=
  omap (fun kv => AddField kv.1 <$> kv.2) fields ++
  match parent_id with
  | Some p => [AddRelation "System.LinkTypes.Hierarchy-Reverse" p]
  | None => []
  end.

(** [create_work_item] followed by [int(created.get("id"))]. *)
Definition create_work_item (st : run) (type_name : string)
    (fields : list (string * option string)) (parent_id : option Z) : run * Z :=
  let patch := create_patch fields parent_id in
  let '(T', id) := server_create (tgt st) type_name patch in
  (mkRun T' (created_parent st) (created_other st) (related_links st)
         (calls st ++ [Create type_name patch]), id).

Definition http_patch_workitem (st : run) (workitem_id : Z) (patch : list patch_op) : run :=
  mkRun (server_patch (tgt st) workitem_id patch)
        (created_parent st) (created_other st) (related_links st)
        (calls st ++ [Patch workitem_id patch]).

Definition add_related_link (st : run) (tgt_parent tgt_other : Z) : run :=
  http_patch_workitem st tgt_parent [AddRelation "System.LinkTypes.Related" tgt_other].

Definition push_history (st : run) (tgt_wid : Z) (text : string) : run :=
  http_patch_workitem st tgt_wid [AddField "System.History" text].

(** The loop [for c in get_comments(conn_src, wid)]. *)
Definition migrate_comments (src : Source) (st : run) (wid tgt_wid : Z) : run :=
  foldl (fun st c =>
           match Py.or_empty c with
           | EmptyString => st
           | txt => push_history st tgt_wid txt
           end) st (get_comments src wid).

(** The comments of an item are pushed under
    [args.with_comments and (not args.dry_run) and int(tgt) > 0]. *)
Definition maybe_comments (args : Args) (src : Source) (st : run) (wid tgt_wid : Z) : run :=
  if with_comments args && negb (dry_run args) && (0 <? tgt_wid)
  then migrate_comments src st wid tgt_wid
  else st.

(** The result of a correlation lookup as the [if] tests see it: [None] and
    [0] are falsy. *)
Definition truthy_id (o : option Z) : option Z :=
  match o with
  | Some z => if z =? 0 then None else Some z
  | None => None
  end.

Definition bump_parent (st : run) : run :=
  mkRun (tgt st) (S (created_parent st)) (created_other st) (related_links st) (calls st).

Definition bump_other (st : run) : run :=
  mkRun (tgt st) (created_parent st) (S (created_other st)) (related_links st) (calls st).

Definition bump_links (st : run) : run :=
  mkRun (tgt st) (created_parent st) (created_other st) (S (related_links st)) (calls st).

(** Lines 269-292: resolve or create the root; returns [tgt_parent]. *)
Definition upsert_parent (args : Args) (src : Source) (st : run)
    (pid : Z) (f : gmap string jval) : run * Z :=
  match truthy_id (find_target_by_reflected (tgt st) pid) with
  | Some tgt_parent => (st, tgt_parent)
  | None =>
      let fields := build_fields args src (tgt st) f pid in
      let '(st1, tgt_parent) :=
        if dry_run args then (st, -1)
        else create_work_item st TARGET_PARENT_TYPE fields None in
      (bump_parent st1, tgt_parent)
  end.

(** [CHILD_TYPE_MAP_LOWER.get(src_type.lower())] with
    [src_type = (cf.get("System.WorkItemType") or "").strip()]; a falsy
    result is [None]. *)
Definition mapped_type (cf : gmap string jval) : option string :=
  match CHILD_TYPE_MAP_LOWER !!
          Py.lower (Py.strip (Py.or_empty (get_str cf "System.WorkItemType"))) with
  | Some (String c r) => Some (String c r)
  | _ => None
  end.

(** Lines 304-336: one child of the root. *)
Definition step_child (args : Args) (src : Source) (tgt_parent : Z)
    (st : run) (cid : Z) : run :=
  match batch_get src cid child_fields with
  | None => st
  | Some cf =>
      match mapped_type cf with
      | None => st
      | Some tgt_type =>
          let '(st1, tgt_child) :=
            match truthy_id (find_target_by_reflected (tgt st) cid) with
            | Some existing => (st, existing)
            | None =>
                let cfields := build_fields args src (tgt st) cf cid in
                let '(st0, id) :=
                  if dry_run args then (st, -1)
                  else create_work_item st tgt_type cfields
                         (if 0 <? tgt_parent then Some tgt_parent else None) in
                (bump_other st0, id)
            end in
          maybe_comments args src st1 cid tgt_child
      end
  end.

(** Lines 339-368: one related item of the root. *)
Definition step_related (args : Args) (src : Source) (tgt_parent : Z)
    (st : run) (rid : Z) : run :=
  match batch_get src rid child_fields with
  | None => st
  | Some rf =>
      match mapped_type rf with
      | None => st
      | Some tgt_type =>
          let '(st1, tgt_rel) :=
            match truthy_id (find_target_by_reflected (tgt st) rid) with
            | Some existing => (st, existing)
            | None =>
                let rfields := build_fields args src (tgt st) rf rid in
                let '(st0, id) :=
                  if dry_run args then (st, -1)
                  else create_work_item st tgt_type rfields None in
                (bump_other st0, id)
            end in
          if negb (dry_run args) && (0 <? tgt_parent) && (0 <? tgt_rel)
          then bump_links (add_related_link st1 tgt_parent tgt_rel)
          else st1
      end
  end.

(** The body of the [for pid in iterate_parent_ids(...)] loop. *)
Definition step_parent (args : Args) (src : Source) (st : run) (pid : Z) : run :=
  match batch_get src pid parent_fields with
  | None => st
  | Some f =>
      let '(st1, tgt_parent) := upsert_parent args src st pid f in
      let st2 := maybe_comments args src st1 pid tgt_parent in
      let '(children, related) := get_children_related src pid in
      let st3 := foldl (step_child args src tgt_parent) st2 children in
      foldl (step_related args src tgt_parent) st3 related
  end.

(** The main loop over an enumerated range of roots. *)
Definition run_over (args : Args) (src : Source) (st : run) (pids : list Z) : run :=
  foldl (step_parent args src) st pids.

(** [main]: the generator only reads the source, which the loop body never
    writes, so the ids it yields are those of [iterate_parent_ids]. [None]
    only when [fuel] queries do not exhaust the enumeration. *)
Definition main (args : Args) (src : Source) (T : Target) (fuel : nat) : option run :=
  run_over args src (start T) <$>
    iterate_parent_ids src (max_items args) (start_id args)
      (exclude_ownerorg_field args) (exclude_ownerorg_value args) fuel.

(** ** Vocabulary of the statements about runs *)

(** The correlation lookup finds a counterpart of [wid]. *)
Definition found (T : Target) (wid : Z) : Prop :=
  is_Some (find_target_by_reflected T wid).

(** Every successful lookup in [T] gives the same answer in [T']. *)
Definition keeps_lookups (T T' : Target) : Prop :=
  forall wid z, find_target_by_reflected T wid = Some z ->
                find_target_by_reflected T' wid = Some z.

(** The ids of the work items of the target. *)
Definition entity_ids (T : Target) : list positive := t_id <$> tgt_items T.

Definition is_create (m : mutation) : bool :=
  match m with
  | Create _ _ => true
  | Patch _ _ => false
  end.

(** The creation calls among the calls sent. *)
Definition creations (st : run) : list mutation :=
  List.filter is_create (calls st).

(** From [st] to [st'] no entity was created: same created counters, same
    entities, same lookups, same creation calls. *)
Record quiet (st st' : run) : Prop := mkQuiet {
  quiet_parent : created_parent st' = created_parent st;
  quiet_other : created_other st' = created_other st;
  quiet_ids : entity_ids (tgt st') = entity_ids (tgt st);
  quiet_find : forall wid, find_target_by_reflected (tgt st') wid
                           = find_target_by_reflected (tgt st) wid;
  quiet_creations : creations st' = creations st
}.

(** The create-or-skip block that [main] repeats for the root, for each child
    and for each related item: [for_root] selects the counter. *)
Definition bump (for_root : bool) (st : run) : run :=
  if for_root then bump_parent st else bump_other st.

Definition resolve_or_create (args : Args) (src : Source) (st : run) (wid : Z)
    (f : gmap string jval) (type_name : string) (parent_id : option Z)
    (for_root : bool) : run * Z :=
  match truthy_id (find_target_by_reflected (tgt st) wid) with
  | Some existing => (st, existing)
  | None =>
      let '(st0, id) :=
        if dry_run args then (st, -1)
        else create_work_item st type_name
               (build_fields args src (tgt st) f wid) parent_id in
      (bump for_root st0, id)
  end.

(** The link block that ends the body of the related loop. *)
Definition link_if_real (args : Args) (tgt_parent : Z) (out : run * Z) : run :=
  if negb (dry_run args) && (0 <? tgt_parent) && (0 <? out.2)
  then bump_links (add_related_link out.1 tgt_parent out.2)
  else out.1.

(** A patch that leaves the correlation field as it is. *)
Definition neutral (patch : list patch_op) : Prop :=
  forall ops, field_of_ops (ops ++ patch) REFLECTED = field_of_ops ops REFLECTED.

(** A linked item the loops do not filter out: it has data and its type is
    mapped. *)
Definition linkable (src : Source) (wid : Z) : Prop :=
  exists cf, batch_get src wid child_fields = Some cf /\ is_Some (mapped_type cf).

(** Every lookup the loop body makes for the root [pid] succeeds in [T]: for
    the root itself when it has data, and for each linkable child and related
    item. *)
Definition settled (src : Source) (T : Target) (pid : Z) : Prop :=
  (is_Some (batch_get src pid parent_fields) -> found T pid) /\
  forall wid,
    wid ∈ (get_children_related src pid).1 ++ (get_children_related src pid).2 ->
    linkable src wid -> found T wid.

(** What a dry step leaves alone. *)
Definition untouched (st st' : run) : Prop :=
  tgt st' = tgt st /\ calls st' = calls st /\ related_links st' = related_links st.

(** A dry run [sd] against a real run [sr] over the same roots: the real
    target knows every lookup the dry one knows, and the real created
    counters have not overtaken the dry ones. *)
Record ahead (sd sr : run) : Prop := mkAhead {
  ahead_lookups : keeps_lookups (tgt sd) (tgt sr);
  ahead_parent : (created_parent sr <= created_parent sd)%nat;
  ahead_other : (created_other sr <= created_other sd)%nat
}.

(** Two runs enumerate the same range of roots. *)
Definition same_range (a b : Args) : Prop :=
  max_items a = max_items b /\ start_id a = start_id b /\
  exclude_ownerorg_field a = exclude_ownerorg_field b /\
  exclude_ownerorg_value a = exclude_ownerorg_value b.


(** ** The run as a sequence of actions *)

(** The types of the work items the engine creates. *)
Definition created_types : list string := TARGET_PARENT_TYPE :: CHILD_TYPE_MAP.*2.

(** What one pass through a block of [main] that writes or counts does to the
    state: a creation from the data read for a source item (real run, lookup
    failed), the count of a creation not made (dry run, lookup failed), one
    history note, one related link. *)
Inductive action (args : Args) (src : Source) : run -> run -> Prop :=
  | act_create st wid fields f type_name parent_id for_root :
      batch_get src wid fields = Some f ->
      dry_run args = false ->
      find_target_by_reflected (tgt st) wid = None ->
      type_name ∈ created_types ->
      action args src st
        (bump for_root
           (create_work_item st type_name
              (build_fields args src (tgt st) f wid) parent_id).1)
  | act_count st wid for_root :
      dry_run args = true ->
      find_target_by_reflected (tgt st) wid = None ->
      action args src st (bump for_root st)
  | act_history st tgt_wid text :
      dry_run args = false -> with_comments args = true ->
      0 < tgt_wid -> text <> EmptyString ->
      action args src st (push_history st tgt_wid text)
  | act_link st tgt_parent tgt_other :
      dry_run args = false -> 0 < tgt_parent -> 0 < tgt_other ->
      action args src st (bump_links (add_related_link st tgt_parent tgt_other)).

(** The calls that add a related link. *)
Definition is_link (m : mutation) : bool :=
  match m with
  | Patch _ [AddRelation rel _] => String.eqb rel "System.LinkTypes.Related"
  | _ => false
  end.

(** The shapes of the calls the engine sends when it reads [src]. *)
Definition expected_call (src : Source) (m : mutation) : Prop :=
  match m with
  | Create type_name patch =>
      (type_name = "Work Bundle" \/ type_name = "User Story") /\
      exists wid, is_Some (src_items src !! wid) /\
                  field_of_ops patch REFLECTED = Some (Py.str wid)
  | Patch workitem_id patch =>
      0 < workitem_id /\
      ((exists text, text <> EmptyString /\ patch = [AddField "System.History" text]) \/
       (exists other, 0 < other /\ patch = [AddRelation "System.LinkTypes.Related" other]))
  end.

(** How many work items of the target carry the correlation value [s]. *)
Definition corr_count (T : Target) (s : string) : nat :=
  length (filter (fun it => item_field it REFLECTED = Some s) (tgt_items T)).

(** [T'] is [T] with operations appended to some items and new items after
    them: nothing removed, no id or type changed. *)
Definition grown_item (it it' : tgt_item) : Prop :=
  t_id it' = t_id it /\ t_type it' = t_type it /\
  exists more, t_ops it' = t_ops it ++ more.

Definition grown (T T' : Target) : Prop :=
  tgt_project T' = tgt_project T /\
  exists kept added,
    tgt_items T' = kept ++ added /\ Forall2 grown_item (tgt_items T) kept.

(** The texts [migrate_comments] pushes: the non-empty ones, in order. *)
Definition pushed_texts (src : Source) (wid : Z) : list string :=
  omap (fun c => match Py.or_empty c with
                 | EmptyString => None
                 | txt => Some txt
                 end) (get_comments src wid).

(** [linkable] as a test. *)
Definition linkable_b (src : Source) (wid : Z) : bool :=
  match batch_get src wid child_fields ≫= mapped_type with
  | Some _ => true
  | None => false
  end.

(** The history calls [migrate_comments] sends for the item [wid] to its
    counterpart [tgt_wid]. *)
Definition history_calls (src : Source) (wid tgt_wid : Z) : list mutation :=
  (fun text => Patch tgt_wid [AddField "System.History" text]) <$> pushed_texts src wid.

(** The number of (root, related item) pairs of a range that a real run
    links: the roots with data, their linkable related items. *)
Definition link_pairs (src : Source) (pids : list Z) : nat :=
  sum_list_with
    (fun pid =>
       match batch_get src pid parent_fields with
       | Some _ => length (List.filter (linkable_b src) (get_children_related src pid).2)
       | None => 0%nat
       end) pids.

(** The relation operations of a patch. *)
Definition relations_of (patch : list patch_op) : list (string * Z) :=
  omap (fun op => match op with
                  | AddRelation rel to => Some (rel, to)
                  | AddField _ _ => None
                  end) patch.

(** ** Roots and linked items a run leaves alone *)

(** The root [pid] makes a run count a created root: it has data and the
    correlation lookup in [T] finds nothing. *)
Definition root_unmatched (src : Source) (T : Target) (pid : Z) : bool :=
  match batch_get src pid parent_fields, find_target_by_reflected T pid with
  | Some _, None => true
  | _, _ => false
  end.

(** The ids of the work items of the target that carry the correlation value
    [s], in the order of the server; the correlation lookup returns the first
    of them. *)
Definition counterparts (T : Target) (s : string) : list Z :=
  (fun it => Z.pos (t_id it)) <$>
    filter (fun it => item_field it REFLECTED = Some s) (tgt_items T).

(** The ids of a target are distinct and below the id the server gives
    next. *)
Definition well_formed (T : Target) : Prop :=
  NoDup (entity_ids T) /\
  Forall (fun i => (i < tgt_next T)%positive) (entity_ids T).

(** The ids of existing work items a call writes to: the item it patches and
    the ends of the relations it adds. *)
Definition touched (m : mutation) : list Z :=
  match m with
  | Create _ patch => (relations_of patch).*2
  | Patch workitem_id patch => workitem_id :: (relations_of patch).*2
  end.

(** The call creates a work item with the correlation value [s]. *)
Definition creates_for (s : string) (m : mutation) : Prop :=
  match m with
  | Create _ patch => field_of_ops patch REFLECTED = Some s
  | Patch _ _ => False
  end.

(** The state [st] of a run has left the correlation value [s] alone: its
    counterparts are still [zs], no call sent created one, and, where the
    target the run started from was well formed ([W]), the target still is
    and no call sent wrote to one of [zs]. *)
Record spared (W : Prop) (s : string) (zs : list Z) (st : run) : Prop := mkSpared {
  spared_counterparts : counterparts (tgt st) s = zs;
  spared_creations : Forall (fun m => ~ creates_for s m) (calls st);
  spared_target : W -> well_formed (tgt st);
  spared_calls : W -> Forall (fun m => forall z, z ∈ touched m -> z ∉ zs) (calls st)
}.

(** ** Query text *)

(** [query.split()]: the maximal runs of characters that are not white
    space. *)
Fixpoint split_ws (s : string) : list string :=
  match s with
  | EmptyString => []
  | String c r =>
      if Py.is_space c then split_ws r
      else match r with
           | EmptyString => [String c EmptyString]
           | String c' _ =>
               if Py.is_space c' then String c EmptyString :: split_ws r
               else match split_ws r with
                    | w :: ws => String c w :: ws
                    | [] => [String c EmptyString]
                    end
           end
  end.

Definition space : ascii := ascii_of_nat 32.

(** [" ".join(query.split())], the query text [wiql] sends. *)
Definition normalize_query (query : string) : string :=
  Py.join (String space EmptyString) (split_ws query).

(** A non-empty string without white space. *)
Definition is_word (w : string) : Prop :=
  w <> EmptyString /\
  Forall (fun c => Py.is_space c = false) (list_ascii_of_string w).

(** ** Identities *)

(** A value of [System.AssignedTo] as [normalize_identity] tells them apart:
    [None], a string, a dict (with Python's [str] of the dict, which the
    function falls back to), and anything else (with its [str]). The values of
    a dict are JSON strings or [null]. *)
Inductive identity : Type :=
  | IdNone
  | IdStr (s : string)
  | IdDict (d : gmap string jval) (repr : string)
  | IdOther (repr : string).

(** [str(x).strip() or None]. *)
Definition strip_or_none (s : string) : option string :=
  match Py.strip s with
  | EmptyString => None
  | r => Some r
  end.

(** [value.get(k)] when it is truthy. *)
Definition truthy_key (d : gmap string jval) (k : string) : option string :=
  match d !! k with
  | Some (JStr (String c r)) => Some (String c r)
  | _ => None
  end.

(** The loop [for k in (...): if value.get(k): return ...]: the value of the
    first truthy key. *)
Fixpoint first_truthy (d : gmap string jval) (ks : list string) : option string :=
  match ks with
  | [] => None
  | k :: rest =>
      match truthy_key d k with
      | Some v => Some v
      | None => first_truthy d rest
      end
  end.

Definition identity_keys : list string := ["uniqueName"; "principalName"; "mail"; "email"].

(** [normalize_identity(value)]. *)
Definition normalize_identity (value : identity) : option string :=
  match value with
  | IdNone => None
  | IdStr s => strip_or_none s
  | IdDict d repr =>
      match first_truthy d identity_keys with
      | Some v => strip_or_none v
      | None =>
          match truthy_key d "displayName" with
          | Some v => strip_or_none v
          | None => strip_or_none repr
          end
      end
  | IdOther repr => strip_or_none repr
  end.

(** [USER_MAP], empty in the repository. *)
Definition USER_MAP : gmap string string := ∅.

(** [map_assigned_to(value)] over a given user map. *)
Definition map_assigned_to_with (user_map : gmap string string) (value : identity)
  : option string :=
  let norm := Py.lower (Py.or_empty (normalize_identity value)) in
  match user_map !! norm with
  | Some mapped => Some mapped
  | None => normalize_identity value
  end.

Definition map_assigned_to (value : identity) : option string :=
  map_assigned_to_with USER_MAP value.

(** A string that does not begin with white space. *)
Definition no_lead (s : string) : Prop :=
  match s with
  | EmptyString => True
  | String c _ => Py.is_space c = false
  end.

(** ** Reference enumeration *)

(** What a maximum leaves of a list of ids: everything when it is absent or
    [0], the first [m] ids when it is positive, the first id when it is
    negative. *)
Definition limited (max_items : option Z) (l : list Z) : list Z :=
  match max_items with
  | Some m => if m =? 0 then l else take (Z.to_nat (Z.max 1 m)) l
  | None => l
  end.

(** ** A concrete scenario

    Source root 100 ("Work Bundle", area [SrcProj\TeamA]) with one child 101
    ("User Story") and one related item 102 ("Issue"); the relations of 100
    also record a related edge to the child and an attachment whose URL does
    not end in an id. *)

Module Scenario.

Definition fields_of (l : list (string * string)) : gmap string jval :=
  list_to_map ((fun kv => (kv.1, JStr kv.2)) <$> l).

Definition url_of (n : string) : option string :=
  Some ("https://dev.example/SrcProj/_apis/wit/workItems/" +:+ n).

Definition forward (n : string) : relation :=
  mkRelation (Some "System.LinkTypes.Hierarchy-Forward") (url_of n).

Definition related_to (n : string) : relation :=
  mkRelation (Some "System.LinkTypes.Related") (url_of n).

Definition attachment : relation :=
  mkRelation (Some "AttachedFile")
             (Some "https://dev.example/_apis/wit/attachments/3f2a-report").

Definition bundle_100 : src_item :=
  mkSrcItem
    (fields_of [("System.WorkItemType", "Work Bundle"); ("System.Title", "Bundle");
                ("System.AreaPath", "SrcProj\TeamA")])
    (Some [forward "101"; related_to "102"; related_to "101"; attachment])
    (Some [Some "first note"; None]) [].

Definition story_101 : src_item :=
  mkSrcItem (fields_of [("System.WorkItemType", "User Story")]) None None [].

Definition issue_102 : src_item :=
  mkSrcItem (fields_of [("System.WorkItemType", "Issue"); ("System.Title", "Leak")])
            None None [].

(** A linked item of a type the mapping table does not know. *)
Definition bug_103 : src_item :=
  mkSrcItem (fields_of [("System.WorkItemType", "Bug")]) None None [].

Definition source : Source :=
  mkSource "SrcProj"
    (<[100 := bundle_100]> (<[101 := story_101]> (<[102 := issue_102]>
      (<[103 := bug_103]> ∅)))) 200.

(** A second source with two roots, 5 and 9. *)
Definition bare_bundle : src_item :=
  mkSrcItem (fields_of [("System.WorkItemType", "Work Bundle")]) None None [].

Definition two_roots : Source :=
  mkSource "SrcProj" (<[5 := bare_bundle]> (<[9 := bare_bundle]> ∅)) 200.

(** A third source: the roots 5 and 9 share the child 7. *)
Definition bundle_with_7 : src_item :=
  mkSrcItem (fields_of [("System.WorkItemType", "Work Bundle")])
            (Some [forward "7"]) None [].

Definition story_7 : src_item :=
  mkSrcItem (fields_of [("System.WorkItemType", "User Story")]) None None [].

Definition shared_child : Source :=
  mkSource "SrcProj"
    (<[5 := bundle_with_7]> (<[9 := bundle_with_7]> (<[7 := story_7]> ∅))) 200.

(** A fourth source: the root 5 has the children 8, a "Bug", and 9, which is
    a root itself and has the related item 7. *)
Definition bundle_over_9 : src_item :=
  mkSrcItem (fields_of [("System.WorkItemType", "Work Bundle")])
            (Some [forward "8"; forward "9"]) None [].

Definition bundle_9 : src_item :=
  mkSrcItem (fields_of [("System.WorkItemType", "Work Bundle")])
            (Some [related_to "7"]) None [].

Definition bug_8 : src_item :=
  mkSrcItem (fields_of [("System.WorkItemType", "Bug")]) None None [].

Definition nested_bundles : Source :=
  mkSource "SrcProj"
    (<[5 := bundle_over_9]> (<[9 := bundle_9]> (<[8 := bug_8]>
      (<[7 := story_7]> ∅)))) 200.

Definition empty_target : Target := mkTarget "TgtProj" [] 1.

(** A target that already holds a work item with the correlation id 8. *)
Definition target_with_8 : Target :=
  mkTarget "TgtProj" [mkTgtItem 1 "Bug" [AddField REFLECTED "8"]] 2.

Definition real_args : Args := mkArgs None None false true None None None None false.
Definition dry_args : Args := mkArgs None None true true None None None None false.

End Scenario.

(** * Properties *)

(** ** The model on concrete inputs *)

Example split_backslash :
  Py.split Py.backslash "SrcProj\TeamA\Sprint 1" = ["SrcProj"; "TeamA"; "Sprint 1"].
Proof. reflexivity. Qed.

Example split_empty : Py.split Py.backslash "" = [""].
Proof. reflexivity. Qed.

Example split_trailing : Py.split Py.backslash "SrcProj\" = ["SrcProj"; ""].
Proof. reflexivity. Qed.

Example rsplit1_url :
  Py.rsplit1 Py.slash "https://dev.example/P/_apis/wit/workItems/101"
  = ["https://dev.example/P/_apis/wit/workItems"; "101"].
Proof. reflexivity. Qed.

Example rsplit1_no_slash : Py.rsplit1 Py.slash "101" = ["101"].
Proof. reflexivity. Qed.

Example int_plain : Py.int "101" = Some 101.
Proof. reflexivity. Qed.

Example int_padded_signed : Py.int " -1_000 " = Some (-1000).
Proof. reflexivity. Qed.

Example int_rejects :
  Py.int "" = None /\ Py.int "3f2a-report" = None /\ Py.int "1__0" = None /\
  Py.int "_1" = None /\ Py.int "1_" = None /\ Py.int "+" = None.
Proof. repeat split. Qed.

Example int_separator_padding :
  Py.int (String (ascii_of_nat 28) "12") = None /\
  Py.int (String (ascii_of_nat 11) "12") = Some 12 /\
  Py.strip (String (ascii_of_nat 28) "12") = "12".
Proof. repeat split. Qed.

Example strip_lower : Py.lower (Py.strip "  User Story ") = "user story".
Proof. reflexivity. Qed.

Example type_map_lower :
  CHILD_TYPE_MAP_LOWER !! "issue" = Some "User Story" /\
  CHILD_TYPE_MAP_LOWER !! "user story" = Some "User Story" /\
  CHILD_TYPE_MAP_LOWER !! "Issue" = None /\
  CHILD_TYPE_MAP_LOWER !! "bug" = None.
Proof. repeat split; vm_compute; reflexivity. Qed.

Example remap_matching_root :
  remap_root (Some "SrcProj\TeamA") "SrcProj" "TgtProj" = "TgtProj\TeamA".
Proof. reflexivity. Qed.

Example remap_other_root :
  remap_root (Some "Elsewhere\TeamA") "SrcProj" "TgtProj" = "TgtProj\Elsewhere\TeamA".
Proof. reflexivity. Qed.

Example remap_absent : remap_root None "SrcProj" "TgtProj" = "TgtProj".
Proof. reflexivity. Qed.

Example scenario_partition : get_children_related Scenario.source 100 = ([101], [102]).
Proof. vm_compute. reflexivity. Qed.

Example scenario_enumeration :
  iterate_parent_ids Scenario.source None None None None 2 = Some [100].
Proof. vm_compute. reflexivity. Qed.

(** The first run over the scenario creates the root and both linked items and
    adds one related link; the second creates nothing and adds the link
    again. *)
Example scenario_first_run :
  (fun r => (created_parent r, created_other r, related_links r, entity_ids (tgt r)))
    <$> main Scenario.real_args Scenario.source Scenario.empty_target 2
  = Some (1%nat, 2%nat, 1%nat, [1%positive; 2%positive; 3%positive]).
Proof. vm_compute. reflexivity. Qed.

Example scenario_second_run :
  (fun r => (created_parent r, created_other r, related_links r, entity_ids (tgt r)))
    <$> (main Scenario.real_args Scenario.source Scenario.empty_target 2
           ≫= fun r1 => main Scenario.real_args Scenario.source (tgt r1) 2)
  = Some (0%nat, 0%nat, 1%nat, [1%positive; 2%positive; 3%positive]).
Proof. vm_compute. reflexivity. Qed.

Example scenario_root_patch :
  (fun r => t_ops <$> head (tgt_items (tgt r)))
    <$> main (mkArgs None None false false None None None None false)
             Scenario.source Scenario.empty_target 2
  = Some (Some [AddField "System.Title" "Bundle";
                AddField "System.Description" "";
                AddField "System.Tags" "";
                AddField "Custom.ReflectedWorkItemId" "100";
                AddField "System.AreaPath" "TgtProj\TeamA";
                AddField "System.IterationPath" "TgtProj";
                AddRelation "System.LinkTypes.Related" 3]).
Proof. vm_compute. reflexivity. Qed.

(** ** Strings *)

Lemma split_not_nil d s : Py.split d s <> [].
Proof.
  destruct s as [|c r]; simpl; [discriminate|].
  destruct (Ascii.eqb c d); [discriminate|].
  destruct (Py.split d r); discriminate.
Qed.

Lemma join_cons sep x y rest :
  Py.join sep (x :: y :: rest) = x +:+ sep +:+ Py.join sep (y :: rest).
Proof. reflexivity. Qed.

(** Cutting at a separator and joining with it is the identity. *)
Lemma join_split d s : Py.join (String d EmptyString) (Py.split d s) = s.
Proof.
  induction s as [|c r IH]; simpl; [reflexivity|].
  destruct (Ascii.eqb_spec c d) as [->|Hne].
  - pose proof (split_not_nil d r) as Hnil.
    destruct (Py.split d r) as [|h t]; [congruence|].
    rewrite join_cons, IH. reflexivity.
  - pose proof (split_not_nil d r) as Hnil.
    destruct (Py.split d r) as [|h t]; [congruence|].
    destruct t as [|h' t'].
    + simpl in *. congruence.
    + rewrite join_cons. rewrite join_cons in IH. rewrite <- IH. reflexivity.
Qed.

(** A string without the separator is one segment. *)
Lemma split_no_sep d s :
  (forall c, In c (list_ascii_of_string s) -> c <> d) -> Py.split d s = [s].
Proof.
  induction s as [|c r IH]; simpl; intros H; [reflexivity|].
  destruct (Ascii.eqb_spec c d) as [->|Hne].
  - exfalso. apply (H d); auto.
  - rewrite IH; [reflexivity|]. intros c' Hc'. apply H. auto.
Qed.

Lemma append_cons c s t : String c s +:+ t = String c (s +:+ t).
Proof. reflexivity. Qed.

Lemma append_empty_r s : s +:+ EmptyString = s.
Proof.
  induction s as [|c s IH]; [reflexivity|].
  rewrite append_cons, IH. reflexivity.
Qed.

Lemma prefix_append t r : String.prefix t (t +:+ r) = true.
Proof.
  induction t as [|c t IH].
  - destruct r; reflexivity.
  - rewrite append_cons. simpl.
    destruct (ascii_dec c c); [exact IH|congruence].
Qed.

Lemma join_head sep x rest : exists r, Py.join sep (x :: rest) = x +:+ r.
Proof.
  destruct rest as [|y rest].
  - exists EmptyString. simpl. symmetry. apply append_empty_r.
  - eexists. apply join_cons.
Qed.

(** ** Path remapper *)

(** C6. [remap_root] is a total function whose result begins with the target
    root, for every path (absent and empty included) and every pair of roots.
    When the first backslash segment equals the source root up to case, the
    result is the target root followed by the other segments unchanged;
    otherwise it is the target root, a backslash and the whole path. *)
Theorem remap_root_total_postcondition
    (src_path : option string) (src_root tgt_root : string) :
  let out := remap_root src_path src_root tgt_root in
  let sep := String Py.backslash EmptyString in
  Py.startswith out tgt_root = true /\
  (exists r, out = tgt_root +:+ r) /\
  (Py.truthy_str src_path = false -> out = tgt_root) /\
  (forall p p0 rest,
      src_path = Some p -> p <> EmptyString ->
      Py.split Py.backslash p = p0 :: rest ->
      p = Py.join sep (p0 :: rest) /\
      (Py.lower p0 = Py.lower src_root -> out = Py.join sep (tgt_root :: rest)) /\
      (Py.lower p0 <> Py.lower src_root -> out = tgt_root +:+ sep +:+ p)).
Proof.
  intros out sep.
  assert (Hpre : exists r, out = tgt_root +:+ r).
  { subst out. unfold remap_root.
    destruct src_path as [[|c p]|].
    - exists EmptyString. symmetry. apply append_empty_r.
    - destruct (Py.split Py.backslash (String c p)) as [|p0 rest].
      + apply join_head.
      + destruct (String.eqb _ _); apply join_head.
    - exists EmptyString. symmetry. apply append_empty_r. }
  split; [|split; [exact Hpre|split]].
  - destruct Hpre as [r ->]. apply prefix_append.
  - subst out. destruct src_path as [[|c p]|]; intros H; try discriminate H; reflexivity.
  - intros p p0 rest -> Hp Hsplit.
    assert (Hjoin : p = Py.join sep (p0 :: rest)).
    { rewrite <- Hsplit. symmetry. apply join_split. }
    split; [exact Hjoin|].
    subst out. unfold remap_root.
    destruct p as [|c p]; [congruence|].
    rewrite Hsplit. fold sep.
    split; intros Hlow.
    + rewrite Hlow, String.eqb_refl. reflexivity.
    + apply String.eqb_neq in Hlow. rewrite Hlow.
      rewrite join_cons. rewrite <- Hjoin. reflexivity.
Qed.

Lemma remap_root_total_postcondition_witness :
  remap_root (Some "SrcProj\TeamA\Sprint 1") "srcproj" "TgtProj"
  = "TgtProj\TeamA\Sprint 1".
Proof.
  pose proof (remap_root_total_postcondition
                (Some "SrcProj\TeamA\Sprint 1") "srcproj" "TgtProj") as H.
  destruct H as (_ & _ & _ & H).
  destruct (H "SrcProj\TeamA\Sprint 1" "SrcProj" ["TeamA"; "Sprint 1"]
              eq_refl ltac:(discriminate) eq_refl) as (_ & Hm & _).
  rewrite (Hm eq_refl). reflexivity.
Defined.

(** C8. Only the backslash is a delimiter: a path with forward slashes and no
    backslash is one segment; unless it equals the source root up to case as a
    whole, the result is the target root, a backslash and the path with its
    slashes. *)
Theorem remap_root_forward_slashes (p src_root tgt_root : string) :
  In Py.slash (list_ascii_of_string p) ->
  ~ In Py.backslash (list_ascii_of_string p) ->
  Py.split Py.backslash p = [p] /\
  remap_root (Some p) src_root tgt_root =
    if String.eqb (Py.lower p) (Py.lower src_root)
    then tgt_root
    else tgt_root +:+ String Py.backslash EmptyString +:+ p.
Proof.
  intros Hslash Hno.
  assert (Hsplit : Py.split Py.backslash p = [p]).
  { apply split_no_sep. intros c Hc ->. contradiction. }
  split; [exact Hsplit|].
  unfold remap_root. destruct p as [|c p]; [destruct Hslash|].
  rewrite Hsplit. destruct (String.eqb _ _); reflexivity.
Qed.

Lemma remap_root_forward_slashes_witness :
  remap_root (Some "SrcProj/TeamA") "SrcProj" "TgtProj" = "TgtProj\SrcProj/TeamA".
Proof.
  refine (proj2 (remap_root_forward_slashes "SrcProj/TeamA" "SrcProj" "TgtProj" _ _)).
  - vm_compute. tauto.
  - vm_compute. intros H. decompose [or] H; try discriminate; assumption.
Defined.

(** ** Relation classifier *)

Lemma classify_eq acc r :
  classify acc r =
  match rel_id r with
  | None => acc
  | Some wid =>
      if is_forward r then ({[wid]} ∪ acc.1, acc.2)
      else if ends_related r then (acc.1, {[wid]} ∪ acc.2)
      else acc
  end.
Proof. reflexivity. Qed.




(** C10. A relation whose URL does not end in an integer is skipped: the
    result of [get_children_related] is the one computed from the other
    relations alone, so the relation contributes to neither list, and the
    function, being total, returns on every relations array. *)
Theorem get_children_related_skips_malformed
    (src : Source) (parent_id : Z) (it : src_item)
    (before after : list relation) (r : relation) :
  src_items src !! parent_id = Some it ->
  s_relations it = Some (before ++ r :: after) ->
  rel_id r = None ->
  get_children_related src parent_id = children_related_of (Some (before ++ after)).
Proof.
  intros Hit Hrels Hid.
  unfold get_children_related. rewrite Hit. simpl. rewrite Hrels.
  unfold children_related_of. simpl.
  rewrite !foldl_app. simpl. rewrite (classify_eq _ r), Hid. reflexivity.
Qed.

Lemma get_children_related_skips_malformed_witness :
  get_children_related Scenario.source 100 = ([101], [102]).
Proof.
  rewrite (get_children_related_skips_malformed Scenario.source 100
             Scenario.bundle_100
             [Scenario.forward "101"; Scenario.related_to "102";
              Scenario.related_to "101"] [] Scenario.attachment
             eq_refl eq_refl eq_refl).
  vm_compute. reflexivity.
Defined.

(** ** Entity upsert *)

Lemma create_patch_field fields parent_id k v :
  AddField k v ∈ create_patch fields parent_id <-> (k, Some v) ∈ fields.
Proof.
  unfold create_patch. rewrite elem_of_app, list_elem_of_omap. split.
  - intros [((k', o) & Hin & Heq)|Hrel].
    + destruct o as [v'|]; simpl in Heq; [|discriminate].
      injection Heq as -> ->. exact Hin.
    + destruct parent_id; [|inversion Hrel].
      apply list_elem_of_singleton in Hrel. discriminate.
  - intros Hin. left. exists (k, Some v). split; [exact Hin|reflexivity].
Qed.

(** The claim of C4 fails as stated: with no description in the source the
    creation patch still carries a description, the empty string. *)
Lemma absent_description_is_written :
  get_str (∅ : gmap string jval) "System.Description" = None /\
  ~ (forall v, AddField "System.Description" v ∉
               create_patch (build_fields Scenario.real_args Scenario.source
                               Scenario.empty_target ∅ 100) None).
Proof.
  split; [reflexivity|].
  intros H. apply (H EmptyString).
  apply create_patch_field. vm_compute.
  apply list_elem_of_In. simpl. tauto.
Qed.

(** C4 (amended). [create_work_item] writes exactly the fields whose value is
    not [None]. The engine gives every item its correlation id, a description
    and tags that are the source value or the empty string (so an empty or
    absent one is written as the empty string, not omitted) and both paths;
    the title is ["Migrated <id>"] when the source has no title, the source
    title when it is a string, and is left out only when the source title is
    [null]. *)
Theorem upsert_patch_fields
    (args : Args) (src : Source) (T : Target) (f : gmap string jval)
    (wid : Z) (parent_id : option Z) :
  let fields := build_fields args src T f wid in
  let patch := create_patch fields parent_id in
  (forall k v, AddField k v ∈ patch <-> (k, Some v) ∈ fields) /\
  (f !! "System.Title" = None ->
   AddField "System.Title" ("Migrated " +:+ Py.str wid) ∈ patch) /\
  (forall s, f !! "System.Title" = Some (JStr s) ->
             AddField "System.Title" s ∈ patch) /\
  (f !! "System.Title" = Some JNull ->
   forall v, AddField "System.Title" v ∉ patch) /\
  AddField "System.Description" (Py.or_empty (get_str f "System.Description")) ∈ patch /\
  AddField "System.Tags" (Py.or_empty (get_str f "System.Tags")) ∈ patch /\
  AddField REFLECTED (Py.str wid) ∈ patch /\
  (exists a, AddField "System.AreaPath" a ∈ patch /\
             (Py.truthy_str (get_str f "System.AreaPath") = false ->
              a = area_root args T)) /\
  (exists i, AddField "System.IterationPath" i ∈ patch /\
             (Py.truthy_str (get_str f "System.IterationPath") = false ->
              i = iter_root args T)).
Proof.
  intros fields patch.
  assert (Hin : forall k v, AddField k v ∈ patch <-> (k, Some v) ∈ fields)
    by (intros; apply create_patch_field).
  split; [exact Hin|].
  subst fields. unfold build_fields in *.
  split; [|split; [|split]].
  - intros Ht. apply Hin. rewrite Ht. left.
  - intros s Ht. apply Hin. rewrite Ht. left.
  - intros Ht v Hv. apply Hin in Hv. rewrite Ht in Hv.
    apply list_elem_of_In in Hv. simpl in Hv.
    unfold REFLECTED in Hv.
    decompose [or] Hv; try discriminate; assumption.
  - split; [apply Hin; do 1 right; left|].
    split; [apply Hin; do 2 right; left|].
    split; [apply Hin; do 3 right; left|].
    split.
    + eexists. split; [apply Hin; do 4 right; left|].
      intros Hp. destruct (force_root args); [reflexivity|].
      destruct (get_str f "System.AreaPath") as [[|c p]|];
        try discriminate Hp; reflexivity.
    + eexists. split; [apply Hin; do 5 right; left|].
      intros Hp. destruct (force_root args); [reflexivity|].
      destruct (get_str f "System.IterationPath") as [[|c p]|];
        try discriminate Hp; reflexivity.
Qed.

Lemma upsert_patch_fields_witness :
  AddField "System.Title" "Migrated 101" ∈
    create_patch (build_fields Scenario.real_args Scenario.source
                    Scenario.empty_target (s_fields Scenario.story_101) 101) (Some 1).
Proof.
  exact (proj1 (proj2 (upsert_patch_fields Scenario.real_args Scenario.source
                         Scenario.empty_target (s_fields Scenario.story_101)
                         101 (Some 1))) eq_refl).
Defined.

(** ** Type filter *)

Lemma batch_get_lookup src wid it fields k :
  src_items src !! wid = Some it -> k ∈ fields ->
  exists cf, batch_get src wid fields = Some cf /\ cf !! k = s_fields it !! k.
Proof.
  intros Hit Hk. unfold batch_get. rewrite Hit. simpl.
  eexists. split; [reflexivity|].
  rewrite map_lookup_filter.
  destruct (s_fields it !! k) as [v|]; simpl; [|reflexivity].
  rewrite option_guard_True; [reflexivity|exact Hk].
Qed.

Lemma batch_get_source src wid fields f :
  batch_get src wid fields = Some f -> is_Some (src_items src !! wid).
Proof.
  unfold batch_get. destruct (src_items src !! wid); [eauto|discriminate].
Qed.

Lemma work_item_type_requested : "System.WorkItemType" ∈ child_fields.
Proof. apply list_elem_of_In. simpl. tauto. Qed.

(** The type filter of the two loops: an item whose type, stripped and
    lower-cased, has no entry in the type mapping table makes the child step
    and the related step return the state they were given. *)
Lemma unmapped_step_skips
    (args : Args) (src : Source) (tgt_parent : Z) (st : run) (wid : Z)
    (it : src_item) :
  src_items src !! wid = Some it ->
  CHILD_TYPE_MAP_LOWER !!
    Py.lower (Py.strip (Py.or_empty (get_str (s_fields it) "System.WorkItemType")))
    = None ->
  step_child args src tgt_parent st wid = st /\
  step_related args src tgt_parent st wid = st.
Proof.
  intros Hit Hty.
  destruct (batch_get_lookup src wid it child_fields "System.WorkItemType"
              Hit work_item_type_requested) as (cf & Hcf & Hk).
  assert (Hm : mapped_type cf = None).
  { unfold mapped_type, get_str. rewrite Hk.
    unfold get_str in Hty. rewrite Hty. reflexivity. }
  unfold step_child, step_related. rewrite Hcf, Hm. split; reflexivity.
Qed.

Lemma unmapped_not_linkable (src : Source) (wid : Z) (it : src_item) :
  src_items src !! wid = Some it ->
  CHILD_TYPE_MAP_LOWER !!
    Py.lower (Py.strip (Py.or_empty (get_str (s_fields it) "System.WorkItemType")))
    = None ->
  ~ linkable src wid.
Proof.
  intros Hit Hty (cf & Hcf & Hsome).
  destruct (batch_get_lookup src wid it child_fields "System.WorkItemType"
              Hit work_item_type_requested) as (cf' & Hcf' & Hk).
  rewrite Hcf in Hcf'. injection Hcf' as <-.
  assert (Hm : mapped_type cf = None).
  { unfold mapped_type, get_str. rewrite Hk.
    unfold get_str in Hty. rewrite Hty. reflexivity. }
  rewrite Hm in Hsome. destruct Hsome as [x Hx]. discriminate Hx.
Qed.

(** ** Parent enumerator *)

Section Enumerator.

Variable src : Source.
Variables excl_field excl_value : option string.

Let rows := parent_rows src excl_field excl_value.
Let page_of := wiql_parents src excl_field excl_value.

(** The server honours the bound of the query. *)
Lemma wiql_parents_elem last_id x :
  x ∈ page_of last_id -> last_id < x /\ x ∈ rows.
Proof.
  unfold page_of, wiql_parents. intros Hx.
  apply elem_of_take in Hx as (i & Hi & _).
  apply list_elem_of_lookup_2 in Hi.
  apply list_elem_of_filter in Hi. exact Hi.
Qed.

Lemma drain_page_yields max_items page : forall last_id fetched x,
  x ∈ (drain_page max_items page last_id fetched).1 -> x ∈ page.
Proof.
  induction page as [|wid rest IH]; intros last_id fetched x; simpl.
  - auto.
  - destruct (max_reached max_items (fetched + 1)); simpl.
    + intros H. apply list_elem_of_singleton in H as ->. left.
    + specialize (IH wid (fetched + 1) x).
      destruct (drain_page max_items rest wid (fetched + 1)) as [ys k]; simpl in *.
      intros H. apply elem_of_cons in H as [->|H]; [left|right; auto].
Qed.

Lemma drain_page_next max_items page : forall last_id fetched last_id' fetched',
  (drain_page max_items page last_id fetched).2 = Some (last_id', fetched') ->
  last_id' = last_id \/ last_id' ∈ page.
Proof.
  induction page as [|wid rest IH]; intros last_id fetched last_id' fetched'; simpl.
  - intros H. simplify_eq. auto.
  - destruct (max_reached max_items (fetched + 1)); simpl; [discriminate|].
    specialize (IH wid (fetched + 1) last_id' fetched').
    destruct (drain_page max_items rest wid (fetched + 1)) as [ys k]; simpl in *.
    intros H. destruct (IH H) as [->|Hin]; right; [left|right; exact Hin].
Qed.

Lemma drain_page_next_cons max_items wid rest last_id fetched last_id' fetched' :
  (drain_page max_items (wid :: rest) last_id fetched).2 = Some (last_id', fetched') ->
  last_id' ∈ wid :: rest.
Proof.
  simpl. destruct (max_reached max_items (fetched + 1)); simpl; [discriminate|].
  pose proof (drain_page_next max_items rest wid (fetched + 1) last_id' fetched') as H.
  destruct (drain_page max_items rest wid (fetched + 1)) as [ys k]; simpl in *.
  intros Hk. destruct (H Hk) as [->|Hin]; [left|right; exact Hin].
Qed.

(** One turn of the [while] loop. *)
Lemma iterate_loop_S max_items n last_id fetched :
  iterate_loop src max_items excl_field excl_value (S n) last_id fetched =
  match page_of last_id with
  | [] => Some []
  | _ :: _ =>
      match drain_page max_items (page_of last_id) last_id fetched with
      | (ys, None) => Some ys
      | (ys, Some (last_id', fetched')) =>
          (fun zs => ys ++ zs) <$>
            iterate_loop src max_items excl_field excl_value n last_id' fetched'
      end
  end.
Proof.
  unfold page_of. simpl.
  destruct (wiql_parents src excl_field excl_value last_id); reflexivity.
Qed.

(** Every id the loop yields is above the [last_id] it starts from. *)
Lemma iterate_loop_above max_items fuel : forall last_id fetched l,
  iterate_loop src max_items excl_field excl_value fuel last_id fetched = Some l ->
  forall x, x ∈ l -> last_id < x.
Proof.
  induction fuel as [|n IH]; intros last_id fetched l; [discriminate|].
  rewrite iterate_loop_S.
  pose proof (wiql_parents_elem last_id) as Hpage.
  destruct (page_of last_id) as [|wid rest].
  { intros [= <-] x Hx. inversion Hx. }
  pose proof (drain_page_yields max_items (wid :: rest) last_id fetched) as Hys.
  pose proof (drain_page_next_cons max_items wid rest last_id fetched) as Hnext.
  destruct (drain_page max_items (wid :: rest) last_id fetched) as [ys [[l' f']|]];
    simpl in *.
  - specialize (Hnext l' f' eq_refl).
    destruct (iterate_loop src max_items excl_field excl_value n l' f') as [zs|] eqn:Hrec;
      simpl; [|discriminate].
    intros [= <-] x Hx. apply elem_of_app in Hx as [Hx|Hx].
    + apply Hpage, Hys, Hx.
    + pose proof (IH _ _ _ Hrec x Hx). pose proof (proj1 (Hpage _ Hnext)). lia.
  - intros [= <-] x Hx. apply Hpage, Hys, Hx.
Qed.

(** Narrowing a filter by an element it used to keep makes it shorter. *)
Lemma filter_above_shrinks (l : list Z) (a b : Z) :
  a < b -> b ∈ l ->
  (length (filter (fun i => (b < i)%Z) l) < length (filter (fun i => (a < i)%Z) l))%nat.
Proof.
  intros Hab. induction l as [|x l IH]; intros Hin; [inversion Hin|].
  assert (Hle : (length (filter (fun i => (b < i)%Z) l)
                 <= length (filter (fun i => (a < i)%Z) l))%nat).
  { clear -Hab. induction l as [|y l IH]; [reflexivity|].
    rewrite !filter_cons. repeat case_decide; simpl; lia. }
  rewrite !filter_cons.
  apply elem_of_cons in Hin as [<-|Hin].
  - repeat case_decide; simpl; lia.
  - specialize (IH Hin). repeat case_decide; simpl; lia.
Qed.

(** The loop ends: one more query than there are rows is enough. *)
Lemma iterate_loop_returns max_items fuel : forall last_id fetched,
  (length (filter (fun i => (last_id < i)%Z) rows) < fuel)%nat ->
  is_Some (iterate_loop src max_items excl_field excl_value fuel last_id fetched).
Proof.
  induction fuel as [|n IH]; intros last_id fetched Hlen; [simpl in Hlen; lia|].
  rewrite iterate_loop_S.
  pose proof (wiql_parents_elem last_id) as Hpage.
  destruct (page_of last_id) as [|wid rest]; [eauto|].
  pose proof (drain_page_next_cons max_items wid rest last_id fetched) as Hnext.
  destruct (drain_page max_items (wid :: rest) last_id fetched) as [ys [[l' f']|]];
    simpl in *; [|eauto].
  destruct (Hpage _ (Hnext l' f' eq_refl)) as [Hgt Hin].
  pose proof (filter_above_shrinks rows last_id l' Hgt Hin) as Hlt.
  destruct (IH l' f') as [zs ->]; [fold rows in Hlen; lia|]. simpl. eauto.
Qed.

Lemma iterate_parent_ids_returns max_items start_id :
  is_Some (iterate_parent_ids src max_items start_id excl_field excl_value
             (S (length rows))).
Proof.
  apply iterate_loop_returns.
  pose proof (length_filter (fun i => first_last_id start_id < i) rows). lia.
Qed.

(** A maximum of [0] is no maximum. *)
Lemma drain_page_max_zero page : forall last_id fetched,
  drain_page (Some 0) page last_id fetched = drain_page None page last_id fetched.
Proof.
  induction page as [|wid rest IH]; intros last_id fetched; simpl; [reflexivity|].
  rewrite IH. reflexivity.
Qed.

Lemma iterate_loop_max_zero fuel : forall last_id fetched,
  iterate_loop src (Some 0) excl_field excl_value fuel last_id fetched =
  iterate_loop src None excl_field excl_value fuel last_id fetched.
Proof.
  induction fuel as [|n IH]; intros last_id fetched; [reflexivity|].
  rewrite !iterate_loop_S.
  destruct (page_of last_id) as [|wid rest]; [reflexivity|].
  rewrite drain_page_max_zero.
  destruct (drain_page None (wid :: rest) last_id fetched) as [ys [[l' f']|]];
    [rewrite IH|]; reflexivity.
Qed.

(** Under a positive maximum [m] the page loop yields at most what is left
    of [m], and hands over to the next query only below [m]. *)
Lemma drain_page_at_most m page : forall last_id fetched,
  0 < m -> fetched < m ->
  let r := drain_page (Some m) page last_id fetched in
  Z.of_nat (length r.1) <= m - fetched /\
  (forall l' f', r.2 = Some (l', f') ->
                 f' = fetched + Z.of_nat (length r.1) /\ f' < m).
Proof.
  induction page as [|wid rest IH]; intros last_id fetched Hm Hf; simpl.
  - split; [lia|]. intros l' f' H. simplify_eq. lia.
  - destruct (Z.eqb_spec m 0) as [->|_]; [lia|]. simpl.
    destruct (Z.leb_spec m (fetched + 1)) as [Hle|Hgt]; simpl.
    + split; [lia|discriminate].
    + specialize (IH wid (fetched + 1) Hm Hgt). simpl in IH.
      destruct (drain_page (Some m) rest wid (fetched + 1)) as [ys k]; simpl in *.
      destruct IH as [IH1 IH2]. split; [lia|].
      intros l' f' Hk. destruct (IH2 l' f' Hk). lia.
Qed.

Lemma iterate_loop_at_most m fuel : forall last_id fetched l,
  0 < m -> fetched < m ->
  iterate_loop src (Some m) excl_field excl_value fuel last_id fetched = Some l ->
  Z.of_nat (length l) <= m - fetched.
Proof.
  induction fuel as [|n IH]; intros last_id fetched l Hm Hf; [discriminate|].
  rewrite iterate_loop_S.
  destruct (page_of last_id) as [|wid rest].
  { intros [= <-]. simpl. lia. }
  pose proof (drain_page_at_most m (wid :: rest) last_id fetched Hm Hf) as [H1 H2].
  destruct (drain_page (Some m) (wid :: rest) last_id fetched) as [ys [[l' f']|]];
    simpl in *.
  - destruct (H2 l' f' eq_refl) as [-> Hlt].
    destruct (iterate_loop src (Some m) excl_field excl_value n l' _) as [zs|] eqn:Hrec;
      simpl; [|discriminate].
    intros [= <-]. rewrite length_app.
    pose proof (IH _ _ _ Hm Hlt Hrec). lia.
  - intros [= <-]. exact H1.
Qed.

(** The rows come in strictly increasing order of id. *)
Lemma rows_NoDup : NoDup rows.
Proof.
  unfold rows, parent_rows. rewrite merge_sort_Permutation.
  eapply sublist_NoDup; [apply (NoDup_fst_map_to_list (src_items src))|].
  apply fmap_sublist, sublist_filter.
Qed.

Lemma le_NoDup_lt (l : list Z) :
  StronglySorted Z.le l -> NoDup l -> StronglySorted Z.lt l.
Proof.
  induction 1 as [|x l Hs IH Hall]; intros Hnd; [constructor|].
  apply NoDup_cons in Hnd as [Hx Hnd]. constructor; [auto|].
  apply Forall_forall. intros y Hy.
  rewrite Forall_forall in Hall. specialize (Hall y Hy).
  assert (x <> y) by (intros ->; contradiction). lia.
Qed.

Lemma rows_sorted : StronglySorted Z.lt rows.
Proof.
  apply le_NoDup_lt; [|apply rows_NoDup].
  unfold rows, parent_rows. apply StronglySorted_merge_sort; apply _.
Qed.

Lemma filter_sorted (P : Z -> Prop) `{!forall x, Decision (P x)} (l : list Z) :
  StronglySorted Z.lt l -> StronglySorted Z.lt (filter P l).
Proof.
  induction 1 as [|x l Hs IH Hall]; [constructor|].
  rewrite filter_cons. case_decide; [|exact IH].
  constructor; [exact IH|].
  apply Forall_forall. intros y Hy. apply list_elem_of_filter in Hy as [_ Hy].
  rewrite Forall_forall in Hall. auto.
Qed.

(** The first row above [s - 1] is [s] itself when [s] is a row. *)
Lemma head_above_pred s :
  s ∈ rows -> head (filter (fun i => s - 1 < i) rows) = Some s.
Proof.
  intros Hs.
  assert (Hin : s ∈ filter (fun i => s - 1 < i) rows)
    by (apply list_elem_of_filter; split; [lia|exact Hs]).
  pose proof (filter_sorted (fun i => s - 1 < i) rows rows_sorted) as Hsorted.
  destruct (filter (fun i => s - 1 < i) rows) as [|x F] eqn:HF; [inversion Hin|].
  simpl. f_equal.
  assert (Hx : s - 1 < x).
  { assert (Hx : x ∈ filter (fun i => s - 1 < i) rows) by (rewrite HF; left).
    apply list_elem_of_filter in Hx as [Hx _]. exact Hx. }
  apply elem_of_cons in Hin as [->|Hin]; [reflexivity|].
  apply StronglySorted_cons in Hsorted as [Hall _].
  rewrite Forall_forall in Hall. specialize (Hall s Hin). lia.
Qed.

(** The first id of a non-empty page is the first id yielded. *)
Lemma drain_page_head max_items wid rest last_id fetched :
  head (drain_page max_items (wid :: rest) last_id fetched).1 = Some wid.
Proof.
  simpl. destruct (max_reached max_items (fetched + 1)); [reflexivity|].
  destruct (drain_page max_items rest wid (fetched + 1)); reflexivity.
Qed.

Lemma iterate_loop_head max_items fuel last_id fetched l wid :
  (0 < src_query_cap src)%nat ->
  head (filter (fun i => last_id < i) rows) = Some wid ->
  iterate_loop src max_items excl_field excl_value fuel last_id fetched = Some l ->
  head l = Some wid.
Proof.
  intros Hcap Hhead. destruct fuel as [|n]; [discriminate|].
  rewrite iterate_loop_S.
  assert (Hpage : exists rest, page_of last_id = wid :: rest).
  { unfold page_of, wiql_parents. fold rows.
    destruct (filter (fun i => last_id < i) rows) as [|x F]; [discriminate|].
    injection Hhead as ->.
    destruct (src_query_cap src) as [|c]; [lia|]. simpl. eauto. }
  destruct Hpage as [rest ->].
  pose proof (drain_page_head max_items wid rest last_id fetched) as Hd.
  destruct (drain_page max_items (wid :: rest) last_id fetched) as [ys [[l' f']|]];
    simpl in Hd.
  - destruct (iterate_loop src max_items excl_field excl_value n l' f') as [zs|];
      intros H; simplify_eq/=.
    destruct ys; simplify_eq/=. reflexivity.
  - intros [= <-]. exact Hd.
Qed.

Lemma last_cons_default (x : Z) (l : list Z) (d d' : Z) :
  List.last (x :: l) d = List.last (x :: l) d'.
Proof.
  revert x. induction l as [|y l IH]; intros x; [reflexivity|].
  change (List.last (y :: l) d = List.last (y :: l) d'). apply IH.
Qed.

Lemma last_cons_elem (x : Z) (l : list Z) (d : Z) : List.last (x :: l) d ∈ x :: l.
Proof.
  revert x. induction l as [|y l IH]; intros x; [left|].
  change (List.last (y :: l) d ∈ x :: y :: l). right. apply IH.
Qed.

(** Without a maximum the page loop yields the whole page and moves
    [last_id] to its last id. *)
Lemma drain_page_unlimited page : forall last_id fetched,
  drain_page None page last_id fetched =
  (page, Some (List.last page last_id, fetched + Z.of_nat (length page))).
Proof.
  induction page as [|wid rest IH]; intros last_id fetched.
  - simpl. do 3 f_equal. lia.
  - change (drain_page None (wid :: rest) last_id fetched)
      with (let '(ys, k) := drain_page None rest wid (fetched + 1) in (wid :: ys, k)).
    rewrite IH. f_equal. f_equal. f_equal.
    + destruct rest as [|z rest]; [reflexivity|].
      change (List.last (wid :: z :: rest) last_id)
        with (List.last (z :: rest) last_id).
      apply last_cons_default.
    + simpl length. lia.
Qed.

(** The rows above the last id of a page are the rows the page left out. *)
Lemma filter_above_last_taken (F : list Z) (n : nat) (x : Z) (t : list Z) (d : Z) :
  StronglySorted Z.lt F -> take n F = x :: t ->
  filter (fun i => List.last (x :: t) d < i) F = drop n F.
Proof.
  intros Hs Htake.
  assert (Hlast : exists pre, x :: t = pre ++ [List.last (x :: t) d]).
  { exists (removelast (x :: t)). apply app_removelast_last. discriminate. }
  destruct Hlast as [pre Hpre]. set (b := List.last (x :: t) d) in *.
  rewrite <- (take_drop n F) at 1. rewrite <- (take_drop n F) in Hs.
  rewrite Htake, Hpre in *.
  apply StronglySorted_app in Hs as (Hcross & Hl & Hr).
  apply StronglySorted_app in Hl as (Hpb & _ & _).
  rewrite filter_app.
  assert (Hnil : filter (fun i => b < i) (pre ++ [b]) = []).
  { destruct (filter (fun i => b < i) (pre ++ [b])) as [|y ys] eqn:Hf; [reflexivity|].
    assert (Hy : y ∈ filter (fun i => b < i) (pre ++ [b])) by (rewrite Hf; left).
    exfalso. apply list_elem_of_filter in Hy as [Hlt Hy].
    apply elem_of_app in Hy as [Hy|Hy].
    - specialize (Hpb y b Hy ltac:(left)). lia.
    - apply list_elem_of_singleton in Hy. lia. }
  rewrite Hnil. simpl.
  assert (Hall : Forall (fun i => b < i) (drop n F)).
  { apply Forall_forall. intros y Hy. apply Hcross; [|exact Hy].
    apply elem_of_app. right. left. }
  clear -Hall. induction Hall as [|y l Hy Hall IH]; [reflexivity|].
  rewrite filter_cons, decide_True by exact Hy. f_equal. exact IH.
Qed.

(** Without a maximum the generator yields every row above [last_id]. *)
Lemma iterate_loop_unlimited fuel : forall last_id fetched,
  (0 < src_query_cap src)%nat ->
  (length (filter (fun i => (last_id < i)%Z) rows) < fuel)%nat ->
  iterate_loop src None excl_field excl_value fuel last_id fetched =
  Some (filter (fun i => last_id < i) rows).
Proof.
  induction fuel as [|n IH]; intros last_id fetched Hcap Hlen; [simpl in Hlen; lia|].
  rewrite iterate_loop_S.
  pose proof (wiql_parents_elem last_id) as Hpage.
  unfold page_of, wiql_parents in Hpage |- *. fold rows in Hpage |- *.
  set (F := filter (fun i => last_id < i) rows) in *.
  destruct (take (src_query_cap src) F) as [|x t] eqn:Htake.
  { apply take_nil_inv in Htake as [H0| ->]; [lia|reflexivity]. }
  rewrite drain_page_unlimited.
  set (b := List.last (x :: t) last_id).
  assert (Hb : b ∈ x :: t).
  { apply last_cons_elem. }
  destruct (Hpage b Hb) as [Hgt Hin].
  assert (Hnext : filter (fun i => b < i) rows = drop (src_query_cap src) F).
  { rewrite <- (filter_above_last_taken F _ x t last_id);
      [|apply filter_sorted, rows_sorted|exact Htake].
    fold b. unfold F. symmetry. apply list_filter_filter_l. intros y. lia. }
  rewrite IH; [|exact Hcap|].
  - change (Some ((x :: t) ++ filter (fun i => b < i) rows) = Some F).
    rewrite Hnext, <- Htake, take_drop. reflexivity.
  - pose proof (filter_above_shrinks rows last_id b Hgt Hin). fold F in H. lia.
Qed.

End Enumerator.

Lemma first_last_id_positive s : 0 < s -> first_last_id (Some s) = s - 1.
Proof.
  intros Hs. unfold first_last_id.
  destruct (Z.eqb_spec s 0); [lia|]. destruct (Z.ltb_spec 0 s); [reflexivity|lia].
Qed.

Lemma first_last_id_nonpositive s : s <= 0 -> first_last_id (Some s) = first_last_id None.
Proof.
  intros Hs. unfold first_last_id.
  destruct (Z.eqb_spec s 0); [reflexivity|]. destruct (Z.ltb_spec 0 s); [lia|reflexivity].
Qed.

(** The claim of C3 fails as stated: started at 5 over the roots 5 and 9, the
    enumerator yields 5 again. *)
Lemma start_id_is_yielded_again :
  ~ (forall l,
        iterate_parent_ids Scenario.two_roots None (Some 5) None None 3 = Some l ->
        forall x, x ∈ l -> 5 < x).
Proof.
  intros H.
  assert (Hrun : iterate_parent_ids Scenario.two_roots None (Some 5) None None 3
                 = Some [5; 9]) by (vm_compute; reflexivity).
  specialize (H [5; 9] Hrun 5 ltac:(left)). lia.
Qed.

(** C3 (amended). A positive starting id [s] is an inclusive lower bound: the
    enumeration returns, every id it yields is at least [s], and when [s]
    itself is still a matching root (and the server returns rows at all) it
    is the first id yielded. A run resumed from the last id seen therefore
    yields that id again. *)
Theorem start_id_is_inclusive
    (src : Source) (max_items : option Z) (s : Z) (excl_field excl_value : option string) :
  0 < s ->
  is_Some (iterate_parent_ids src max_items (Some s) excl_field excl_value
             (S (length (parent_rows src excl_field excl_value)))) /\
  forall fuel l,
    iterate_parent_ids src max_items (Some s) excl_field excl_value fuel = Some l ->
    (forall x, x ∈ l -> s <= x) /\
    (s ∈ parent_rows src excl_field excl_value ->
     (0 < src_query_cap src)%nat -> head l = Some s).
Proof.
  intros Hs. split; [apply iterate_parent_ids_returns|].
  intros fuel l. unfold iterate_parent_ids.
  rewrite (first_last_id_positive s Hs). intros Hrun. split.
  - intros x Hx.
    pose proof (iterate_loop_above src excl_field excl_value max_items fuel
                  _ _ _ Hrun x Hx). lia.
  - intros Hrow Hcap.
    eapply iterate_loop_head; [exact Hcap| |exact Hrun].
    apply head_above_pred, Hrow.
Qed.

Lemma start_id_is_inclusive_witness :
  exists l,
    iterate_parent_ids Scenario.two_roots None (Some 5) None None 3 = Some l /\
    head l = Some 5 /\ Forall (fun x => 5 <= x) l.
Proof.
  destruct (iterate_parent_ids Scenario.two_roots None (Some 5) None None 3)
    as [l|] eqn:Hl; [|vm_compute in Hl; discriminate].
  destruct (start_id_is_inclusive Scenario.two_roots None 5 None None
              ltac:(lia)) as [_ H].
  destruct (H 3%nat l Hl) as [Hge Hhead].
  exists l. split; [reflexivity|]. split.
  - apply Hhead; [|vm_compute; lia].
    apply list_elem_of_In. vm_compute. tauto.
  - apply Forall_forall. exact Hge.
Defined.

(** C9. In [iterate_parent_ids] a maximum of [0] behaves as no maximum, and
    without a maximum every matching row above the bound is yielded (when the
    server returns rows at all); a starting id that is [0] or negative behaves
    as no starting id; under a positive maximum [m] at most [m] ids are
    yielded. The enumeration always returns. *)
Theorem falsy_max_and_start
    (src : Source) (excl_field excl_value : option string) :
  let rows := parent_rows src excl_field excl_value in
  (forall start_id fuel,
      iterate_parent_ids src (Some 0) start_id excl_field excl_value fuel =
      iterate_parent_ids src None start_id excl_field excl_value fuel) /\
  ((0 < src_query_cap src)%nat ->
   forall start_id,
     iterate_parent_ids src None start_id excl_field excl_value (S (length rows)) =
     Some (filter (fun i => first_last_id start_id < i) rows)) /\
  (forall max_items s fuel,
      s <= 0 ->
      iterate_parent_ids src max_items (Some s) excl_field excl_value fuel =
      iterate_parent_ids src max_items None excl_field excl_value fuel) /\
  (forall max_items start_id,
      is_Some (iterate_parent_ids src max_items start_id excl_field excl_value
                 (S (length rows)))) /\
  (forall m start_id fuel l,
      0 < m ->
      iterate_parent_ids src (Some m) start_id excl_field excl_value fuel = Some l ->
      Z.of_nat (length l) <= m).
Proof.
  intros rows. repeat split.
  - intros start_id fuel. apply iterate_loop_max_zero.
  - intros Hcap start_id. unfold iterate_parent_ids.
    apply iterate_loop_unlimited; [exact Hcap|].
    pose proof (length_filter (fun i => first_last_id start_id < i)
                  (parent_rows src excl_field excl_value)).
    subst rows. lia.
  - intros max_items s fuel Hs. unfold iterate_parent_ids.
    rewrite (first_last_id_nonpositive s Hs). reflexivity.
  - intros max_items start_id. apply iterate_parent_ids_returns.
  - intros m start_id fuel l Hm Hrun.
    pose proof (iterate_loop_at_most src excl_field excl_value m fuel
                  _ 0 l Hm Hm Hrun). lia.
Qed.

Lemma falsy_max_and_start_witness :
  iterate_parent_ids Scenario.two_roots None (Some (-4)) None None 3 = Some [5; 9] /\
  Z.of_nat (length [5]) <= 1.
Proof.
  pose proof (falsy_max_and_start Scenario.two_roots None None)
    as (_ & Hall & Hneg & _ & Hmax).
  split.
  - rewrite (Hneg None (-4) 3%nat ltac:(lia)).
    refine (eq_trans (Hall _ None) _); [vm_compute; lia|].
    vm_compute. reflexivity.
  - apply (Hmax 1 None 3%nat [5] ltac:(lia)). vm_compute. reflexivity.
Defined.

(** ** Correlation lookups on the target *)

Lemma find_positive T wid z : find_target_by_reflected T wid = Some z -> 0 < z.
Proof.
  unfold find_target_by_reflected.
  destruct (filter _ (tgt_items T)) as [|it l]; simpl; [discriminate|].
  intros [= <-]. lia.
Qed.

Lemma truthy_id_find T wid :
  truthy_id (find_target_by_reflected T wid) = find_target_by_reflected T wid.
Proof.
  destruct (find_target_by_reflected T wid) as [z|] eqn:Hf; [|reflexivity].
  apply find_positive in Hf. simpl. destruct (Z.eqb_spec z 0); [lia|reflexivity].
Qed.

Lemma neutral_relation rel to : neutral [AddRelation rel to].
Proof.
  intros ops. induction ops as [|[k v|r t] ops IH]; simpl; [reflexivity| |exact IH].
  rewrite IH. reflexivity.
Qed.

Lemma neutral_history text : neutral [AddField "System.History" text].
Proof.
  intros ops. induction ops as [|[k v|r t] ops IH]; simpl; [reflexivity| |exact IH].
  rewrite IH. reflexivity.
Qed.

Lemma keeps_lookups_refl T : keeps_lookups T T.
Proof. intros wid z H. exact H. Qed.

Lemma keeps_lookups_trans T1 T2 T3 :
  keeps_lookups T1 T2 -> keeps_lookups T2 T3 -> keeps_lookups T1 T3.
Proof. intros H12 H23 wid z H. apply H23, H12, H. Qed.

Lemma found_kept T T' wid : keeps_lookups T T' -> found T wid -> found T' wid.
Proof. intros Hk [z Hz]. exists z. apply Hk, Hz. Qed.

Lemma find_through_fmap (g : tgt_item -> tgt_item) (s : string) (l : list tgt_item) :
  (forall it, t_id (g it) = t_id it) ->
  (forall it, item_field (g it) REFLECTED = item_field it REFLECTED) ->
  (fun it => Z.pos (t_id it)) <$>
    filter (fun it => item_field it REFLECTED = Some s) (g <$> l)
  = (fun it => Z.pos (t_id it)) <$>
    filter (fun it => item_field it REFLECTED = Some s) l.
Proof.
  intros Hid Hfield. induction l as [|it l IH]; [reflexivity|].
  rewrite fmap_cons, !filter_cons, Hfield.
  case_decide; [|exact IH]. rewrite !fmap_cons, IH, Hid. reflexivity.
Qed.

Lemma patch_item_id workitem_id patch it : t_id (patch_item workitem_id patch it) = t_id it.
Proof. unfold patch_item. destruct (_ =? _); reflexivity. Qed.

Lemma patch_item_field workitem_id patch it :
  neutral patch ->
  item_field (patch_item workitem_id patch it) REFLECTED = item_field it REFLECTED.
Proof.
  intros Hn. unfold patch_item. destruct (_ =? _); [|reflexivity].
  unfold item_field. apply Hn.
Qed.

(** Patching an item with a neutral patch changes no lookup. *)
Lemma server_patch_find T workitem_id patch wid :
  neutral patch ->
  find_target_by_reflected (server_patch T workitem_id patch) wid
  = find_target_by_reflected T wid.
Proof.
  intros Hn. unfold find_target_by_reflected, server_patch.
  cbn [tgt_items]. f_equal.
  apply (find_through_fmap (patch_item workitem_id patch)).
  - apply patch_item_id.
  - intros it. apply patch_item_field, Hn.
Qed.

Lemma server_patch_ids T workitem_id patch :
  entity_ids (server_patch T workitem_id patch) = entity_ids T.
Proof.
  unfold entity_ids, server_patch. cbn [tgt_items].
  induction (tgt_items T) as [|it l IH]; [reflexivity|].
  rewrite !fmap_cons, IH, patch_item_id. reflexivity.
Qed.

(** Creating an item keeps every earlier answer, and the new item answers for
    the correlation id its patch carries. *)
Lemma server_create_keeps T type_name patch :
  keeps_lookups T (server_create T type_name patch).1.
Proof.
  intros wid z. unfold find_target_by_reflected, server_create. simpl.
  rewrite filter_app, fmap_app.
  destruct (filter _ (tgt_items T)) as [|it l]; simpl; [discriminate|auto].
Qed.

Lemma server_create_found T type_name patch wid :
  field_of_ops patch REFLECTED = Some (Py.str wid) ->
  found (server_create T type_name patch).1 wid.
Proof.
  intros Hp. unfold found, find_target_by_reflected, server_create. simpl.
  rewrite filter_app, fmap_app.
  destruct (filter _ (tgt_items T)) as [|it l]; simpl; [|eauto].
  rewrite filter_cons, decide_True by exact Hp. simpl. eauto.
Qed.

Lemma create_patch_reflected args src T f wid parent_id :
  field_of_ops (create_patch (build_fields args src T f wid) parent_id) REFLECTED
  = Some (Py.str wid).
Proof.
  unfold create_patch, build_fields.
  destruct (f !! "System.Title") as [[|s]|], parent_id; reflexivity.
Qed.

(** ** Steps that create nothing *)

Lemma quiet_refl st : quiet st st.
Proof. constructor; reflexivity. Qed.

Lemma quiet_trans st1 st2 st3 : quiet st1 st2 -> quiet st2 st3 -> quiet st1 st3.
Proof.
  intros H12 H23. constructor.
  - rewrite (quiet_parent _ _ H23). apply (quiet_parent _ _ H12).
  - rewrite (quiet_other _ _ H23). apply (quiet_other _ _ H12).
  - rewrite (quiet_ids _ _ H23). apply (quiet_ids _ _ H12).
  - intros wid. rewrite (quiet_find _ _ H23). apply (quiet_find _ _ H12).
  - rewrite (quiet_creations _ _ H23). apply (quiet_creations _ _ H12).
Qed.

Lemma quiet_keeps st st' : quiet st st' -> keeps_lookups (tgt st) (tgt st').
Proof. intros Hq wid z H. rewrite (quiet_find _ _ Hq). exact H. Qed.

Lemma http_patch_quiet st workitem_id patch :
  neutral patch -> quiet st (http_patch_workitem st workitem_id patch).
Proof.
  intros Hn. constructor.
  - reflexivity.
  - reflexivity.
  - apply server_patch_ids.
  - intros wid. apply server_patch_find, Hn.
  - unfold creations, http_patch_workitem. cbn [calls].
    rewrite List.filter_app. simpl. apply app_nil_r.
Qed.

Lemma bump_links_quiet st : quiet st (bump_links st).
Proof. constructor; reflexivity. Qed.

Lemma migrate_comments_quiet src st wid tgt_wid :
  quiet st (migrate_comments src st wid tgt_wid).
Proof.
  unfold migrate_comments. generalize (get_comments src wid). intros cs.
  revert st. induction cs as [|c cs IH]; intros st; [apply quiet_refl|].
  simpl. eapply quiet_trans; [|apply IH].
  destruct (Py.or_empty c); [apply quiet_refl|].
  apply http_patch_quiet, neutral_history.
Qed.

Lemma maybe_comments_quiet args src st wid tgt_wid :
  quiet st (maybe_comments args src st wid tgt_wid).
Proof.
  unfold maybe_comments.
  destruct (_ && _ && _); [apply migrate_comments_quiet|apply quiet_refl].
Qed.

Lemma maybe_comments_dry args src st wid tgt_wid :
  dry_run args = true -> maybe_comments args src st wid tgt_wid = st.
Proof.
  intros Hd. unfold maybe_comments. rewrite Hd.
  rewrite andb_false_r. reflexivity.
Qed.

Lemma maybe_comments_links args src st wid tgt_wid :
  related_links (maybe_comments args src st wid tgt_wid) = related_links st.
Proof.
  unfold maybe_comments. destruct (_ && _ && _); [|reflexivity].
  unfold migrate_comments. generalize (get_comments src wid). intros cs.
  revert st. induction cs as [|c cs IH]; intros st; [reflexivity|].
  simpl. rewrite IH. destruct (Py.or_empty c); reflexivity.
Qed.

(** ** The create-or-skip block *)

Lemma upsert_parent_eq args src st pid f :
  upsert_parent args src st pid f
  = resolve_or_create args src st pid f TARGET_PARENT_TYPE None true.
Proof. reflexivity. Qed.

Section ResolveOrCreate.

Variables (args : Args) (src : Source) (st : run) (wid : Z).
Variables (f : gmap string jval) (type_name : string) (parent_id : option Z).
Variable for_root : bool.

Let out := resolve_or_create args src st wid f type_name parent_id for_root.

Lemma resolve_found z :
  find_target_by_reflected (tgt st) wid = Some z -> out = (st, z).
Proof.
  intros Hz. unfold out, resolve_or_create. rewrite truthy_id_find, Hz. reflexivity.
Qed.

Lemma resolve_dry :
  find_target_by_reflected (tgt st) wid = None -> dry_run args = true ->
  out = (bump for_root st, -1).
Proof.
  intros Hz Hd. unfold out, resolve_or_create. rewrite truthy_id_find, Hz, Hd.
  reflexivity.
Qed.

Lemma resolve_real :
  find_target_by_reflected (tgt st) wid = None -> dry_run args = false ->
  out = (bump for_root
           (create_work_item st type_name
              (build_fields args src (tgt st) f wid) parent_id).1,
         (create_work_item st type_name
              (build_fields args src (tgt st) f wid) parent_id).2).
Proof.
  intros Hz Hd. unfold out, resolve_or_create. rewrite truthy_id_find, Hz, Hd.
  destruct (create_work_item _ _ _ _). reflexivity.
Qed.

Lemma tgt_bump b s : tgt (bump b s) = tgt s.
Proof. destruct b; reflexivity. Qed.

Lemma tgt_create ty fields p :
  tgt (create_work_item st ty fields p).1
  = (server_create (tgt st) ty (create_patch fields p)).1.
Proof. reflexivity. Qed.

(** No earlier answer is lost. *)
Lemma resolve_keeps : keeps_lookups (tgt st) (tgt out.1).
Proof.
  destruct (find_target_by_reflected (tgt st) wid) as [z|] eqn:Hz.
  { rewrite (resolve_found z Hz). apply keeps_lookups_refl. }
  destruct (dry_run args) eqn:Hd.
  - rewrite (resolve_dry Hz Hd). cbn [fst snd]. rewrite tgt_bump. apply keeps_lookups_refl.
  - rewrite (resolve_real Hz Hd). cbn [fst snd]. rewrite tgt_bump, tgt_create.
    apply server_create_keeps.
Qed.

(** In a real run the item has a counterpart afterwards, and the id
    returned is a real one. *)
Lemma resolve_real_found :
  dry_run args = false -> found (tgt out.1) wid /\ 0 < out.2.
Proof.
  intros Hd.
  destruct (find_target_by_reflected (tgt st) wid) as [z|] eqn:Hz.
  { rewrite (resolve_found z Hz). simpl. split; [exists z; exact Hz|].
    eapply find_positive, Hz. }
  rewrite (resolve_real Hz Hd). cbn [fst snd]. rewrite tgt_bump, tgt_create. split.
  - apply server_create_found, create_patch_reflected.
  - unfold create_work_item, server_create. simpl. lia.
Qed.

(** In a dry run nothing is sent. *)
Lemma resolve_dry_target :
  dry_run args = true ->
  tgt out.1 = tgt st /\ calls out.1 = calls st /\
  related_links out.1 = related_links st.
Proof.
  intros Hd.
  destruct (find_target_by_reflected (tgt st) wid) as [z|] eqn:Hz.
  { rewrite (resolve_found z Hz). auto. }
  rewrite (resolve_dry Hz Hd). destruct for_root; auto.
Qed.

(** The counters move by at most one creation. *)
Lemma resolve_counters :
  related_links out.1 = related_links st /\
  if for_root
  then created_other out.1 = created_other st /\
       (created_parent st <= created_parent out.1 <= S (created_parent st))%nat
  else created_parent out.1 = created_parent st /\
       (created_other st <= created_other out.1 <= S (created_other st))%nat.
Proof.
  destruct (find_target_by_reflected (tgt st) wid) as [z|] eqn:Hz.
  { rewrite (resolve_found z Hz). simpl. destruct for_root; lia. }
  destruct (dry_run args) eqn:Hd.
  - rewrite (resolve_dry Hz Hd). destruct for_root; simpl; lia.
  - rewrite (resolve_real Hz Hd). destruct for_root; simpl; lia.
Qed.

End ResolveOrCreate.

(** ** The loop bodies in terms of the create-or-skip block *)

Lemma step_child_eq args src tgt_parent st cid :
  step_child args src tgt_parent st cid =
  match batch_get src cid child_fields with
  | None => st
  | Some cf =>
      match mapped_type cf with
      | None => st
      | Some tgt_type =>
          let out := resolve_or_create args src st cid cf tgt_type
                       (if 0 <? tgt_parent then Some tgt_parent else None) false in
          maybe_comments args src out.1 cid out.2
      end
  end.
Proof.
  unfold step_child, resolve_or_create.
  destruct (batch_get src cid child_fields) as [cf|]; [|reflexivity].
  destruct (mapped_type cf) as [ty|]; [|reflexivity].
  destruct (truthy_id _); [reflexivity|].
  destruct (dry_run args); [reflexivity|].
  destruct (create_work_item _ _ _ _). reflexivity.
Qed.

Lemma step_related_eq args src tgt_parent st rid :
  step_related args src tgt_parent st rid =
  match batch_get src rid child_fields with
  | None => st
  | Some rf =>
      match mapped_type rf with
      | None => st
      | Some tgt_type =>
          link_if_real args tgt_parent
            (resolve_or_create args src st rid rf tgt_type None false)
      end
  end.
Proof.
  unfold step_related, resolve_or_create, link_if_real.
  destruct (batch_get src rid child_fields) as [rf|]; [|reflexivity].
  destruct (mapped_type rf) as [ty|]; [|reflexivity].
  destruct (truthy_id _); [reflexivity|].
  destruct (dry_run args); [reflexivity|].
  destruct (create_work_item _ _ _ _). reflexivity.
Qed.

Lemma step_parent_eq args src st pid :
  step_parent args src st pid =
  match batch_get src pid parent_fields with
  | None => st
  | Some f =>
      let out := resolve_or_create args src st pid f TARGET_PARENT_TYPE None true in
      let st2 := maybe_comments args src out.1 pid out.2 in
      let st3 := foldl (step_child args src out.2) st2 (get_children_related src pid).1 in
      foldl (step_related args src out.2) st3 (get_children_related src pid).2
  end.
Proof.
  unfold step_parent. destruct (batch_get src pid parent_fields) as [f|]; [|reflexivity].
  rewrite upsert_parent_eq.
  destruct (resolve_or_create _ _ _ _ _ _ _ _) as [st1 tp].
  destruct (get_children_related src pid) as [children related]. reflexivity.
Qed.

Lemma link_if_real_quiet args tgt_parent out : quiet out.1 (link_if_real args tgt_parent out).
Proof.
  unfold link_if_real. destruct (_ && _ && _); [|apply quiet_refl].
  eapply quiet_trans; [|apply bump_links_quiet].
  apply http_patch_quiet, neutral_relation.
Qed.

Lemma link_if_real_dry args tgt_parent out :
  dry_run args = true -> link_if_real args tgt_parent out = out.1.
Proof. intros Hd. unfold link_if_real. rewrite Hd. reflexivity. Qed.

(** ** What one step does to the lookups *)

Lemma step_child_keeps args src tgt_parent st cid :
  keeps_lookups (tgt st) (tgt (step_child args src tgt_parent st cid)).
Proof.
  rewrite step_child_eq.
  destruct (batch_get src cid child_fields) as [cf|]; [|apply keeps_lookups_refl].
  destruct (mapped_type cf) as [ty|]; [|apply keeps_lookups_refl].
  cbv zeta. eapply keeps_lookups_trans; [apply resolve_keeps|].
  apply quiet_keeps, maybe_comments_quiet.
Qed.

Lemma step_related_keeps args src tgt_parent st rid :
  keeps_lookups (tgt st) (tgt (step_related args src tgt_parent st rid)).
Proof.
  rewrite step_related_eq.
  destruct (batch_get src rid child_fields) as [rf|]; [|apply keeps_lookups_refl].
  destruct (mapped_type rf) as [ty|]; [|apply keeps_lookups_refl].
  eapply keeps_lookups_trans; [apply resolve_keeps|].
  apply quiet_keeps, link_if_real_quiet.
Qed.

Lemma foldl_keeps {A} (step : run -> A -> run) (l : list A) :
  (forall st x, keeps_lookups (tgt st) (tgt (step st x))) ->
  forall st, keeps_lookups (tgt st) (tgt (foldl step st l)).
Proof.
  intros Hstep. induction l as [|x l IH]; intros st; [apply keeps_lookups_refl|].
  simpl. eapply keeps_lookups_trans; [apply Hstep|apply IH].
Qed.

Lemma children_keeps args src tgt_parent l st :
  keeps_lookups (tgt st) (tgt (foldl (step_child args src tgt_parent) st l)).
Proof. apply foldl_keeps. intros. apply step_child_keeps. Qed.

Lemma related_keeps args src tgt_parent l st :
  keeps_lookups (tgt st) (tgt (foldl (step_related args src tgt_parent) st l)).
Proof. apply foldl_keeps. intros. apply step_related_keeps. Qed.

Lemma step_parent_keeps args src st pid :
  keeps_lookups (tgt st) (tgt (step_parent args src st pid)).
Proof.
  rewrite step_parent_eq.
  destruct (batch_get src pid parent_fields) as [f|]; [|apply keeps_lookups_refl].
  cbv zeta.
  eapply keeps_lookups_trans; [apply resolve_keeps|].
  eapply keeps_lookups_trans; [apply quiet_keeps, maybe_comments_quiet|].
  eapply keeps_lookups_trans; [apply children_keeps|apply related_keeps].
Qed.

(** ** A real step settles what it touches *)

Lemma step_child_settles args src tgt_parent st cid :
  dry_run args = false -> linkable src cid ->
  found (tgt (step_child args src tgt_parent st cid)) cid.
Proof.
  intros Hd (cf & Hcf & [ty Hty]). rewrite step_child_eq, Hcf, Hty. cbv zeta.
  eapply found_kept; [apply quiet_keeps, maybe_comments_quiet|].
  apply resolve_real_found, Hd.
Qed.

Lemma step_related_settles args src tgt_parent st rid :
  dry_run args = false -> linkable src rid ->
  found (tgt (step_related args src tgt_parent st rid)) rid.
Proof.
  intros Hd (rf & Hrf & [ty Hty]). rewrite step_related_eq, Hrf, Hty.
  eapply found_kept; [apply quiet_keeps, link_if_real_quiet|].
  apply resolve_real_found, Hd.
Qed.

Lemma foldl_settles (step : run -> Z -> run) (good : Z -> Prop) (l : list Z) :
  (forall st x, keeps_lookups (tgt st) (tgt (step st x))) ->
  (forall st x, good x -> found (tgt (step st x)) x) ->
  forall st x, x ∈ l -> good x -> found (tgt (foldl step st l)) x.
Proof.
  intros Hkeep Hstep. induction l as [|y l IH]; intros st x Hx Hgood; [inversion Hx|].
  simpl. apply elem_of_cons in Hx as [->|Hx]; [|apply IH; assumption].
  eapply found_kept; [apply foldl_keeps, Hkeep|]. apply Hstep, Hgood.
Qed.

Lemma step_parent_settles args src st pid :
  dry_run args = false -> settled src (tgt (step_parent args src st pid)) pid.
Proof.
  intros Hd. unfold settled. rewrite step_parent_eq.
  destruct (batch_get src pid parent_fields) as [f|] eqn:Hf.
  2:{ split; [intros [? ?]; discriminate|]. intros wid Hwid.
      unfold get_children_related in Hwid. unfold batch_get in Hf.
      destruct (src_items src !! pid); [discriminate|]. simpl in Hwid.
      vm_compute in Hwid. inversion Hwid. }
  cbv zeta.
  set (out := resolve_or_create args src st pid f TARGET_PARENT_TYPE None true).
  set (st2 := maybe_comments args src out.1 pid out.2).
  set (st3 := foldl (step_child args src out.2) st2 (get_children_related src pid).1).
  split.
  - intros _.
    eapply found_kept; [apply related_keeps|].
    eapply found_kept; [apply children_keeps|].
    eapply found_kept; [apply quiet_keeps, maybe_comments_quiet|].
    apply resolve_real_found, Hd.
  - intros wid Hwid Hlink. apply elem_of_app in Hwid as [Hc|Hr].
    + eapply found_kept; [apply related_keeps|].
      apply (foldl_settles _ (linkable src)); auto.
      * intros. apply step_child_keeps.
      * intros. apply step_child_settles; assumption.
    + apply (foldl_settles _ (linkable src)); auto.
      * intros. apply step_related_keeps.
      * intros. apply step_related_settles; assumption.
Qed.

(** ** A step over settled items creates nothing *)

Lemma step_child_quiet args src tgt_parent st cid :
  (linkable src cid -> found (tgt st) cid) ->
  quiet st (step_child args src tgt_parent st cid).
Proof.
  intros Hfound. rewrite step_child_eq.
  destruct (batch_get src cid child_fields) as [cf|] eqn:Hcf; [|apply quiet_refl].
  destruct (mapped_type cf) as [ty|] eqn:Hty; [|apply quiet_refl].
  destruct Hfound as [z Hz]; [exists cf; rewrite Hty; eauto|].
  cbv zeta. rewrite (resolve_found _ _ _ _ _ _ _ _ z Hz).
  apply maybe_comments_quiet.
Qed.

Lemma step_related_quiet args src tgt_parent st rid :
  (linkable src rid -> found (tgt st) rid) ->
  quiet st (step_related args src tgt_parent st rid).
Proof.
  intros Hfound. rewrite step_related_eq.
  destruct (batch_get src rid child_fields) as [rf|] eqn:Hrf; [|apply quiet_refl].
  destruct (mapped_type rf) as [ty|] eqn:Hty; [|apply quiet_refl].
  destruct Hfound as [z Hz]; [exists rf; rewrite Hty; eauto|].
  rewrite (resolve_found _ _ _ _ _ _ _ _ z Hz).
  apply (link_if_real_quiet args tgt_parent (st, z)).
Qed.

Lemma found_quiet st st' wid : quiet st st' -> found (tgt st) wid -> found (tgt st') wid.
Proof. intros Hq. apply found_kept, quiet_keeps, Hq. Qed.

Lemma foldl_quiet (step : run -> Z -> run) (good : Z -> Prop) (l : list Z) :
  (forall st x, (good x -> found (tgt st) x) -> quiet st (step st x)) ->
  forall st, (forall x, x ∈ l -> good x -> found (tgt st) x) ->
             quiet st (foldl step st l).
Proof.
  intros Hstep. induction l as [|y l IH]; intros st Hall; [apply quiet_refl|].
  simpl.
  assert (Hq : quiet st (step st y)) by (apply Hstep, Hall; left).
  eapply quiet_trans; [exact Hq|]. apply IH.
  intros x Hx Hgood. eapply found_quiet; [exact Hq|]. apply Hall; [right; exact Hx|exact Hgood].
Qed.

Lemma step_parent_quiet args src st pid :
  settled src (tgt st) pid -> quiet st (step_parent args src st pid).
Proof.
  intros [Hroot Hlinked]. rewrite step_parent_eq.
  destruct (batch_get src pid parent_fields) as [f|] eqn:Hf; [|apply quiet_refl].
  destruct Hroot as [z Hz]; [eauto|].
  cbv zeta. rewrite (resolve_found _ _ _ _ _ _ _ _ z Hz). cbn [fst snd].
  pose proof (maybe_comments_quiet args src st pid z) as Hq2.
  set (st2 := maybe_comments args src st pid z) in *.
  assert (Hq3 : quiet st2 (foldl (step_child args src z) st2
                             (get_children_related src pid).1)).
  { apply (foldl_quiet _ (linkable src)).
    - intros. apply step_child_quiet. assumption.
    - intros x Hx Hgood. eapply found_quiet; [exact Hq2|].
      apply Hlinked; [apply elem_of_app; left; exact Hx|exact Hgood]. }
  eapply quiet_trans; [exact Hq2|]. eapply quiet_trans; [exact Hq3|].
  apply (foldl_quiet _ (linkable src)).
  - intros. apply step_related_quiet. assumption.
  - intros x Hx Hgood. eapply found_quiet; [exact Hq3|].
    eapply found_quiet; [exact Hq2|].
    apply Hlinked; [apply elem_of_app; right; exact Hx|exact Hgood].
Qed.

Lemma settled_kept src T T' pid :
  keeps_lookups T T' -> settled src T pid -> settled src T' pid.
Proof.
  intros Hk [Hroot Hlinked]. split.
  - intros H. eapply found_kept; eauto.
  - intros wid Hwid Hgood. eapply found_kept; eauto.
Qed.

Lemma run_over_keeps args src pids : forall st,
  keeps_lookups (tgt st) (tgt (run_over args src st pids)).
Proof. apply foldl_keeps. intros. apply step_parent_keeps. Qed.

(** After a real run every root of the range is settled. *)
Lemma run_over_settles args src pids :
  dry_run args = false ->
  forall st pid, pid ∈ pids -> settled src (tgt (run_over args src st pids)) pid.
Proof.
  intros Hd. induction pids as [|p pids IH]; intros st pid Hpid; [inversion Hpid|].
  unfold run_over. simpl. apply elem_of_cons in Hpid as [->|Hpid].
  - eapply settled_kept; [apply run_over_keeps|]. apply step_parent_settles, Hd.
  - apply IH, Hpid.
Qed.

(** A run over settled roots creates nothing. *)
Lemma run_over_quiet args src pids : forall st,
  (forall pid, pid ∈ pids -> settled src (tgt st) pid) ->
  quiet st (run_over args src st pids).
Proof.
  induction pids as [|p pids IH]; intros st Hall; [apply quiet_refl|].
  unfold run_over. simpl.
  assert (Hq : quiet st (step_parent args src st p))
    by (apply step_parent_quiet, Hall; left).
  eapply quiet_trans; [exact Hq|]. apply IH.
  intros pid Hpid. eapply settled_kept; [apply quiet_keeps, Hq|].
  apply Hall. right. exact Hpid.
Qed.

(** ** Dry runs *)

Lemma untouched_refl st : untouched st st.
Proof. repeat split. Qed.

Lemma untouched_trans st1 st2 st3 :
  untouched st1 st2 -> untouched st2 st3 -> untouched st1 st3.
Proof. unfold untouched. intros (? & ? & ?) (? & ? & ?). repeat split; congruence. Qed.

Lemma foldl_untouched {A} (step : run -> A -> run) (l : list A) :
  (forall st x, untouched st (step st x)) -> forall st, untouched st (foldl step st l).
Proof.
  intros Hstep. induction l as [|x l IH]; intros st; [apply untouched_refl|].
  simpl. eapply untouched_trans; [apply Hstep|apply IH].
Qed.

Lemma step_child_dry args src tgt_parent st cid :
  dry_run args = true -> untouched st (step_child args src tgt_parent st cid).
Proof.
  intros Hd. rewrite step_child_eq.
  destruct (batch_get src cid child_fields) as [cf|]; [|apply untouched_refl].
  destruct (mapped_type cf) as [ty|]; [|apply untouched_refl].
  cbv zeta. rewrite (maybe_comments_dry _ _ _ _ _ Hd).
  apply resolve_dry_target, Hd.
Qed.

Lemma step_related_dry args src tgt_parent st rid :
  dry_run args = true -> untouched st (step_related args src tgt_parent st rid).
Proof.
  intros Hd. rewrite step_related_eq.
  destruct (batch_get src rid child_fields) as [rf|]; [|apply untouched_refl].
  destruct (mapped_type rf) as [ty|]; [|apply untouched_refl].
  rewrite (link_if_real_dry _ _ _ Hd).
  apply resolve_dry_target, Hd.
Qed.

Lemma children_dry args src tgt_parent l st :
  dry_run args = true -> untouched st (foldl (step_child args src tgt_parent) st l).
Proof. intros Hd. apply foldl_untouched. intros. apply step_child_dry, Hd. Qed.

Lemma related_dry args src tgt_parent l st :
  dry_run args = true -> untouched st (foldl (step_related args src tgt_parent) st l).
Proof. intros Hd. apply foldl_untouched. intros. apply step_related_dry, Hd. Qed.

Lemma step_parent_dry args src st pid :
  dry_run args = true -> untouched st (step_parent args src st pid).
Proof.
  intros Hd. rewrite step_parent_eq.
  destruct (batch_get src pid parent_fields) as [f|]; [|apply untouched_refl].
  cbv zeta. rewrite (maybe_comments_dry _ _ _ _ _ Hd).
  eapply untouched_trans; [apply resolve_dry_target, Hd|].
  eapply untouched_trans; [apply children_dry, Hd|apply related_dry, Hd].
Qed.

Lemma run_over_dry args src pids st :
  dry_run args = true -> untouched st (run_over args src st pids).
Proof. intros Hd. apply foldl_untouched. intros. apply step_parent_dry, Hd. Qed.

(** ** A dry run against a real run *)

Lemma ahead_refl st : ahead st st.
Proof. constructor; [apply keeps_lookups_refl|lia|lia]. Qed.

Lemma ahead_quiet sd sr sr' : ahead sd sr -> quiet sr sr' -> ahead sd sr'.
Proof.
  intros [Hk Hp Ho] Hq. constructor.
  - eapply keeps_lookups_trans; [exact Hk|apply quiet_keeps, Hq].
  - rewrite (quiet_parent _ _ Hq). exact Hp.
  - rewrite (quiet_other _ _ Hq). exact Ho.
Qed.

Lemma resolve_ahead argsd argsr src sd sr wid fd fr tyd tyr pd pr for_root :
  dry_run argsd = true -> ahead sd sr ->
  ahead (resolve_or_create argsd src sd wid fd tyd pd for_root).1
        (resolve_or_create argsr src sr wid fr tyr pr for_root).1.
Proof.
  intros Hd [Hk Hp Ho].
  destruct (find_target_by_reflected (tgt sd) wid) as [z|] eqn:Hz.
  - rewrite (resolve_found argsd src sd wid fd tyd pd for_root z Hz).
    rewrite (resolve_found argsr src sr wid fr tyr pr for_root z (Hk _ _ Hz)).
    constructor; assumption.
  - rewrite (resolve_dry argsd src sd wid fd tyd pd for_root Hz Hd). cbn [fst].
    pose proof (resolve_keeps argsr src sr wid fr tyr pr for_root) as Hk'.
    pose proof (resolve_counters argsr src sr wid fr tyr pr for_root) as [_ Hc].
    constructor.
    + rewrite tgt_bump. eapply keeps_lookups_trans; eassumption.
    + destruct for_root; simpl; lia.
    + destruct for_root; simpl; lia.
Qed.

Lemma step_child_ahead argsd argsr src tpd tpr sd sr cid :
  dry_run argsd = true -> ahead sd sr ->
  ahead (step_child argsd src tpd sd cid) (step_child argsr src tpr sr cid).
Proof.
  intros Hd Ha. rewrite !step_child_eq.
  destruct (batch_get src cid child_fields) as [cf|]; [|exact Ha].
  destruct (mapped_type cf) as [ty|]; [|exact Ha].
  cbv zeta. rewrite (maybe_comments_dry _ _ _ _ _ Hd).
  eapply ahead_quiet; [|apply maybe_comments_quiet].
  apply resolve_ahead; assumption.
Qed.

Lemma step_related_ahead argsd argsr src tpd tpr sd sr rid :
  dry_run argsd = true -> ahead sd sr ->
  ahead (step_related argsd src tpd sd rid) (step_related argsr src tpr sr rid).
Proof.
  intros Hd Ha. rewrite !step_related_eq.
  destruct (batch_get src rid child_fields) as [rf|]; [|exact Ha].
  destruct (mapped_type rf) as [ty|]; [|exact Ha].
  rewrite (link_if_real_dry _ _ _ Hd).
  eapply ahead_quiet; [|apply link_if_real_quiet].
  apply resolve_ahead; assumption.
Qed.

Lemma foldl_ahead {A} (stepd stepr : run -> A -> run) (l : list A) :
  (forall sd sr x, ahead sd sr -> ahead (stepd sd x) (stepr sr x)) ->
  forall sd sr, ahead sd sr -> ahead (foldl stepd sd l) (foldl stepr sr l).
Proof.
  intros Hstep. induction l as [|x l IH]; intros sd sr Ha; [exact Ha|].
  simpl. apply IH, Hstep, Ha.
Qed.

Lemma children_ahead argsd argsr src tpd tpr l sd sr :
  dry_run argsd = true -> ahead sd sr ->
  ahead (foldl (step_child argsd src tpd) sd l) (foldl (step_child argsr src tpr) sr l).
Proof. intros Hd. apply foldl_ahead. intros. apply step_child_ahead; assumption. Qed.

Lemma related_ahead argsd argsr src tpd tpr l sd sr :
  dry_run argsd = true -> ahead sd sr ->
  ahead (foldl (step_related argsd src tpd) sd l) (foldl (step_related argsr src tpr) sr l).
Proof. intros Hd. apply foldl_ahead. intros. apply step_related_ahead; assumption. Qed.

Lemma step_parent_ahead argsd argsr src sd sr pid :
  dry_run argsd = true -> ahead sd sr ->
  ahead (step_parent argsd src sd pid) (step_parent argsr src sr pid).
Proof.
  intros Hd Ha. rewrite !step_parent_eq.
  destruct (batch_get src pid parent_fields) as [f|]; [|exact Ha].
  cbv zeta. apply related_ahead; [exact Hd|]. apply children_ahead; [exact Hd|].
  rewrite (maybe_comments_dry _ _ _ _ _ Hd).
  eapply ahead_quiet; [|apply maybe_comments_quiet].
  apply resolve_ahead; assumption.
Qed.

Lemma run_over_ahead argsd argsr src pids sd sr :
  dry_run argsd = true -> ahead sd sr ->
  ahead (run_over argsd src sd pids) (run_over argsr src sr pids).
Proof. intros Hd. apply foldl_ahead. intros. apply step_parent_ahead; assumption. Qed.

(** ** Runs *)

Lemma main_returns args src T :
  is_Some (main args src T
             (S (length (parent_rows src (exclude_ownerorg_field args)
                                         (exclude_ownerorg_value args))))).
Proof.
  unfold main.
  destruct (iterate_parent_ids_returns src (exclude_ownerorg_field args)
              (exclude_ownerorg_value args) (max_items args) (start_id args))
    as [pids ->].
  simpl. eauto.
Qed.

(** The claim of C1 fails as stated: a dry run after a dry run takes the
    create branch again and counts the root and both linked items again. *)
Lemma dry_runs_count_again :
  ~ (forall r1 r2,
        main Scenario.dry_args Scenario.source Scenario.empty_target 3 = Some r1 ->
        main Scenario.dry_args Scenario.source (tgt r1) 3 = Some r2 ->
        created_parent r2 = 0%nat /\ created_other r2 = 0%nat).
Proof.
  intros H.
  destruct (main Scenario.dry_args Scenario.source Scenario.empty_target 3)
    as [r1|] eqn:H1; [|vm_compute in H1; discriminate].
  destruct (main Scenario.dry_args Scenario.source (tgt r1) 3)
    as [r2|] eqn:H2.
  - destruct (H r1 r2 eq_refl H2) as [Hp _].
    vm_compute in H1. injection H1 as <-. vm_compute in H2. injection H2 as <-.
    discriminate Hp.
  - vm_compute in H1. injection H1 as <-. vm_compute in H2. discriminate H2.
Qed.

(** C1 (amended). After a completed run that was not a dry run, a second run
    over the same range against the target the first one left creates
    nothing: it returns, every root of the range is settled (the lookup for
    the root and for each of its linkable children and related items
    succeeds), both created counters are zero, no creation call is sent, the
    target holds the same entities and every lookup answers as before. *)
Theorem second_run_creates_nothing
    (args1 args2 : Args) (src : Source) (T : Target) (fuel : nat) (r1 : run) :
  dry_run args1 = false ->
  same_range args1 args2 ->
  main args1 src T fuel = Some r1 ->
  exists pids r2,
    iterate_parent_ids src (max_items args1) (start_id args1)
      (exclude_ownerorg_field args1) (exclude_ownerorg_value args1) fuel = Some pids /\
    (forall pid, pid ∈ pids -> settled src (tgt r1) pid) /\
    main args2 src (tgt r1) fuel = Some r2 /\
    created_parent r2 = 0%nat /\ created_other r2 = 0%nat /\
    creations r2 = [] /\
    entity_ids (tgt r2) = entity_ids (tgt r1) /\
    forall wid, find_target_by_reflected (tgt r2) wid
                = find_target_by_reflected (tgt r1) wid.
Proof.
  intros Hd (Hmax & Hstart & Hf & Hv) Hrun. unfold main in *.
  rewrite <- Hmax, <- Hstart, <- Hf, <- Hv.
  destruct (iterate_parent_ids src (max_items args1) (start_id args1)
              (exclude_ownerorg_field args1) (exclude_ownerorg_value args1) fuel)
    as [pids|]; [|discriminate].
  simpl in Hrun. injection Hrun as <-.
  assert (Hsettled : forall pid, pid ∈ pids ->
            settled src (tgt (run_over args1 src (start T) pids)) pid)
    by (intros pid; apply run_over_settles, Hd).
  exists pids, (run_over args2 src (start (tgt (run_over args1 src (start T) pids))) pids).
  pose proof (run_over_quiet args2 src pids
                (start (tgt (run_over args1 src (start T) pids))) Hsettled) as Hq.
  split; [reflexivity|]. split; [exact Hsettled|]. split; [reflexivity|].
  split; [apply (quiet_parent _ _ Hq)|]. split; [apply (quiet_other _ _ Hq)|].
  split; [apply (quiet_creations _ _ Hq)|]. split; [apply (quiet_ids _ _ Hq)|].
  apply (quiet_find _ _ Hq).
Qed.

Lemma second_run_creates_nothing_witness :
  exists r1 r2,
    main Scenario.real_args Scenario.source Scenario.empty_target 3 = Some r1 /\
    main Scenario.dry_args Scenario.source (tgt r1) 3 = Some r2 /\
    created_parent r2 = 0%nat /\ created_other r2 = 0%nat.
Proof.
  destruct (main Scenario.real_args Scenario.source Scenario.empty_target 3)
    as [r1|] eqn:H1; [|vm_compute in H1; discriminate].
  destruct (second_run_creates_nothing Scenario.real_args Scenario.dry_args
              Scenario.source Scenario.empty_target 3 r1 eq_refl
              (conj eq_refl (conj eq_refl (conj eq_refl eq_refl))) H1)
    as (pids & r2 & _ & _ & H2 & Hp & Ho & _).
  exists r1, r2. auto.
Defined.

(** The claim of C2 fails as stated: over the scenario the real run adds one
    related link and counts it, the dry run counts none. *)
Lemma dry_run_counts_no_link :
  ~ (forall rd rr,
        main Scenario.dry_args Scenario.source Scenario.empty_target 3 = Some rd ->
        main Scenario.real_args Scenario.source Scenario.empty_target 3 = Some rr ->
        created_parent rd = created_parent rr /\
        created_other rd = created_other rr /\
        related_links rd = related_links rr).
Proof.
  intros H.
  destruct (main Scenario.dry_args Scenario.source Scenario.empty_target 3)
    as [rd|] eqn:Hrd; [|vm_compute in Hrd; discriminate].
  destruct (main Scenario.real_args Scenario.source Scenario.empty_target 3)
    as [rr|] eqn:Hrr; [|vm_compute in Hrr; discriminate].
  destruct (H rd rr eq_refl eq_refl) as (_ & _ & Hl).
  vm_compute in Hrd. injection Hrd as <-. vm_compute in Hrr. injection Hrr as <-.
  discriminate Hl.
Qed.

(** The created counters differ too: a child shared by two roots is created
    once by the real run and counted twice by the dry run. *)
Lemma dry_run_counts_shared_child_twice :
  (created_other <$> main Scenario.dry_args Scenario.shared_child Scenario.empty_target 3)
    = Some 2%nat /\
  (created_other <$> main Scenario.real_args Scenario.shared_child Scenario.empty_target 3)
    = Some 1%nat.
Proof. split; vm_compute; reflexivity. Qed.

(** * Further properties *)

(** ** White space *)

Lemma lstrip_no_lead s : no_lead (Py.lstrip s).
Proof.
  induction s as [|c r IH]; simpl; [exact I|].
  destruct (Py.is_space c) eqn:Hc; [exact IH|exact Hc].
Qed.

Lemma lstrip_fixed s : no_lead s -> Py.lstrip s = s.
Proof. destruct s as [|c r]; simpl; [reflexivity|]. intros ->. reflexivity. Qed.

Lemma rstrip_cons c r :
  Py.rstrip (String c r) =
  match Py.rstrip r with
  | EmptyString => if Py.is_space c then EmptyString else String c EmptyString
  | r' => String c r'
  end.
Proof. reflexivity. Qed.

Lemma rstrip_no_lead s : no_lead s -> no_lead (Py.rstrip s).
Proof.
  destruct s as [|c r]; [auto|]. intros Hc. simpl in Hc. rewrite rstrip_cons.
  destruct (Py.rstrip r); [rewrite Hc|]; exact Hc.
Qed.

Lemma rstrip_idem s : Py.rstrip (Py.rstrip s) = Py.rstrip s.
Proof.
  induction s as [|c r IH]; [reflexivity|].
  rewrite rstrip_cons. destruct (Py.rstrip r) as [|c' r'] eqn:Hr.
  - destruct (Py.is_space c) eqn:Hc; [reflexivity|].
    rewrite rstrip_cons. simpl. rewrite Hc. reflexivity.
  - rewrite rstrip_cons, IH. reflexivity.
Qed.

(** Stripping twice is stripping once. *)
Lemma strip_idem s : Py.strip (Py.strip s) = Py.strip s.
Proof.
  unfold Py.strip.
  rewrite (lstrip_fixed (Py.rstrip (Py.lstrip s))).
  - apply rstrip_idem.
  - apply rstrip_no_lead, lstrip_no_lead.
Qed.

Lemma strip_or_none_Some s r :
  strip_or_none s = Some r -> r = Py.strip s /\ r <> EmptyString.
Proof.
  unfold strip_or_none. destruct (Py.strip s) as [|c t]; [discriminate|].
  intros [= <-]. split; [reflexivity|discriminate].
Qed.

Lemma strip_or_none_fixed r :
  r <> EmptyString -> Py.strip r = r -> strip_or_none r = Some r.
Proof.
  intros Hne Hr. unfold strip_or_none. rewrite Hr.
  destruct r; [contradiction|reflexivity].
Qed.

(** ** Identities *)

(** Every result of [normalize_identity] is the strip of one of its inputs. *)
Lemma normalize_identity_strip value r :
  normalize_identity value = Some r -> exists s, strip_or_none s = Some r.
Proof.
  unfold normalize_identity. destruct value as [|s|d repr|repr].
  - discriminate.
  - intros H. exists s. exact H.
  - destruct (first_truthy d identity_keys) as [v|].
    + intros H. exists v. exact H.
    + destruct (truthy_key d "displayName") as [v|]; intros H;
        [exists v|exists repr]; exact H.
  - intros H. exists repr. exact H.
Qed.

Lemma first_truthy_Some d ks v :
  first_truthy d ks = Some v <->
  exists pre k post,
    ks = pre ++ k :: post /\ truthy_key d k = Some v /\
    forall k', k' ∈ pre -> truthy_key d k' = None.
Proof.
  induction ks as [|k0 ks IH]; simpl.
  - split; [discriminate|]. intros (pre & k & post & H & _). destruct pre; discriminate.
  - destruct (truthy_key d k0) as [v0|] eqn:Hk0.
    + split.
      * intros [= ->]. exists [], k0, ks. repeat split; auto.
        intros k' Hk'. inversion Hk'.
      * intros (pre & k & post & Hks & Hk & Hpre).
        destruct pre as [|p pre]; simpl in Hks; injection Hks as Hhd Htl; subst.
        -- congruence.
        -- pose proof (Hpre _ ltac:(left)) as Hnone. congruence.
    + rewrite IH. split.
      * intros (pre & k & post & -> & Hk & Hpre).
        exists (k0 :: pre), k, post. repeat split; auto.
        intros k' Hk'. apply elem_of_cons in Hk' as [->|Hk']; auto.
      * intros (pre & k & post & Hks & Hk & Hpre).
        destruct pre as [|p pre]; simpl in Hks; injection Hks as Hhd Htl; subst.
        -- congruence.
        -- exists pre, k, post. repeat split; auto.
           intros k' Hk'. apply Hpre. right. exact Hk'.
Qed.

(** X1. A result of [normalize_identity] is never the empty string and has no
    white space around it, so normalising it again as a string gives it
    back. *)
Theorem normalize_identity_result (value : identity) (r : string) :
  normalize_identity value = Some r ->
  r <> EmptyString /\ Py.strip r = r /\ normalize_identity (IdStr r) = Some r.
Proof.
  intros H. apply normalize_identity_strip in H as [s Hs].
  apply strip_or_none_Some in Hs as [-> Hne].
  split; [exact Hne|]. split; [apply strip_idem|].
  simpl. apply strip_or_none_fixed; [exact Hne|apply strip_idem].
Qed.

Lemma normalize_identity_result_witness :
  normalize_identity (IdStr "  Ada Lovelace ") = Some "Ada Lovelace" /\
  normalize_identity (IdStr "Ada Lovelace") = Some "Ada Lovelace".
Proof.
  split; [reflexivity|].
  apply (normalize_identity_result (IdStr "  Ada Lovelace ") "Ada Lovelace" eq_refl).
Defined.

(** X2. For a dict the first truthy key among uniqueName, principalName,
    mail, email decides alone: the result is its stripped value, or [None]
    when that value is only white space, whatever the later keys and the
    display name hold. *)
Theorem normalize_identity_first_key
    (d : gmap string jval) (repr : string) (pre post : list string) (k v : string) :
  identity_keys = pre ++ k :: post ->
  truthy_key d k = Some v ->
  (forall k', k' ∈ pre -> truthy_key d k' = None) ->
  normalize_identity (IdDict d repr) = strip_or_none v.
Proof.
  intros Hks Hk Hpre. unfold normalize_identity.
  assert (Hft : first_truthy d identity_keys = Some v).
  { apply first_truthy_Some. exists pre, k, post. auto. }
  rewrite Hft. reflexivity.
Qed.

Lemma normalize_identity_first_key_witness :
  normalize_identity
    (IdDict (<["uniqueName" := JStr "   "]>
              (<["mail" := JStr "ada@example.org"]>
                (<["displayName" := JStr "Ada"]> ∅)))
            "{...}") = None.
Proof.
  apply (normalize_identity_first_key _ "{...}" [] ["principalName"; "mail"; "email"]
           "uniqueName" "   ").
  - reflexivity.
  - reflexivity.
  - intros k' Hk'. inversion Hk'.
Defined.

Lemma lower_ascii_idem c : Py.lower_ascii (Py.lower_ascii c) = Py.lower_ascii c.
Proof. destruct c as [[] [] [] [] [] [] [] []]; reflexivity. Qed.

Lemma lower_idem s : Py.lower (Py.lower s) = Py.lower s.
Proof.
  induction s as [|c r IH]; simpl; [reflexivity|].
  rewrite lower_ascii_idem, IH. reflexivity.
Qed.

(** X3. [map_assigned_to] looks the normalised identity up in lower case, so
    an entry of the user map whose key has an upper-case letter is never
    used: adding it changes no result. With the user map of the repository,
    which is empty, the function is [normalize_identity]. *)
Theorem map_assigned_to_lower_keys
    (user_map : gmap string string) (k v : string) (value : identity) :
  Py.lower k <> k ->
  map_assigned_to_with (<[k := v]> user_map) value = map_assigned_to_with user_map value /\
  map_assigned_to value = normalize_identity value.
Proof.
  intros Hk. split; [|reflexivity].
  unfold map_assigned_to_with. cbv zeta.
  rewrite lookup_insert_ne; [reflexivity|].
  intros ->. apply Hk. apply lower_idem.
Qed.

Lemma map_assigned_to_lower_keys_witness :
  map_assigned_to_with (<["Ada@Example.org" := "ada@target.example"]> ∅)
    (IdStr "Ada@Example.org") = Some "Ada@Example.org".
Proof.
  rewrite (proj1 (map_assigned_to_lower_keys ∅ "Ada@Example.org" "ada@target.example"
                    (IdStr "Ada@Example.org") ltac:(discriminate))).
  reflexivity.
Defined.

(** ** The roots of the target paths *)

Lemma lstrip_spaces s :
  Forall (fun c => Py.is_space c = true) (list_ascii_of_string s) ->
  Py.lstrip s = EmptyString.
Proof.
  induction s as [|c r IH]; simpl; [reflexivity|].
  intros H. apply Forall_cons in H as [-> H]. apply IH, H.
Qed.

Lemma rstrip_empty s :
  Py.rstrip s = EmptyString ->
  Forall (fun c => Py.is_space c = true) (list_ascii_of_string s).
Proof.
  induction s as [|c r IH]; [constructor|].
  rewrite rstrip_cons. destruct (Py.rstrip r) as [|c' r']; [|discriminate].
  destruct (Py.is_space c) eqn:Hc; [|discriminate].
  intros _. constructor; [exact Hc|apply IH; reflexivity].
Qed.

Lemma lstrip_all_spaces s :
  Forall (fun c => Py.is_space c = true) (list_ascii_of_string (Py.lstrip s)) ->
  Forall (fun c => Py.is_space c = true) (list_ascii_of_string s).
Proof.
  induction s as [|c r IH]; [constructor|].
  simpl. destruct (Py.is_space c) eqn:Hc; [|auto].
  intros H. constructor; [exact Hc|apply IH, H].
Qed.

(** Only white space strips to the empty string. *)
Lemma strip_empty s :
  Py.strip s = EmptyString ->
  Forall (fun c => Py.is_space c = true) (list_ascii_of_string s).
Proof. intros H. apply lstrip_all_spaces, rstrip_empty, H. Qed.

(** X4. The root of the target area and iteration paths is the target
    project when the option is absent or white space only; in every other
    case it is the option stripped, which is not empty and has no white
    space around it. *)
Theorem root_or_project_fallback (root : option string) (project : string) :
  (Forall (fun c => Py.is_space c = true) (list_ascii_of_string (Py.or_empty root)) ->
   root_or_project root project = project) /\
  (~ Forall (fun c => Py.is_space c = true) (list_ascii_of_string (Py.or_empty root)) ->
   root_or_project root project = Py.strip (Py.or_empty root) /\
   root_or_project root project <> EmptyString /\
   Py.strip (root_or_project root project) = root_or_project root project).
Proof.
  unfold root_or_project. split.
  - intros H. unfold Py.strip. rewrite (lstrip_spaces _ H). reflexivity.
  - intros Hns.
    destruct (Py.strip (Py.or_empty root)) as [|c r] eqn:Hs.
    + exfalso. apply Hns, strip_empty, Hs.
    + split; [reflexivity|]. split; [discriminate|].
      rewrite <- Hs. apply strip_idem.
Qed.

Lemma root_or_project_fallback_witness :
  root_or_project (Some "   ") "TgtProj" = "TgtProj" /\
  root_or_project (Some " Area/Sub ") "TgtProj" = "Area/Sub".
Proof.
  split.
  - apply (proj1 (root_or_project_fallback (Some "   ") "TgtProj")).
    repeat constructor.
  - apply (proj1 (proj2 (root_or_project_fallback (Some " Area/Sub ") "TgtProj")
                    ltac:(intros H; apply Forall_cons in H as [_ H];
                          apply Forall_cons in H as [H _];
                          vm_compute in H; discriminate H))).
Defined.

(** ** The enumeration, exactly *)

Lemma parent_rows_elem src excl_field excl_value x :
  x ∈ parent_rows src excl_field excl_value <->
  exists it, src_items src !! x = Some it /\ parent_row excl_field excl_value it = true.
Proof.
  unfold parent_rows. rewrite merge_sort_Permutation, list_elem_of_fmap. split.
  - intros ([k it] & -> & Hin). apply list_elem_of_filter in Hin as [Hrow Hin].
    apply elem_of_map_to_list in Hin. exists it. auto.
  - intros (it & Hit & Hrow). exists (x, it). split; [reflexivity|].
    apply list_elem_of_filter. split; [exact Hrow|]. apply elem_of_map_to_list, Hit.
Qed.

Lemma last_cons_shift (x : Z) (l : list Z) (d : Z) :
  List.last (x :: l) d = List.last l x.
Proof.
  destruct l as [|y l]; [reflexivity|].
  change (List.last (y :: l) d = List.last (y :: l) x). apply last_cons_default.
Qed.

(** The page loop yields a prefix of the page, and the whole page when it
    hands over to the next query. *)
Lemma drain_page_shape max_items page : forall last_id fetched ys k,
  drain_page max_items page last_id fetched = (ys, k) ->
  match k with
  | None => exists j, ys = take j page
  | Some (last_id', _) => ys = page /\ last_id' = List.last page last_id
  end.
Proof.
  induction page as [|wid rest IH]; intros last_id fetched ys k; simpl.
  - intros H. simplify_eq. auto.
  - destruct (max_reached max_items (fetched + 1)).
    + intros H. simplify_eq. exists 1%nat. reflexivity.
    + destruct (drain_page max_items rest wid (fetched + 1)) as [ys0 k0] eqn:Hrec.
      intros H. simplify_eq. specialize (IH _ _ _ _ Hrec).
      destruct k as [[l' f']|].
      * destruct IH as [-> ->]. split; [reflexivity|].
        symmetry. apply (last_cons_shift wid rest last_id).
      * destruct IH as [j ->]. exists (S j). reflexivity.
Qed.

Section Exact.

Variable src : Source.
Variables excl_field excl_value : option string.

Let rows := parent_rows src excl_field excl_value.

(** After a page the rows still to come are the rows the page left out. *)
Lemma rows_after_page last_id x t :
  take (src_query_cap src) (filter (fun i => last_id < i) rows) = x :: t ->
  filter (fun i => List.last (x :: t) last_id < i) rows
  = drop (src_query_cap src) (filter (fun i => last_id < i) rows).
Proof.
  intros Htake.
  assert (Hb : List.last (x :: t) last_id ∈ filter (fun i => last_id < i) rows).
  { eapply elem_of_sublist; [|apply sublist_take]. rewrite Htake.
    apply last_cons_elem. }
  apply list_elem_of_filter in Hb as [Hgt _].
  rewrite <- (filter_above_last_taken _ _ x t last_id);
    [|apply filter_sorted, rows_sorted|exact Htake].
  symmetry. apply list_filter_filter_l. intros y. lia.
Qed.

Lemma page_is_take last_id :
  wiql_parents src excl_field excl_value last_id
  = take (src_query_cap src) (filter (fun i => last_id < i) rows).
Proof. reflexivity. Qed.

(** Whatever the maximum, the fuel and the cap of the server, what the loop
    yields is a prefix of the rows above [last_id]. *)
Lemma iterate_loop_prefix max_items fuel : forall last_id fetched l,
  iterate_loop src max_items excl_field excl_value fuel last_id fetched = Some l ->
  exists k, l = take k (filter (fun i => last_id < i) rows).
Proof.
  induction fuel as [|n IH]; intros last_id fetched l; [discriminate|].
  rewrite iterate_loop_S, page_is_take.
  set (F := filter (fun i => last_id < i) rows).
  destruct (take (src_query_cap src) F) as [|x t] eqn:Htake.
  { intros [= <-]. exists 0%nat. symmetry. apply take_0. }
  destruct (drain_page max_items (x :: t) last_id fetched) as [ys k] eqn:Hd.
  pose proof (drain_page_shape _ _ _ _ _ _ Hd) as Hshape.
  destruct k as [[l' f']|].
  - destruct Hshape as [-> ->].
    destruct (iterate_loop src max_items excl_field excl_value n _ f') as [zs|] eqn:Hrec;
      [|discriminate].
    intros H. injection H as <-.
    destruct (IH _ _ _ Hrec) as [k ->].
    rewrite (rows_after_page last_id x t Htake). fold F.
    exists (src_query_cap src + k)%nat.
    transitivity ((x :: t) ++ take k (drop (src_query_cap src) F)); [reflexivity|].
    rewrite <- Htake. apply take_take_drop.
  - destruct Hshape as [j ->]. intros [= <-].
    exists (j `min` src_query_cap src)%nat. rewrite <- Htake. apply take_take.
Qed.

(** Under a positive maximum the page loop stops at the id that reaches it. *)
Lemma drain_page_limited m page : forall last_id fetched,
  0 < m -> fetched < m ->
  drain_page (Some m) page last_id fetched =
  if (length page <? Z.to_nat (m - fetched))%nat
  then (page, Some (List.last page last_id, fetched + Z.of_nat (length page)))
  else (take (Z.to_nat (m - fetched)) page, None).
Proof.
  induction page as [|wid rest IH]; intros last_id fetched Hm Hf.
  - simpl. destruct (Nat.ltb_spec 0 (Z.to_nat (m - fetched))); [|lia].
    do 3 f_equal. lia.
  - change (drain_page (Some m) (wid :: rest) last_id fetched)
      with (if max_reached (Some m) (fetched + 1) then ([wid], None)
            else let '(ys, k) := drain_page (Some m) rest wid (fetched + 1) in
                 (wid :: ys, k)).
    unfold max_reached. destruct (Z.eqb_spec m 0) as [->|_]; [lia|]. cbn [negb andb].
    destruct (Z.leb_spec m (fetched + 1)) as [Hle|Hgt].
    + assert (Hk : Z.to_nat (m - fetched) = 1%nat) by lia. rewrite Hk.
      destruct (Nat.ltb_spec (length (wid :: rest)) 1); [simpl in *; lia|]. reflexivity.
    + rewrite (IH wid (fetched + 1) Hm Hgt).
      assert (Hk : Z.to_nat (m - fetched) = S (Z.to_nat (m - (fetched + 1)))) by lia.
      rewrite Hk. cbn [length].
      destruct (Nat.ltb_spec (length rest) (Z.to_nat (m - (fetched + 1))));
        destruct (Nat.ltb_spec (S (length rest)) (S (Z.to_nat (m - (fetched + 1)))));
        try lia.
      * f_equal. f_equal. f_equal; [symmetry; apply last_cons_shift|lia].
      * reflexivity.
Qed.

Lemma iterate_loop_limited m fuel : forall last_id fetched,
  (0 < src_query_cap src)%nat -> 0 < m -> fetched < m ->
  (length (filter (fun i => (last_id < i)%Z) rows) < fuel)%nat ->
  iterate_loop src (Some m) excl_field excl_value fuel last_id fetched =
  Some (take (Z.to_nat (m - fetched)) (filter (fun i => last_id < i) rows)).
Proof.
  induction fuel as [|n IH]; intros last_id fetched Hcap Hm Hf Hlen;
    [simpl in Hlen; lia|].
  rewrite iterate_loop_S, page_is_take.
  set (F := filter (fun i => last_id < i) rows) in *.
  destruct (take (src_query_cap src) F) as [|x t] eqn:Htake.
  { apply take_nil_inv in Htake as [H0| ->]; [lia|]. rewrite take_nil. reflexivity. }
  rewrite drain_page_limited by assumption.
  assert (Hpl : (length (x :: t) <= src_query_cap src)%nat).
  { rewrite <- Htake, length_take. lia. }
  destruct (Nat.ltb_spec (length (x :: t)) (Z.to_nat (m - fetched))) as [Hlt|Hge].
  - assert (Hb : List.last (x :: t) last_id ∈ F).
    { eapply elem_of_sublist; [|apply sublist_take]. rewrite Htake.
      apply last_cons_elem. }
    apply list_elem_of_filter in Hb as [Hgt Hin].
    pose proof (filter_above_shrinks rows last_id _ Hgt Hin) as Hshrink.
    fold F in Hshrink.
    rewrite IH; [|exact Hcap|exact Hm|lia|lia].
    rewrite (rows_after_page last_id x t Htake). fold F.
    change (Some ((x :: t) ++ take (Z.to_nat (m - (fetched + Z.of_nat (length (x :: t)))))
                                   (drop (src_query_cap src) F))
            = Some (take (Z.to_nat (m - fetched)) F)).
    f_equal. rewrite <- (take_drop (src_query_cap src) F) at 2.
    rewrite Htake, take_app.
    rewrite (take_ge (x :: t)) by lia. f_equal. f_equal. lia.
  - f_equal. rewrite <- Htake, take_take. f_equal. lia.
Qed.

(** A negative maximum is reached by the first id. *)
Lemma iterate_loop_negative m n last_id :
  (0 < src_query_cap src)%nat -> m < 0 ->
  iterate_loop src (Some m) excl_field excl_value (S n) last_id 0 =
  Some (take 1 (filter (fun i => last_id < i) rows)).
Proof.
  intros Hcap Hm. rewrite iterate_loop_S, page_is_take.
  set (F := filter (fun i => last_id < i) rows).
  destruct (take (src_query_cap src) F) as [|x t] eqn:Htake.
  { apply take_nil_inv in Htake as [H0| ->]; [lia|reflexivity]. }
  change (drain_page (Some m) (x :: t) last_id 0)
    with (if max_reached (Some m) (0 + 1) then ([x], None)
          else let '(ys, k) := drain_page (Some m) t x (0 + 1) in (x :: ys, k)).
  unfold max_reached. destruct (Z.eqb_spec m 0); [lia|].
  destruct (Z.leb_spec m (0 + 1)); [|lia]. cbn [negb andb]. f_equal.
  destruct F as [|y F']; [rewrite take_nil in Htake; discriminate|].
  destruct (src_query_cap src); [lia|]. simpl in Htake. injection Htake as -> _.
  reflexivity.
Qed.

End Exact.

Lemma take_sorted (l : list Z) k : StronglySorted Z.lt l -> StronglySorted Z.lt (take k l).
Proof.
  intros Hs. rewrite <- (take_drop k l) in Hs.
  eapply StronglySorted_app_1_l, Hs.
Qed.

(** X5. Whatever the maximum, the starting id and the cap of the server,
    [iterate_parent_ids] yields ids in strictly increasing order, each once,
    and each is a work item of the source of a parent type, not excluded by
    the owner clause, above the bound of the first query. *)
Theorem iterate_parent_ids_ascending
    (src : Source) (max_items start_id : option Z)
    (excl_field excl_value : option string) (fuel : nat) (l : list Z) :
  iterate_parent_ids src max_items start_id excl_field excl_value fuel = Some l ->
  StronglySorted Z.lt l /\ NoDup l /\
  forall x, x ∈ l ->
    first_last_id start_id < x /\
    exists it, src_items src !! x = Some it /\
               parent_row excl_field excl_value it = true.
Proof.
  intros Hrun. unfold iterate_parent_ids in Hrun.
  destruct (iterate_loop_prefix src excl_field excl_value _ _ _ _ _ Hrun) as [k ->].
  set (F := filter (fun i => first_last_id start_id < i)
                   (parent_rows src excl_field excl_value)).
  assert (HF : StronglySorted Z.lt F) by (apply filter_sorted, rows_sorted).
  split; [apply take_sorted, HF|]. split.
  - eapply sublist_NoDup; [|apply sublist_take].
    eapply sublist_NoDup; [apply rows_NoDup|apply sublist_filter].
  - intros x Hx.
    assert (HxF : x ∈ F) by (eapply elem_of_sublist; [exact Hx|apply sublist_take]).
    apply list_elem_of_filter in HxF as [Hgt Hrow].
    split; [exact Hgt|]. apply parent_rows_elem, Hrow.
Qed.

Lemma iterate_parent_ids_ascending_witness :
  StronglySorted Z.lt [5; 9].
Proof.
  apply (iterate_parent_ids_ascending Scenario.two_roots None None None None 3 [5; 9]).
  vm_compute. reflexivity.
Defined.

(** X6. With a server that returns rows, the enumeration under a maximum is
    the enumeration without one cut short: the first [m] ids for a positive
    maximum [m], and only the first id for a negative one, which the first
    id yielded already reaches. *)
Theorem iterate_parent_ids_limited
    (src : Source) (max_items start_id : option Z)
    (excl_field excl_value : option string) :
  (0 < src_query_cap src)%nat ->
  iterate_parent_ids src max_items start_id excl_field excl_value
    (S (length (parent_rows src excl_field excl_value)))
  = Some (limited max_items
            (filter (fun i => first_last_id start_id < i)
                    (parent_rows src excl_field excl_value))).
Proof.
  intros Hcap. unfold iterate_parent_ids, limited.
  pose proof (length_filter (fun i => first_last_id start_id < i)
                (parent_rows src excl_field excl_value)) as Hlen.
  destruct max_items as [m|].
  - destruct (Z.eqb_spec m 0) as [->|Hm].
    + rewrite iterate_loop_max_zero. apply iterate_loop_unlimited; [exact Hcap|lia].
    + destruct (Z.lt_trichotomy m 0) as [Hneg|[H0|Hpos]]; [|contradiction|].
      * rewrite iterate_loop_negative by assumption.
        replace (Z.to_nat (Z.max 1 m)) with 1%nat by lia. reflexivity.
      * rewrite iterate_loop_limited; [|exact Hcap|exact Hpos|exact Hpos|lia].
        replace (Z.to_nat (Z.max 1 m)) with (Z.to_nat (m - 0)) by lia. reflexivity.
  - apply iterate_loop_unlimited; [exact Hcap|lia].
Qed.

Lemma iterate_parent_ids_limited_witness :
  iterate_parent_ids Scenario.two_roots (Some (-3)) None None None 3 = Some [5].
Proof.
  refine (eq_trans (iterate_parent_ids_limited Scenario.two_roots (Some (-3)) None
                      None None _) _).
  - vm_compute. lia.
  - vm_compute. reflexivity.
Defined.

(** ** Every run is a sequence of actions *)

Lemma child_type_map_lower :
  CHILD_TYPE_MAP_LOWER
  = <["issue" := "User Story"]> (<["user story" := "User Story"]> ∅).
Proof. reflexivity. Qed.

Lemma mapped_type_created cf type_name :
  mapped_type cf = Some type_name -> type_name ∈ created_types.
Proof.
  unfold mapped_type. rewrite child_type_map_lower.
  destruct (_ !! _) as [[|c r]|] eqn:Hl; [discriminate| |discriminate].
  intros [= <-].
  apply lookup_insert_Some in Hl as [[_ <-]|[_ Hl]].
  - right. left.
  - apply lookup_insert_Some in Hl as [[_ <-]|[_ Hl]]; [right; left|].
    rewrite lookup_empty in Hl. discriminate.
Qed.

Lemma parent_type_created : TARGET_PARENT_TYPE ∈ created_types.
Proof. left. Qed.

Section Actions.

Variables (args : Args) (src : Source).

Let steps := rtc (action args src).

Lemma steps_trans st1 st2 st3 : steps st1 st2 -> steps st2 st3 -> steps st1 st3.
Proof. unfold steps. intros H12 H23. etransitivity; eassumption. Qed.

Lemma resolve_actions st wid fields f type_name parent_id for_root :
  batch_get src wid fields = Some f ->
  type_name ∈ created_types ->
  steps st (resolve_or_create args src st wid f type_name parent_id for_root).1.
Proof.
  intros Hf Hty. unfold steps.
  destruct (find_target_by_reflected (tgt st) wid) as [z|] eqn:Hz.
  { rewrite (resolve_found _ _ _ _ _ _ _ _ z Hz). reflexivity. }
  destruct (dry_run args) eqn:Hd.
  - rewrite (resolve_dry _ _ _ _ f type_name parent_id for_root Hz Hd).
    apply rtc_once. eapply act_count; eassumption.
  - rewrite (resolve_real _ _ _ _ f type_name parent_id for_root Hz Hd).
    apply rtc_once. eapply act_create; eassumption.
Qed.

Lemma migrate_comments_actions st wid tgt_wid :
  dry_run args = false -> with_comments args = true -> 0 < tgt_wid ->
  steps st (migrate_comments src st wid tgt_wid).
Proof.
  intros Hd Hc Hpos. unfold migrate_comments.
  generalize (get_comments src wid). intros cs. revert st.
  induction cs as [|c cs IH]; intros st; [unfold steps; reflexivity|].
  simpl. eapply steps_trans; [|apply IH].
  destruct (Py.or_empty c) as [|a t] eqn:Ht; [unfold steps; reflexivity|].
  apply rtc_once. apply act_history; try assumption. discriminate.
Qed.

Lemma maybe_comments_actions st wid tgt_wid :
  steps st (maybe_comments args src st wid tgt_wid).
Proof.
  unfold maybe_comments.
  destruct (with_comments args) eqn:Hc; [|unfold steps; reflexivity].
  destruct (dry_run args) eqn:Hd; [unfold steps; reflexivity|].
  destruct (Z.ltb_spec 0 tgt_wid); [|unfold steps; reflexivity].
  apply migrate_comments_actions; assumption.
Qed.

Lemma link_if_real_actions tgt_parent out :
  steps out.1 (link_if_real args tgt_parent out).
Proof.
  unfold link_if_real.
  destruct (dry_run args) eqn:Hd; [unfold steps; reflexivity|].
  destruct (Z.ltb_spec 0 tgt_parent); [|unfold steps; reflexivity].
  destruct (Z.ltb_spec 0 out.2); [|unfold steps; reflexivity].
  apply rtc_once. apply act_link; assumption.
Qed.

Lemma step_child_actions tgt_parent st cid :
  steps st (step_child args src tgt_parent st cid).
Proof.
  rewrite step_child_eq.
  destruct (batch_get src cid child_fields) as [cf|] eqn:Hcf;
    [|unfold steps; reflexivity].
  destruct (mapped_type cf) as [ty|] eqn:Hty; [|unfold steps; reflexivity].
  cbv zeta. eapply steps_trans; [|apply maybe_comments_actions].
  eapply resolve_actions; [exact Hcf|]. eapply mapped_type_created, Hty.
Qed.

Lemma step_related_actions tgt_parent st rid :
  steps st (step_related args src tgt_parent st rid).
Proof.
  rewrite step_related_eq.
  destruct (batch_get src rid child_fields) as [rf|] eqn:Hrf;
    [|unfold steps; reflexivity].
  destruct (mapped_type rf) as [ty|] eqn:Hty; [|unfold steps; reflexivity].
  eapply steps_trans; [|apply link_if_real_actions].
  eapply resolve_actions; [exact Hrf|]. eapply mapped_type_created, Hty.
Qed.

Lemma foldl_actions {A} (step : run -> A -> run) (l : list A) :
  (forall st x, steps st (step st x)) -> forall st, steps st (foldl step st l).
Proof.
  intros Hstep. induction l as [|x l IH]; intros st; [unfold steps; reflexivity|].
  simpl. eapply steps_trans; [apply Hstep|apply IH].
Qed.

Lemma children_actions tgt_parent l st :
  steps st (foldl (step_child args src tgt_parent) st l).
Proof. apply foldl_actions. intros. apply step_child_actions. Qed.

Lemma related_actions tgt_parent l st :
  steps st (foldl (step_related args src tgt_parent) st l).
Proof. apply foldl_actions. intros. apply step_related_actions. Qed.

Lemma step_parent_actions st pid : steps st (step_parent args src st pid).
Proof.
  rewrite step_parent_eq.
  destruct (batch_get src pid parent_fields) as [f|] eqn:Hf;
    [|unfold steps; reflexivity].
  cbv zeta.
  eapply steps_trans; [eapply resolve_actions; [exact Hf|apply parent_type_created]|].
  eapply steps_trans; [apply maybe_comments_actions|].
  eapply steps_trans; [apply children_actions|apply related_actions].
Qed.

Lemma run_over_actions pids st : steps st (run_over args src st pids).
Proof. apply foldl_actions. intros. apply step_parent_actions. Qed.

(** A property every action keeps holds at the end of a run when it holds at
    the start. *)
Lemma run_over_invariant (P : run -> Prop) pids st :
  (forall s s', action args src s s' -> P s -> P s') ->
  P st -> P (run_over args src st pids).
Proof.
  intros Hkeep Hst. pose proof (run_over_actions pids st) as Hrun. unfold steps in Hrun.
  induction Hrun as [|s1 s2 s3 H12 H23 IH]; [exact Hst|].
  apply IH. eapply Hkeep; eassumption.
Qed.

End Actions.

(** ** What the state records *)

Lemma calls_bump b st : calls (bump b st) = calls st.
Proof. destruct b; reflexivity. Qed.

Lemma links_bump b st : related_links (bump b st) = related_links st.
Proof. destruct b; reflexivity. Qed.

Lemma tally_bump b st :
  (created_parent (bump b st) + created_other (bump b st)
   = S (created_parent st + created_other st))%nat.
Proof. destruct b; simpl; lia. Qed.

Lemma create_work_item_state st type_name fields parent_id :
  (create_work_item st type_name fields parent_id).1
  = mkRun (server_create (tgt st) type_name (create_patch fields parent_id)).1
          (created_parent st) (created_other st) (related_links st)
          (calls st ++ [Create type_name (create_patch fields parent_id)]).
Proof. reflexivity. Qed.

Lemma main_run args src T fuel r :
  main args src T fuel = Some r ->
  exists pids, r = run_over args src (start T) pids.
Proof.
  unfold main. destruct (iterate_parent_ids _ _ _ _ _ _) as [pids|]; [|discriminate].
  intros [= <-]. exists pids. reflexivity.
Qed.

(** X7. The counters of a run report what was sent: the related-links
    counter is the number of related-link patches among the calls, and in a
    real run the two created counters add up to the number of creation calls
    and to the number of work items the target gained. *)
Theorem counters_are_exact
    (args : Args) (src : Source) (T : Target) (fuel : nat) (r : run) :
  main args src T fuel = Some r ->
  related_links r = length (List.filter is_link (calls r)) /\
  (dry_run args = false ->
   length (creations r) = (created_parent r + created_other r)%nat /\
   length (tgt_items (tgt r))
   = (length (tgt_items T) + created_parent r + created_other r)%nat).
Proof.
  intros Hrun. apply main_run in Hrun as [pids ->]. split.
  - apply (run_over_invariant args src
             (fun st => related_links st = length (List.filter is_link (calls st))));
      [|reflexivity].
    intros s s' Hact Hs. destruct Hact.
    + rewrite links_bump, calls_bump, create_work_item_state. cbn [calls related_links].
      rewrite List.filter_app, length_app. simpl. lia.
    + rewrite links_bump, calls_bump. exact Hs.
    + unfold push_history, http_patch_workitem. cbn [calls related_links].
      rewrite List.filter_app, length_app. simpl. lia.
    + unfold bump_links, add_related_link, http_patch_workitem.
      cbn [calls related_links].
      rewrite List.filter_app, length_app. simpl. lia.
  - intros Hd.
    apply (run_over_invariant args src
             (fun st =>
                length (creations st) = (created_parent st + created_other st)%nat /\
                length (tgt_items (tgt st))
                = (length (tgt_items T) + created_parent st + created_other st)%nat));
      [|split; simpl; lia].
    intros s s' Hact [Hc Hn]. destruct Hact.
    + unfold creations in *. rewrite calls_bump, tgt_bump, create_work_item_state.
      cbn [calls tgt]. unfold server_create. cbn [fst tgt_items].
      rewrite List.filter_app, !length_app. destruct for_root; simpl; lia.
    + congruence.
    + unfold creations in *. unfold push_history, http_patch_workitem.
      cbn [calls tgt created_parent created_other]. unfold server_patch. cbn [tgt_items].
      rewrite List.filter_app, length_app, length_fmap. simpl. lia.
    + unfold creations in *.
      unfold bump_links, add_related_link, http_patch_workitem.
      cbn [calls tgt created_parent created_other]. unfold server_patch. cbn [tgt_items].
      rewrite List.filter_app, length_app, length_fmap. simpl. lia.
Qed.

Lemma counters_are_exact_witness :
  exists r,
    main Scenario.real_args Scenario.source Scenario.empty_target 2 = Some r /\
    length (creations r) = (created_parent r + created_other r)%nat.
Proof.
  destruct (main Scenario.real_args Scenario.source Scenario.empty_target 2)
    as [r|] eqn:Hr; [|vm_compute in Hr; discriminate].
  exists r. split; [reflexivity|].
  apply (counters_are_exact Scenario.real_args Scenario.source Scenario.empty_target
           2 r Hr). reflexivity.
Defined.

Lemma created_types_cases type_name :
  type_name ∈ created_types -> type_name = "Work Bundle" \/ type_name = "User Story".
Proof.
  intros H. apply list_elem_of_In in H. simpl in H.
  decompose [or] H; subst; auto; contradiction.
Qed.

(** X8. Every call a run sends is of one of three shapes: the creation of a
    "Work Bundle" or a "User Story" whose patch carries, as correlation
    value, the id of a work item of the source; a patch that appends one
    non-empty history note; or a patch that adds one related link between
    two real ids. *)
Theorem calls_are_expected
    (args : Args) (src : Source) (T : Target) (fuel : nat) (r : run) :
  main args src T fuel = Some r -> Forall (expected_call src) (calls r).
Proof.
  intros Hrun. apply main_run in Hrun as [pids ->].
  apply (run_over_invariant args src
           (fun st => Forall (expected_call src) (calls st)));
    [|constructor].
  intros s s' Hact Hs. destruct Hact.
  - rewrite calls_bump, create_work_item_state. cbn [calls].
    apply Forall_app. split; [exact Hs|]. constructor; [|constructor].
    split; [apply created_types_cases; assumption|].
    exists wid. split; [eapply batch_get_source; eassumption|].
    apply create_patch_reflected.
  - rewrite calls_bump. exact Hs.
  - unfold push_history, http_patch_workitem. cbn [calls].
    apply Forall_app. split; [exact Hs|]. constructor; [|constructor].
    split; [assumption|]. left. exists text. auto.
  - unfold bump_links, add_related_link, http_patch_workitem. cbn [calls].
    apply Forall_app. split; [exact Hs|]. constructor; [|constructor].
    split; [assumption|]. right. exists tgt_other. auto.
Qed.

Lemma calls_are_expected_witness :
  exists r,
    main Scenario.real_args Scenario.source Scenario.empty_target 2 = Some r /\
    Forall (expected_call Scenario.source) (calls r).
Proof.
  destruct (main Scenario.real_args Scenario.source Scenario.empty_target 2)
    as [r|] eqn:Hr; [|vm_compute in Hr; discriminate].
  exists r. split; [reflexivity|].
  apply (calls_are_expected Scenario.real_args Scenario.source Scenario.empty_target
           2 r Hr).
Defined.

(** ** The target only grows *)

Lemma grown_item_refl it : grown_item it it.
Proof. repeat split. exists []. symmetry. apply app_nil_r. Qed.

Lemma grown_item_patch it it' workitem_id patch :
  grown_item it it' -> grown_item it (patch_item workitem_id patch it').
Proof.
  intros (Hid & Hty & more & Hops). unfold patch_item.
  destruct (_ =? _); [|repeat split; eauto].
  repeat split; simpl; [exact Hid|exact Hty|].
  exists (more ++ patch). rewrite Hops. symmetry. apply app_assoc.
Qed.

Lemma grown_refl T : grown T T.
Proof.
  split; [reflexivity|]. exists (tgt_items T), []. split; [symmetry; apply app_nil_r|].
  induction (tgt_items T); constructor; [apply grown_item_refl|assumption].
Qed.

Lemma grown_create T T' type_name patch :
  grown T T' -> grown T (server_create T' type_name patch).1.
Proof.
  intros (Hp & kept & added & Hitems & Hall). split; [exact Hp|].
  exists kept, (added ++ [mkTgtItem (tgt_next T') type_name patch]).
  split; [|exact Hall]. simpl. rewrite Hitems. symmetry. apply app_assoc.
Qed.

Lemma grown_patch T T' workitem_id patch :
  grown T T' -> grown T (server_patch T' workitem_id patch).
Proof.
  intros (Hp & kept & added & Hitems & Hall). split; [exact Hp|].
  exists (patch_item workitem_id patch <$> kept), (patch_item workitem_id patch <$> added).
  split.
  - unfold server_patch. cbn [tgt_items]. rewrite Hitems. apply fmap_app.
  - apply Forall2_fmap_r. eapply Forall2_impl; [exact Hall|].
    intros it it'. apply grown_item_patch.
Qed.

(** X9. A run only adds to the target: every work item that was there keeps
    its id and its type and, at most, gains operations at the end of its
    history; new work items come after the old ones; and every correlation
    lookup that succeeded before the run gives the same answer after it. *)
Theorem target_only_grows
    (args : Args) (src : Source) (T : Target) (fuel : nat) (r : run) :
  main args src T fuel = Some r ->
  grown T (tgt r) /\ keeps_lookups T (tgt r).
Proof.
  intros Hrun. apply main_run in Hrun as [pids ->].
  split; [|apply (run_over_keeps args src pids (start T))].
  apply (run_over_invariant args src (fun st => grown T (tgt st))); [|apply grown_refl].
  intros s s' Hact Hs. destruct Hact.
  - rewrite tgt_bump, create_work_item_state. cbn [tgt]. apply grown_create, Hs.
  - rewrite tgt_bump. exact Hs.
  - apply grown_patch, Hs.
  - apply grown_patch, Hs.
Qed.

Lemma target_only_grows_witness :
  exists r,
    main Scenario.real_args Scenario.source Scenario.empty_target 2 = Some r /\
    grown Scenario.empty_target (tgt r).
Proof.
  destruct (main Scenario.real_args Scenario.source Scenario.empty_target 2)
    as [r|] eqn:Hr; [|vm_compute in Hr; discriminate].
  exists r. split; [reflexivity|].
  apply (target_only_grows Scenario.real_args Scenario.source Scenario.empty_target
           2 r Hr).
Defined.

(** ** No second counterpart *)

Lemma find_None_count T wid :
  find_target_by_reflected T wid = None <-> corr_count T (Py.str wid) = 0%nat.
Proof.
  unfold find_target_by_reflected, corr_count.
  destruct (filter _ (tgt_items T)) as [|it l]; simpl; split; auto; discriminate.
Qed.

Lemma corr_count_patch T workitem_id patch s :
  neutral patch -> corr_count (server_patch T workitem_id patch) s = corr_count T s.
Proof.
  intros Hn. unfold corr_count, server_patch. cbn [tgt_items].
  induction (tgt_items T) as [|it l IH]; [reflexivity|].
  rewrite fmap_cons, !filter_cons, (patch_item_field _ _ _ Hn).
  case_decide; simpl; rewrite IH; reflexivity.
Qed.

Lemma corr_count_create T type_name patch s :
  corr_count (server_create T type_name patch).1 s
  = (corr_count T s
     + if decide (field_of_ops patch REFLECTED = Some s) then 1 else 0)%nat.
Proof.
  unfold corr_count, server_create. cbn [fst tgt_items].
  rewrite filter_app, length_app. f_equal.
  rewrite filter_cons. unfold item_field. cbn [t_ops].
  destruct (decide (field_of_ops patch REFLECTED = Some s)); reflexivity.
Qed.

(** X10. A run never gives a source item a second counterpart: for every
    correlation value the number of work items of the target that carry it is
    after the run what it was before, or has gone from none to one. *)
Theorem no_second_counterpart
    (args : Args) (src : Source) (T : Target) (fuel : nat) (r : run) (s : string) :
  main args src T fuel = Some r ->
  corr_count (tgt r) s = corr_count T s \/
  (corr_count T s = 0%nat /\ corr_count (tgt r) s = 1%nat).
Proof.
  intros Hrun. apply main_run in Hrun as [pids ->].
  apply (run_over_invariant args src
           (fun st => corr_count (tgt st) s = corr_count T s \/
                      (corr_count T s = 0%nat /\ corr_count (tgt st) s = 1%nat)));
    [|left; reflexivity].
  intros s0 s' Hact Hs. destruct Hact.
  - rewrite tgt_bump, create_work_item_state. cbn [tgt].
    rewrite corr_count_create, create_patch_reflected.
    case_decide as Heq.
    + injection Heq as <-.
      match goal with
      | Hnone : find_target_by_reflected _ _ = None |- _ =>
          apply find_None_count in Hnone; rename Hnone into Hzero
      end.
      destruct Hs as [Hs|[_ Hs]]; [|congruence].
      right. split; [congruence|]. rewrite Hzero. reflexivity.
    + rewrite Nat.add_0_r. exact Hs.
  - rewrite tgt_bump. exact Hs.
  - unfold push_history, http_patch_workitem. cbn [tgt].
    rewrite corr_count_patch by apply neutral_history. exact Hs.
  - unfold bump_links, add_related_link, http_patch_workitem. cbn [tgt].
    rewrite corr_count_patch by apply neutral_relation. exact Hs.
Qed.

Lemma no_second_counterpart_witness :
  exists r,
    main Scenario.real_args Scenario.source Scenario.empty_target 2 = Some r /\
    (corr_count (tgt r) "101" = corr_count Scenario.empty_target "101" \/
     (corr_count Scenario.empty_target "101" = 0%nat /\
      corr_count (tgt r) "101" = 1%nat)).
Proof.
  destruct (main Scenario.real_args Scenario.source Scenario.empty_target 2)
    as [r|] eqn:Hr; [|vm_compute in Hr; discriminate].
  exists r. split; [reflexivity|].
  apply (no_second_counterpart Scenario.real_args Scenario.source
           Scenario.empty_target 2 r "101" Hr).
Defined.

(** ** Creation and lookup *)

(** X11. Creating the counterpart of a source item that had none makes the
    correlation lookup of that item return the id of the new work item, and
    changes the lookup of no other source item. *)
Theorem create_then_find
    (args : Args) (src : Source) (st : run) (type_name : string)
    (f : gmap string jval) (wid : Z) (parent_id : option Z) :
  find_target_by_reflected (tgt st) wid = None ->
  let out := create_work_item st type_name
               (build_fields args src (tgt st) f wid) parent_id in
  find_target_by_reflected (tgt out.1) wid = Some out.2 /\
  forall wid', wid' <> wid ->
    find_target_by_reflected (tgt out.1) wid' = find_target_by_reflected (tgt st) wid'.
Proof.
  intros Hnone out. subst out. rewrite create_work_item_state. cbn [tgt].
  unfold find_target_by_reflected, server_create in *. cbn [fst tgt_items].
  split.
  - rewrite filter_app.
    destruct (filter _ (tgt_items (tgt st))) as [|it l]; [|discriminate].
    rewrite filter_cons, decide_True by apply create_patch_reflected. reflexivity.
  - intros wid' Hne. rewrite filter_app, filter_cons, decide_False.
    + rewrite filter_nil, app_nil_r. reflexivity.
    + unfold item_field. cbn [t_ops]. rewrite create_patch_reflected.
      intros [= Heq]. apply Hne. symmetry. unfold Py.str in Heq.
      apply (inj pretty) in Heq. exact Heq.
Qed.

Lemma create_then_find_witness :
  find_target_by_reflected
    (tgt (create_work_item (start Scenario.empty_target) "User Story"
            (build_fields Scenario.real_args Scenario.source Scenario.empty_target
               ∅ 101) None).1) 101 = Some 1.
Proof.
  apply (create_then_find Scenario.real_args Scenario.source
           (start Scenario.empty_target) "User Story" ∅ 101 None eq_refl).
Defined.

(** ** Items that already have a counterpart *)

Lemma migrate_comments_calls src st wid tgt_wid :
  calls (migrate_comments src st wid tgt_wid) = calls st ++ history_calls src wid tgt_wid.
Proof.
  unfold migrate_comments, history_calls, pushed_texts.
  generalize (get_comments src wid). intros cs. revert st.
  induction cs as [|c cs IH]; intros st; [symmetry; apply app_nil_r|].
  simpl. rewrite IH. destruct (Py.or_empty c) as [|a t]; [reflexivity|].
  simpl. rewrite <- app_assoc. reflexivity.
Qed.

(** X12. A child that already has a counterpart is left where it is: the
    step creates nothing, moves no counter and adds no link to the root (not
    even when the counterpart has none); the only calls it sends are the
    history notes of the child, one per non-empty comment and in order, in a
    real run with comments, each time the run is repeated. *)
Theorem existing_child_gets_only_notes
    (args : Args) (src : Source) (tgt_parent : Z) (st : run) (cid z : Z) :
  find_target_by_reflected (tgt st) cid = Some z ->
  let st' := step_child args src tgt_parent st cid in
  quiet st st' /\ related_links st' = related_links st /\
  calls st' =
    calls st ++
    if linkable_b src cid && with_comments args && negb (dry_run args)
    then history_calls src cid z else [].
Proof.
  intros Hz st'. subst st'. split; [|split].
  - apply step_child_quiet. intros _. exists z. exact Hz.
  - rewrite step_child_eq.
    destruct (batch_get src cid child_fields) as [cf|]; [|reflexivity].
    destruct (mapped_type cf) as [ty|]; [|reflexivity].
    cbv zeta. rewrite (resolve_found _ _ _ _ _ _ _ _ z Hz). cbn [fst snd].
    apply maybe_comments_links.
  - rewrite step_child_eq. unfold linkable_b.
    destruct (batch_get src cid child_fields) as [cf|];
      [|symmetry; apply app_nil_r].
    cbn [mbind option_bind].
    destruct (mapped_type cf) as [ty|]; [|symmetry; apply app_nil_r].
    cbv zeta. rewrite (resolve_found _ _ _ _ _ _ _ _ z Hz). cbn [fst snd].
    unfold maybe_comments. pose proof (find_positive _ _ _ Hz) as Hpos.
    destruct (Z.ltb_spec 0 z); [|lia]. rewrite andb_true_r. cbn [andb].
    destruct (with_comments args && negb (dry_run args));
      [apply migrate_comments_calls|symmetry; apply app_nil_r].
Qed.

Lemma existing_child_gets_only_notes_witness :
  exists r,
    main Scenario.real_args Scenario.source Scenario.empty_target 2 = Some r /\
    calls (step_child Scenario.real_args Scenario.source 1 r 101) = calls r.
Proof.
  destruct (main Scenario.real_args Scenario.source Scenario.empty_target 2)
    as [r|] eqn:Hr; [|vm_compute in Hr; discriminate].
  exists r. split; [reflexivity|].
  vm_compute in Hr. injection Hr as <-.
  refine (eq_trans (proj2 (proj2 (existing_child_gets_only_notes
                     Scenario.real_args Scenario.source 1 _ 101 2 _))) _).
  - vm_compute. reflexivity.
  - vm_compute. reflexivity.
Defined.

(** ** Related links are added on every real run *)

Lemma step_child_links args src tgt_parent st cid :
  related_links (step_child args src tgt_parent st cid) = related_links st.
Proof.
  rewrite step_child_eq.
  destruct (batch_get src cid child_fields) as [cf|]; [|reflexivity].
  destruct (mapped_type cf) as [ty|]; [|reflexivity].
  cbv zeta. rewrite maybe_comments_links. apply resolve_counters.
Qed.

Lemma children_links args src tgt_parent l : forall st,
  related_links (foldl (step_child args src tgt_parent) st l) = related_links st.
Proof.
  induction l as [|x l IH]; intros st; [reflexivity|].
  simpl. rewrite IH. apply step_child_links.
Qed.

Lemma step_related_links args src tgt_parent st rid :
  dry_run args = false -> 0 < tgt_parent ->
  related_links (step_related args src tgt_parent st rid)
  = (related_links st + if linkable_b src rid then 1 else 0)%nat.
Proof.
  intros Hd Htp. rewrite step_related_eq. unfold linkable_b.
  destruct (batch_get src rid child_fields) as [rf|];
    cbn [mbind option_bind]; [|lia].
  destruct (mapped_type rf) as [ty|]; [|lia].
  pose proof (resolve_real_found args src st rid rf ty None false Hd) as [_ Hpos].
  pose proof (resolve_counters args src st rid rf ty None false) as [Hl _].
  unfold link_if_real. rewrite Hd.
  destruct (Z.ltb_spec 0 tgt_parent); [|lia].
  destruct (Z.ltb_spec 0 (resolve_or_create args src st rid rf ty None false).2); [|lia].
  cbn [negb andb]. unfold bump_links, add_related_link, http_patch_workitem.
  cbn [related_links]. lia.
Qed.

Lemma related_fold_links args src tgt_parent l :
  dry_run args = false -> 0 < tgt_parent -> forall st,
  related_links (foldl (step_related args src tgt_parent) st l)
  = (related_links st + length (List.filter (linkable_b src) l))%nat.
Proof.
  intros Hd Htp. induction l as [|x l IH]; intros st; [simpl; lia|].
  simpl. rewrite IH, (step_related_links _ _ _ _ _ Hd Htp).
  destruct (linkable_b src x); simpl; lia.
Qed.

Lemma step_parent_links args src st pid :
  dry_run args = false ->
  related_links (step_parent args src st pid)
  = (related_links st +
     match batch_get src pid parent_fields with
     | Some _ => length (List.filter (linkable_b src) (get_children_related src pid).2)
     | None => 0
     end)%nat.
Proof.
  intros Hd. rewrite step_parent_eq.
  destruct (batch_get src pid parent_fields) as [f|]; [|lia].
  cbv zeta.
  pose proof (resolve_real_found args src st pid f TARGET_PARENT_TYPE None true Hd)
    as [_ Hpos].
  pose proof (resolve_counters args src st pid f TARGET_PARENT_TYPE None true) as [Hl _].
  rewrite (related_fold_links _ _ _ _ Hd Hpos), children_links, maybe_comments_links.
  lia.
Qed.

Lemma run_over_links args src pids :
  dry_run args = false -> forall st,
  related_links (run_over args src st pids) = (related_links st + link_pairs src pids)%nat.
Proof.
  intros Hd. unfold run_over, link_pairs.
  induction pids as [|p pids IH]; intros st; [simpl; lia|].
  cbn [foldl sum_list_with]. rewrite IH, (step_parent_links _ _ _ _ Hd). lia.
Qed.

(** X13. In a real run the related-links counter does not depend on the
    target: it is the number of pairs of a root with data and a linkable
    related item in the range. A related link is therefore added, and
    counted, again on every real run over the same range, also when both
    ends already have their counterparts. *)
Theorem related_links_every_run
    (args1 args2 : Args) (src : Source) (T1 T2 : Target) (fuel : nat) (r1 r2 : run) :
  dry_run args1 = false -> dry_run args2 = false ->
  same_range args1 args2 ->
  main args1 src T1 fuel = Some r1 ->
  main args2 src T2 fuel = Some r2 ->
  related_links r1 = related_links r2 /\
  exists pids,
    iterate_parent_ids src (max_items args1) (start_id args1)
      (exclude_ownerorg_field args1) (exclude_ownerorg_value args1) fuel = Some pids /\
    related_links r1 = link_pairs src pids.
Proof.
  intros Hd1 Hd2 (Hmax & Hstart & Hf & Hv). unfold main.
  rewrite <- Hmax, <- Hstart, <- Hf, <- Hv.
  destruct (iterate_parent_ids _ _ _ _ _ _) as [pids|]; [|discriminate].
  intros [= <-] [= <-].
  rewrite !run_over_links by assumption. split; [reflexivity|].
  exists pids. split; reflexivity.
Qed.

Lemma related_links_every_run_witness :
  exists r1 r2,
    main Scenario.real_args Scenario.source Scenario.empty_target 2 = Some r1 /\
    main Scenario.real_args Scenario.source (tgt r1) 2 = Some r2 /\
    related_links r1 = related_links r2.
Proof.
  destruct (main Scenario.real_args Scenario.source Scenario.empty_target 2)
    as [r1|] eqn:H1; [|vm_compute in H1; discriminate].
  destruct (main_returns Scenario.real_args Scenario.source (tgt r1)) as [r2 H2].
  exists r1, r2. split; [reflexivity|]. split; [exact H2|].
  apply (related_links_every_run Scenario.real_args Scenario.real_args Scenario.source
           Scenario.empty_target (tgt r1) 2 r1 r2 eq_refl eq_refl
           (conj eq_refl (conj eq_refl (conj eq_refl eq_refl))) H1 H2).
Defined.

(** ** Segments of a remapped path *)

Lemma split_segments d s x :
  x ∈ Py.split d s -> ~ In d (list_ascii_of_string x).
Proof.
  revert x. induction s as [|c r IH]; intros x; simpl.
  - intros Hx. apply list_elem_of_singleton in Hx as ->. simpl. tauto.
  - destruct (Ascii.eqb_spec c d) as [->|Hne].
    + intros Hx. apply elem_of_cons in Hx as [->|Hx]; [simpl; tauto|auto].
    + pose proof (split_not_nil d r) as Hnil.
      destruct (Py.split d r) as [|h t]; [congruence|].
      intros Hx. apply elem_of_cons in Hx as [->|Hx].
      * simpl. intros [Hc|Hin]; [congruence|].
        apply (IH h); [left|exact Hin].
      * apply IH. right. exact Hx.
Qed.

Lemma split_append_sep d a b :
  ~ In d (list_ascii_of_string a) ->
  Py.split d (a +:+ String d b) = a :: Py.split d b.
Proof.
  induction a as [|c a IH]; intros Hno.
  - change (EmptyString +:+ String d b) with (String d b). simpl.
    rewrite Ascii.eqb_refl. reflexivity.
  - rewrite append_cons. simpl. simpl in Hno.
    destruct (Ascii.eqb_spec c d) as [->|Hne]; [tauto|].
    rewrite IH by tauto. reflexivity.
Qed.

Lemma split_join d l :
  l <> [] -> (forall x, x ∈ l -> ~ In d (list_ascii_of_string x)) ->
  Py.split d (Py.join (String d EmptyString) l) = l.
Proof.
  induction l as [|x l IH]; intros Hnil Hall; [congruence|].
  destruct l as [|y l].
  - simpl. apply split_no_sep. intros c Hc ->. apply (Hall x); [left|exact Hc].
  - rewrite join_cons.
    change (String d EmptyString +:+ Py.join (String d EmptyString) (y :: l))
      with (String d (Py.join (String d EmptyString) (y :: l))).
    rewrite split_append_sep by (apply Hall; left).
    rewrite IH; [reflexivity|discriminate|].
    intros z Hz. apply Hall. right. exact Hz.
Qed.

(** X14. Seen as backslash segments, the result of [remap_root] on a
    non-empty path is the target root (when it has no backslash itself)
    followed by the segments of the path after the first when the first
    matches the source root, and by all the segments of the path otherwise:
    no segment is lost, changed or reordered. *)
Theorem remap_root_segments (p src_root tgt_root : string) :
  p <> EmptyString ->
  ~ In Py.backslash (list_ascii_of_string tgt_root) ->
  Py.split Py.backslash (remap_root (Some p) src_root tgt_root)
  = tgt_root ::
    (if String.eqb (Py.lower (hd EmptyString (Py.split Py.backslash p)))
                   (Py.lower src_root)
     then tl (Py.split Py.backslash p)
     else Py.split Py.backslash p).
Proof.
  intros Hp Hroot. unfold remap_root. destruct p as [|c p]; [congruence|].
  pose proof (split_segments Py.backslash (String c p)) as Hseg.
  pose proof (split_not_nil Py.backslash (String c p)) as Hnil.
  destruct (Py.split Py.backslash (String c p)) as [|p0 rest]; [congruence|].
  cbn [hd tl].
  destruct (String.eqb _ _); apply split_join; try discriminate;
    intros x Hx; apply elem_of_cons in Hx as [->|Hx]; auto.
  apply Hseg. right. exact Hx.
Qed.

Lemma remap_root_segments_witness :
  Py.split Py.backslash (remap_root (Some "Other\TeamA\Sprint 1") "SrcProj" "TgtProj")
  = ["TgtProj"; "Other"; "TeamA"; "Sprint 1"].
Proof.
  refine (eq_trans (remap_root_segments "Other\TeamA\Sprint 1" "SrcProj" "TgtProj" _ _) _).
  - discriminate.
  - vm_compute. intros H. decompose [or] H; try discriminate; assumption.
  - reflexivity.
Defined.

(** ** Relations in any order *)



(** ** A child created under its root *)

Lemma relations_of_fields (fields : list (string * option string)) :
  relations_of (omap (fun kv => AddField kv.1 <$> kv.2) fields) = [].
Proof.
  induction fields as [|[k [v|]] fields IH]; simpl; [reflexivity|exact IH|exact IH].
Qed.

Lemma relations_of_app p1 p2 : relations_of (p1 ++ p2) = relations_of p1 ++ relations_of p2.
Proof. unfold relations_of. apply omap_app. Qed.

Lemma relations_of_create_patch fields parent_id :
  relations_of (create_patch fields parent_id)
  = match parent_id with
    | Some p => [("System.LinkTypes.Hierarchy-Reverse", p)]
    | None => []
    end.
Proof.
  unfold create_patch. rewrite relations_of_app, relations_of_fields.
  destruct parent_id; reflexivity.
Qed.

Lemma server_create_find_new T type_name patch wid :
  find_target_by_reflected T wid = None ->
  field_of_ops patch REFLECTED = Some (Py.str wid) ->
  find_target_by_reflected (server_create T type_name patch).1 wid
  = Some (Z.pos (tgt_next T)).
Proof.
  intros Hnone Hp. unfold find_target_by_reflected, server_create in *.
  cbn [fst tgt_items]. rewrite filter_app.
  destruct (filter _ (tgt_items T)) as [|it l]; [|discriminate].
  rewrite filter_cons, decide_True by exact Hp. reflexivity.
Qed.

(** X16. In a real run a linkable child without counterpart is created under
    the counterpart of its root: the step sends one creation call of the
    mapped type whose patch has exactly one relation, the hierarchy-reverse
    link to the root's counterpart, then the history notes of the child when
    comments are migrated; it counts one creation, and afterwards the lookup
    of the child answers with the new id. A patch built without a parent has
    no relation. *)
Theorem new_child_is_created_under_root
    (args : Args) (src : Source) (tgt_parent : Z) (st : run) (cid : Z)
    (cf : gmap string jval) (type_name : string) :
  dry_run args = false -> 0 < tgt_parent ->
  batch_get src cid child_fields = Some cf ->
  mapped_type cf = Some type_name ->
  find_target_by_reflected (tgt st) cid = None ->
  let fields := build_fields args src (tgt st) cf cid in
  let new_id := Z.pos (tgt_next (tgt st)) in
  let st' := step_child args src tgt_parent st cid in
  relations_of (create_patch fields (Some tgt_parent))
  = [("System.LinkTypes.Hierarchy-Reverse", tgt_parent)] /\
  relations_of (create_patch fields None) = [] /\
  calls st' =
    calls st ++ Create type_name (create_patch fields (Some tgt_parent))
             :: (if with_comments args then history_calls src cid new_id else []) /\
  created_parent st' = created_parent st /\
  created_other st' = S (created_other st) /\
  find_target_by_reflected (tgt st') cid = Some new_id.
Proof.
  intros Hd Htp Hcf Hty Hnone fields new_id st'.
  split; [apply relations_of_create_patch|]. split; [apply relations_of_create_patch|].
  subst st'. rewrite step_child_eq, Hcf, Hty. cbv zeta.
  destruct (Z.ltb_spec 0 tgt_parent); [|lia].
  rewrite (resolve_real args src st cid cf type_name (Some tgt_parent) false Hnone Hd).
  cbn [fst snd bump]. fold fields.
  set (made := create_work_item st type_name fields (Some tgt_parent)).
  assert (Hid : made.2 = new_id) by reflexivity.
  pose proof (maybe_comments_quiet args src (bump_other made.1) cid made.2) as Hq.
  split; [|split; [|split]].
  - unfold maybe_comments. rewrite Hd, Hid. cbn [negb]. rewrite andb_true_r.
    change (0 <? new_id) with true. rewrite andb_true_r.
    destruct (with_comments args).
    + rewrite migrate_comments_calls. cbn [bump_other calls]. unfold made.
      rewrite create_work_item_state. cbn [calls]. rewrite <- app_assoc. reflexivity.
    + cbn [bump_other calls]. unfold made.
      rewrite create_work_item_state. cbn [calls]. reflexivity.
  - rewrite (quiet_parent _ _ Hq). reflexivity.
  - rewrite (quiet_other _ _ Hq). reflexivity.
  - rewrite (quiet_find _ _ Hq). cbn [bump_other tgt]. unfold made.
    rewrite create_work_item_state. cbn [tgt].
    apply server_create_find_new; [exact Hnone|apply create_patch_reflected].
Qed.

Lemma new_child_is_created_under_root_witness :
  find_target_by_reflected
    (tgt (step_child Scenario.real_args Scenario.source 7
            (start Scenario.empty_target) 101)) 101 = Some 1.
Proof.
  apply (new_child_is_created_under_root Scenario.real_args Scenario.source 7
           (start Scenario.empty_target) 101
           (filter (fun kv => kv.1 ∈ child_fields) (s_fields Scenario.story_101))
           "User Story" eq_refl ltac:(lia) eq_refl).
  - vm_compute. reflexivity.
  - reflexivity.
Defined.

(** ** Query text *)

Lemma split_ws_cons c r :
  split_ws (String c r) =
  if Py.is_space c then split_ws r
  else match r with
       | EmptyString => [String c EmptyString]
       | String c' _ =>
           if Py.is_space c' then String c EmptyString :: split_ws r
           else match split_ws r with
                | w :: ws => String c w :: ws
                | [] => [String c EmptyString]
                end
       end.
Proof. reflexivity. Qed.

Lemma is_word_cons c w : Py.is_space c = false -> is_word w -> is_word (String c w).
Proof.
  intros Hc [_ Hw]. split; [discriminate|]. simpl. constructor; assumption.
Qed.

Lemma is_word_single c : Py.is_space c = false -> is_word (String c EmptyString).
Proof. intros Hc. split; [discriminate|]. simpl. repeat constructor. exact Hc. Qed.

Lemma split_ws_words s : forall w, w ∈ split_ws s -> is_word w.
Proof.
  induction s as [|c r IH]; intros w; [intros H; inversion H|].
  rewrite split_ws_cons. destruct (Py.is_space c) eqn:Hc; [apply IH|].
  destruct r as [|c' r'].
  - intros H. apply list_elem_of_singleton in H as ->. apply is_word_single, Hc.
  - destruct (Py.is_space c') eqn:Hc'.
    + intros H. apply elem_of_cons in H as [->|H]; [apply is_word_single, Hc|auto].
    + destruct (split_ws (String c' r')) as [|w0 ws].
      * intros H. apply list_elem_of_singleton in H as ->. apply is_word_single, Hc.
      * intros H. apply elem_of_cons in H as [->|H].
        -- apply is_word_cons; [exact Hc|]. apply IH. left.
        -- apply IH. right. exact H.
Qed.

(** A word followed by nothing, or by white space, is the first word. *)
Lemma split_ws_word_then w rest :
  is_word w ->
  (rest = EmptyString \/ exists sp t, rest = String sp t /\ Py.is_space sp = true) ->
  split_ws (w +:+ rest) = w :: split_ws rest.
Proof.
  intros [Hne Hw] Hrest. induction w as [|c w IH]; [congruence|].
  simpl in Hw. apply Forall_cons in Hw as [Hc Hw].
  rewrite append_cons, split_ws_cons, Hc.
  destruct w as [|c2 w2].
  - change (EmptyString +:+ rest) with rest.
    destruct Hrest as [->|(sp & t & -> & Hsp)]; [reflexivity|].
    rewrite Hsp. reflexivity.
  - rewrite append_cons.
    simpl in Hw. pose proof Hw as Hw'. apply Forall_cons in Hw' as [Hc2 _].
    rewrite Hc2. rewrite <- append_cons.
    rewrite IH; [reflexivity|discriminate|exact Hw].
Qed.

Lemma split_ws_join ws :
  Forall is_word ws -> split_ws (Py.join (String space EmptyString) ws) = ws.
Proof.
  induction ws as [|w ws IH]; intros Hall; [reflexivity|].
  apply Forall_cons in Hall as [Hw Hall].
  destruct ws as [|w2 ws].
  - simpl. rewrite <- (append_empty_r w) at 1.
    rewrite split_ws_word_then; [reflexivity|exact Hw|left; reflexivity].
  - rewrite join_cons.
    change (String space EmptyString +:+ Py.join (String space EmptyString) (w2 :: ws))
      with (String space (Py.join (String space EmptyString) (w2 :: ws))).
    rewrite split_ws_word_then; [|exact Hw|right; eexists _, _; split; reflexivity].
    rewrite split_ws_cons. change (Py.is_space space) with true. cbv iota.
    rewrite IH by exact Hall. reflexivity.
Qed.

Lemma chars_append a b :
  list_ascii_of_string (a +:+ b) = list_ascii_of_string a ++ list_ascii_of_string b.
Proof.
  induction a as [|c a IH]; [reflexivity|].
  rewrite append_cons. simpl. rewrite IH. reflexivity.
Qed.

Lemma join_words_chars ws :
  Forall is_word ws ->
  Forall (fun c => Py.is_space c = true -> c = space)
         (list_ascii_of_string (Py.join (String space EmptyString) ws)).
Proof.
  assert (Hword : forall w, is_word w ->
            Forall (fun c => Py.is_space c = true -> c = space) (list_ascii_of_string w)).
  { intros w [_ Hw]. eapply Forall_impl; [exact Hw|]. intros c Hc Hs. congruence. }
  induction ws as [|w ws IH]; intros Hall; [constructor|].
  apply Forall_cons in Hall as [Hw Hall].
  destruct ws as [|w2 ws]; [apply Hword, Hw|].
  rewrite join_cons, !chars_append. apply Forall_app. split; [apply Hword, Hw|].
  apply Forall_app. split; [|apply IH, Hall].
  simpl. repeat constructor.
Qed.

(** X17. The query text [wiql] sends has the same words as the query it is
    given, every white space character in it is a plain space (line breaks
    and tabs are gone), and normalising it again changes nothing. *)
Theorem normalize_query_words (query : string) :
  split_ws (normalize_query query) = split_ws query /\
  normalize_query (normalize_query query) = normalize_query query /\
  Forall (fun c => Py.is_space c = true -> c = space)
         (list_ascii_of_string (normalize_query query)).
Proof.
  assert (Hwords : Forall is_word (split_ws query))
    by (apply Forall_forall; intros w; apply split_ws_words).
  assert (Hsame : split_ws (normalize_query query) = split_ws query)
    by (apply split_ws_join, Hwords).
  split; [exact Hsame|]. split.
  - unfold normalize_query at 1. rewrite Hsame. reflexivity.
  - apply join_words_chars, Hwords.
Qed.

Example normalize_query_lookup :
  normalize_query (String (ascii_of_nat 10)
    "      SELECT [System.Id] FROM WorkItems" +:+ String (ascii_of_nat 10)
    "      WHERE [System.TeamProject] = 'TgtProj'    ")
  = "SELECT [System.Id] FROM WorkItems WHERE [System.TeamProject] = 'TgtProj'".
Proof. vm_compute. reflexivity. Qed.

(** * Roots and linked items a run leaves alone *)

(** ** Counterparts *)

Lemma find_head_counterparts T wid :
  find_target_by_reflected T wid = head (counterparts T (Py.str wid)).
Proof. reflexivity. Qed.

Lemma counterparts_elem T s z :
  z ∈ counterparts T s <->
  exists it, it ∈ tgt_items T /\ item_field it REFLECTED = Some s /\ z = Z.pos (t_id it).
Proof.
  unfold counterparts. rewrite list_elem_of_fmap. split.
  - intros (it & -> & Hin). apply list_elem_of_filter in Hin as [Hf Hin]. eauto.
  - intros (it & Hin & Hf & ->). exists it. split; [reflexivity|].
    apply list_elem_of_filter. auto.
Qed.

Lemma find_in_counterparts T wid z :
  find_target_by_reflected T wid = Some z -> z ∈ counterparts T (Py.str wid).
Proof.
  rewrite find_head_counterparts.
  destruct (counterparts T (Py.str wid)) as [|x l]; [discriminate|].
  intros [= ->]. left.
Qed.

Lemma counterparts_below T s z :
  z ∈ counterparts T s -> exists i, z = Z.pos i /\ i ∈ entity_ids T.
Proof.
  intros Hz. apply counterparts_elem in Hz as (it & Hin & _ & ->).
  exists (t_id it). split; [reflexivity|].
  unfold entity_ids. apply list_elem_of_fmap. eauto.
Qed.

Lemma counterparts_patch T workitem_id patch s :
  neutral patch -> counterparts (server_patch T workitem_id patch) s = counterparts T s.
Proof.
  intros Hn. unfold counterparts, server_patch. cbn [tgt_items].
  induction (tgt_items T) as [|it l IH]; [reflexivity|].
  rewrite fmap_cons, !filter_cons, (patch_item_field _ _ _ Hn).
  case_decide; [|exact IH].
  rewrite !fmap_cons, IH, patch_item_id. reflexivity.
Qed.

Lemma counterparts_create T type_name patch s :
  field_of_ops patch REFLECTED <> Some s ->
  counterparts (server_create T type_name patch).1 s = counterparts T s.
Proof.
  intros Hne. unfold counterparts, server_create. cbn [fst tgt_items].
  rewrite filter_app, filter_cons, decide_False by exact Hne.
  rewrite filter_nil, app_nil_r. reflexivity.
Qed.

Lemma well_formed_patch T workitem_id patch :
  well_formed T -> well_formed (server_patch T workitem_id patch).
Proof.
  intros [Hnd Hlt]. unfold well_formed. rewrite server_patch_ids. split; assumption.
Qed.

Lemma well_formed_create T type_name patch :
  well_formed T -> well_formed (server_create T type_name patch).1.
Proof.
  intros [Hnd Hlt]. unfold well_formed, entity_ids, server_create in *.
  cbn [fst tgt_items tgt_next]. rewrite fmap_app. split.
  - apply NoDup_app. split; [exact Hnd|]. split; [|apply NoDup_singleton].
    intros i Hi Hin. apply list_elem_of_singleton in Hin. subst i.
    rewrite Forall_forall in Hlt. specialize (Hlt _ Hi). simpl in Hlt. lia.
  - apply Forall_app. split.
    + eapply Forall_impl; [exact Hlt|]. intros i Hi. simpl in Hi. lia.
    + constructor; [simpl; lia|constructor].
Qed.

Lemma entity_id_unique (l : list tgt_item) it1 it2 :
  NoDup (t_id <$> l) -> it1 ∈ l -> it2 ∈ l -> t_id it1 = t_id it2 -> it1 = it2.
Proof.
  induction l as [|it l IH]; intros Hnd H1 H2 Heq; [inversion H1|].
  rewrite fmap_cons in Hnd. apply NoDup_cons in Hnd as [Hnotin Hnd].
  apply elem_of_cons in H1 as [->|H1]; apply elem_of_cons in H2 as [->|H2].
  - reflexivity.
  - exfalso. apply Hnotin. rewrite Heq. apply list_elem_of_fmap. eauto.
  - exfalso. apply Hnotin. rewrite <- Heq. apply list_elem_of_fmap. eauto.
  - apply IH; assumption.
Qed.

(** In a well-formed target no work item is the counterpart of two
    correlation values. *)
Lemma counterparts_disjoint T s1 s2 z :
  well_formed T -> s1 <> s2 -> z ∈ counterparts T s1 -> z ∉ counterparts T s2.
Proof.
  intros [Hnd _] Hne H1 H2.
  apply counterparts_elem in H1 as (it1 & Hin1 & Hf1 & ->).
  apply counterparts_elem in H2 as (it2 & Hin2 & Hf2 & Heq).
  injection Heq as Heq.
  assert (it1 = it2) by (eapply entity_id_unique; eauto).
  subst. congruence.
Qed.

(** ** Every block of the loop body spares the other correlation values *)

Section Spared.

Variables (W : Prop) (s : string) (zs : list Z).

Lemma spared_bump b st : spared W s zs st -> spared W s zs (bump b st).
Proof. intros [H1 H2 H3 H4]. destruct b; constructor; assumption. Qed.

Lemma spared_bump_links st : spared W s zs st -> spared W s zs (bump_links st).
Proof. intros [H1 H2 H3 H4]. constructor; assumption. Qed.

Lemma spared_patch st workitem_id patch :
  neutral patch ->
  (W -> forall z, z ∈ workitem_id :: (relations_of patch).*2 -> z ∉ zs) ->
  spared W s zs st -> spared W s zs (http_patch_workitem st workitem_id patch).
Proof.
  intros Hn Hz [H1 H2 H3 H4]. unfold http_patch_workitem. constructor; cbn [tgt calls].
  - rewrite counterparts_patch by exact Hn. exact H1.
  - apply Forall_app. split; [exact H2|]. constructor; [|constructor]. simpl. tauto.
  - intros HW. apply well_formed_patch, H3, HW.
  - intros HW. apply Forall_app. split; [apply H4, HW|]. constructor; [|constructor].
    apply Hz, HW.
Qed.

Lemma spared_create st type_name fields parent_id :
  field_of_ops (create_patch fields parent_id) REFLECTED <> Some s ->
  (W -> forall p, parent_id = Some p -> p ∉ zs) ->
  spared W s zs st ->
  spared W s zs (create_work_item st type_name fields parent_id).1 /\
  (W -> (create_work_item st type_name fields parent_id).2 ∉ zs).
Proof.
  intros Hne Hp [H1 H2 H3 H4]. split.
  - rewrite create_work_item_state. constructor; cbn [tgt calls].
    + rewrite counterparts_create by exact Hne. exact H1.
    + apply Forall_app. split; [exact H2|]. constructor; [exact Hne|constructor].
    + intros HW. apply well_formed_create, H3, HW.
    + intros HW. apply Forall_app. split; [apply H4, HW|]. constructor; [|constructor].
      cbn [touched]. rewrite relations_of_create_patch.
      destruct parent_id as [p|]; simpl; intros z Hz.
      * apply list_elem_of_singleton in Hz as ->. apply (Hp HW). reflexivity.
      * inversion Hz.
  - intros HW Hin. rewrite <- H1 in Hin.
    apply counterparts_below in Hin as (i & Heq & Hi).
    change (Z.pos (tgt_next (tgt st)) = Z.pos i) in Heq. injection Heq as <-.
    destruct (H3 HW) as [_ Hlt]. rewrite Forall_forall in Hlt.
    specialize (Hlt _ Hi). simpl in Hlt. lia.
Qed.

Lemma resolve_spares args src st wid f type_name parent_id for_root :
  Py.str wid <> s ->
  (W -> forall p, parent_id = Some p -> p ∉ zs) ->
  spared W s zs st ->
  spared W s zs (resolve_or_create args src st wid f type_name parent_id for_root).1 /\
  (W -> (resolve_or_create args src st wid f type_name parent_id for_root).2 ∉ zs).
Proof.
  intros Hne Hp Hs.
  destruct (find_target_by_reflected (tgt st) wid) as [z|] eqn:Hz.
  { rewrite (resolve_found _ _ _ _ _ _ _ _ z Hz). cbn [fst snd]. split; [exact Hs|].
    intros HW. rewrite <- (spared_counterparts _ _ _ _ Hs).
    eapply counterparts_disjoint; [apply (spared_target _ _ _ _ Hs HW)|exact Hne|].
    apply find_in_counterparts, Hz. }
  destruct (dry_run args) eqn:Hd.
  - rewrite (resolve_dry _ _ _ _ f type_name parent_id for_root Hz Hd). cbn [fst snd].
    split; [apply spared_bump, Hs|].
    intros _ Hin. rewrite <- (spared_counterparts _ _ _ _ Hs) in Hin.
    apply counterparts_below in Hin as (i & Heq & _). discriminate Heq.
  - rewrite (resolve_real _ _ _ _ f type_name parent_id for_root Hz Hd). cbn [fst snd].
    destruct (spared_create st type_name (build_fields args src (tgt st) f wid)
                parent_id) as [Hs' Hid]; [|exact Hp|exact Hs|].
    + rewrite create_patch_reflected. congruence.
    + split; [apply spared_bump, Hs'|exact Hid].
Qed.

Lemma migrate_comments_spares src st wid tgt_wid :
  (W -> tgt_wid ∉ zs) ->
  spared W s zs st -> spared W s zs (migrate_comments src st wid tgt_wid).
Proof.
  intros Hz. unfold migrate_comments. generalize (get_comments src wid). intros cs.
  revert st. induction cs as [|c cs IH]; intros st Hs; [exact Hs|].
  simpl. apply IH. destruct (Py.or_empty c) as [|a t]; [exact Hs|].
  apply spared_patch; [apply neutral_history| |exact Hs].
  intros HW z Hin. simpl in Hin. apply list_elem_of_singleton in Hin as ->.
  apply Hz, HW.
Qed.

Lemma maybe_comments_spares args src st wid tgt_wid :
  (W -> tgt_wid ∉ zs) ->
  spared W s zs st -> spared W s zs (maybe_comments args src st wid tgt_wid).
Proof.
  intros Hz Hs. unfold maybe_comments.
  destruct (_ && _ && _); [apply migrate_comments_spares; assumption|exact Hs].
Qed.

Lemma link_if_real_spares args tgt_parent out :
  (W -> tgt_parent ∉ zs) -> (W -> out.2 ∉ zs) ->
  spared W s zs out.1 -> spared W s zs (link_if_real args tgt_parent out).
Proof.
  intros Hp Ho Hs. unfold link_if_real. destruct (_ && _ && _); [|exact Hs].
  apply spared_bump_links. unfold add_related_link.
  apply spared_patch; [apply neutral_relation| |exact Hs].
  intros HW z Hin. simpl in Hin.
  apply elem_of_cons in Hin as [->|Hin]; [apply Hp, HW|].
  apply list_elem_of_singleton in Hin as ->. apply Ho, HW.
Qed.

End Spared.

(** ** The loops spare the items they filter out *)

Lemma str_inj (a b : Z) : Py.str a = Py.str b -> a = b.
Proof. unfold Py.str. apply (inj pretty). Qed.

Lemma linkable_other src wid cid cf :
  ~ linkable src wid ->
  batch_get src cid child_fields = Some cf -> is_Some (mapped_type cf) ->
  Py.str cid <> Py.str wid.
Proof.
  intros Hn Hcf Hm Heq. apply str_inj in Heq. subst cid.
  apply Hn. exists cf. auto.
Qed.

Lemma step_child_spares W zs args src wid tgt_parent st cid :
  ~ linkable src wid -> (W -> tgt_parent ∉ zs) ->
  spared W (Py.str wid) zs st ->
  spared W (Py.str wid) zs (step_child args src tgt_parent st cid).
Proof.
  intros Hn Hp Hs. rewrite step_child_eq.
  destruct (batch_get src cid child_fields) as [cf|] eqn:Hcf; [|exact Hs].
  destruct (mapped_type cf) as [ty|] eqn:Hty; [|exact Hs].
  cbv zeta.
  destruct (resolve_spares W (Py.str wid) zs args src st cid cf ty
              (if 0 <? tgt_parent then Some tgt_parent else None) false)
    as [Hs' Hid]; [| |exact Hs|].
  - eapply linkable_other; [exact Hn|exact Hcf|rewrite Hty; eauto].
  - intros HW p Hpe. destruct (0 <? tgt_parent); [|discriminate].
    injection Hpe as <-. apply Hp, HW.
  - apply maybe_comments_spares; assumption.
Qed.

Lemma step_related_spares W zs args src wid tgt_parent st rid :
  ~ linkable src wid -> (W -> tgt_parent ∉ zs) ->
  spared W (Py.str wid) zs st ->
  spared W (Py.str wid) zs (step_related args src tgt_parent st rid).
Proof.
  intros Hn Hp Hs. rewrite step_related_eq.
  destruct (batch_get src rid child_fields) as [rf|] eqn:Hrf; [|exact Hs].
  destruct (mapped_type rf) as [ty|] eqn:Hty; [|exact Hs].
  destruct (resolve_spares W (Py.str wid) zs args src st rid rf ty None false)
    as [Hs' Hid]; [| |exact Hs|].
  - eapply linkable_other; [exact Hn|exact Hrf|rewrite Hty; eauto].
  - intros _ p Hpe. discriminate Hpe.
  - apply link_if_real_spares; assumption.
Qed.

Lemma children_spares W zs args src wid tgt_parent l : forall st,
  ~ linkable src wid -> (W -> tgt_parent ∉ zs) ->
  spared W (Py.str wid) zs st ->
  spared W (Py.str wid) zs (foldl (step_child args src tgt_parent) st l).
Proof.
  induction l as [|x l IH]; intros st Hn Hp Hs; [exact Hs|].
  simpl. apply IH; [exact Hn|exact Hp|]. apply step_child_spares; assumption.
Qed.

Lemma related_spares W zs args src wid tgt_parent l : forall st,
  ~ linkable src wid -> (W -> tgt_parent ∉ zs) ->
  spared W (Py.str wid) zs st ->
  spared W (Py.str wid) zs (foldl (step_related args src tgt_parent) st l).
Proof.
  induction l as [|x l IH]; intros st Hn Hp Hs; [exact Hs|].
  simpl. apply IH; [exact Hn|exact Hp|]. apply step_related_spares; assumption.
Qed.

Lemma step_parent_spares W zs args src wid st pid :
  ~ linkable src wid -> pid <> wid ->
  spared W (Py.str wid) zs st ->
  spared W (Py.str wid) zs (step_parent args src st pid).
Proof.
  intros Hn Hne Hs. rewrite step_parent_eq.
  destruct (batch_get src pid parent_fields) as [f|]; [|exact Hs].
  cbv zeta.
  destruct (resolve_spares W (Py.str wid) zs args src st pid f TARGET_PARENT_TYPE
              None true) as [Hs' Hid]; [| |exact Hs|].
  - intros Heq. apply Hne, str_inj, Heq.
  - intros _ p Hpe. discriminate Hpe.
  - apply related_spares; [exact Hn|exact Hid|].
    apply children_spares; [exact Hn|exact Hid|].
    apply maybe_comments_spares; assumption.
Qed.

Lemma run_over_spares W zs args src wid pids : forall st,
  ~ linkable src wid -> wid ∉ pids ->
  spared W (Py.str wid) zs st ->
  spared W (Py.str wid) zs (run_over args src st pids).
Proof.
  unfold run_over. induction pids as [|p l IH]; intros st Hn Hnotin Hs; [exact Hs|].
  simpl. apply not_elem_of_cons in Hnotin as [Hne Hnotin].
  apply IH; [exact Hn|exact Hnotin|]. apply step_parent_spares; auto.
Qed.

Lemma start_spared (W : Prop) T s :
  (W -> well_formed T) -> spared W s (counterparts T s) (start T).
Proof.
  intros HW. constructor; cbn [start tgt calls]; [reflexivity|constructor|exact HW|].
  intros _. constructor.
Qed.

(** ** The roots of a range *)

Lemma parent_type_unmapped (it : src_item) :
  get_str (s_fields it) "System.WorkItemType" ∈ (Some <$> PARENT_TYPES) ->
  CHILD_TYPE_MAP_LOWER !!
    Py.lower (Py.strip (Py.or_empty (get_str (s_fields it) "System.WorkItemType")))
    = None.
Proof.
  intros Hin. apply list_elem_of_In in Hin. simpl in Hin.
  destruct Hin as [<-|[<-|[<-|[]]]]; vm_compute; reflexivity.
Qed.

(** A root is not a linkable item: no parent type has an entry in the type
    mapping table. *)
Lemma root_not_linkable src excl_field excl_value x :
  x ∈ parent_rows src excl_field excl_value -> ~ linkable src x.
Proof.
  intros Hx. apply parent_rows_elem in Hx as (it & Hit & Hrow).
  unfold parent_row in Hrow. apply andb_true_iff in Hrow as [Hty _].
  apply bool_decide_eq_true in Hty.
  eapply unmapped_not_linkable; [exact Hit|]. apply parent_type_unmapped, Hty.
Qed.

Lemma enumerated_roots src max_items start_id excl_field excl_value fuel l :
  iterate_parent_ids src max_items start_id excl_field excl_value fuel = Some l ->
  NoDup l /\ forall x, x ∈ l -> x ∈ parent_rows src excl_field excl_value.
Proof.
  intros Hrun. unfold iterate_parent_ids in Hrun.
  destruct (iterate_loop_prefix src excl_field excl_value _ _ _ _ _ Hrun) as [k ->].
  split.
  - eapply sublist_NoDup; [|apply sublist_take].
    eapply sublist_NoDup; [apply rows_NoDup|apply sublist_filter].
  - intros x Hx.
    assert (HxF : x ∈ filter (fun i => first_last_id start_id < i)
                         (parent_rows src excl_field excl_value))
      by (eapply elem_of_sublist; [exact Hx|apply sublist_take]).
    apply list_elem_of_filter in HxF as [_ Hrow]. exact Hrow.
Qed.

(** ** The count of created roots *)

Lemma step_child_created_parent args src tgt_parent st cid :
  created_parent (step_child args src tgt_parent st cid) = created_parent st.
Proof.
  rewrite step_child_eq.
  destruct (batch_get src cid child_fields) as [cf|]; [|reflexivity].
  destruct (mapped_type cf) as [ty|]; [|reflexivity].
  cbv zeta. rewrite (quiet_parent _ _ (maybe_comments_quiet _ _ _ _ _)).
  apply (resolve_counters args src st cid cf ty
           (if 0 <? tgt_parent then Some tgt_parent else None) false).
Qed.

Lemma step_related_created_parent args src tgt_parent st rid :
  created_parent (step_related args src tgt_parent st rid) = created_parent st.
Proof.
  rewrite step_related_eq.
  destruct (batch_get src rid child_fields) as [rf|]; [|reflexivity].
  destruct (mapped_type rf) as [ty|]; [|reflexivity].
  rewrite (quiet_parent _ _ (link_if_real_quiet _ _ _)).
  apply (resolve_counters args src st rid rf ty None false).
Qed.

Lemma children_created_parent args src tgt_parent l : forall st,
  created_parent (foldl (step_child args src tgt_parent) st l) = created_parent st.
Proof.
  induction l as [|x l IH]; intros st; [reflexivity|].
  simpl. rewrite IH. apply step_child_created_parent.
Qed.

Lemma related_created_parent args src tgt_parent l : forall st,
  created_parent (foldl (step_related args src tgt_parent) st l) = created_parent st.
Proof.
  induction l as [|x l IH]; intros st; [reflexivity|].
  simpl. rewrite IH. apply step_related_created_parent.
Qed.

(** Dry or real, the body of the main loop counts a created root exactly when
    the root has data and no counterpart. *)
Lemma step_parent_created_parent args src st pid :
  created_parent (step_parent args src st pid)
  = (created_parent st + if root_unmatched src (tgt st) pid then 1 else 0)%nat.
Proof.
  rewrite step_parent_eq. unfold root_unmatched.
  destruct (batch_get src pid parent_fields) as [f|]; [|lia].
  cbv zeta. rewrite related_created_parent, children_created_parent.
  rewrite (quiet_parent _ _ (maybe_comments_quiet _ _ _ _ _)).
  destruct (find_target_by_reflected (tgt st) pid) as [z|] eqn:Hz.
  { rewrite (resolve_found _ _ _ _ _ _ _ _ z Hz). cbn [fst]. lia. }
  destruct (dry_run args) eqn:Hd.
  - rewrite (resolve_dry _ _ _ _ f TARGET_PARENT_TYPE None true Hz Hd). simpl. lia.
  - rewrite (resolve_real _ _ _ _ f TARGET_PARENT_TYPE None true Hz Hd).
    cbn [fst]. rewrite create_work_item_state. simpl. lia.
Qed.

(** Over distinct roots, none of them linkable, the counter of created roots
    is the number of roots with data and without counterpart in the target
    the run started from, whether the run is dry or real. *)
Lemma run_over_created_parent args src T pids :
  NoDup pids -> (forall p, p ∈ pids -> ~ linkable src p) ->
  created_parent (run_over args src (start T) pids)
  = length (List.filter (root_unmatched src T) pids).
Proof.
  induction pids as [|p l IH] using rev_ind; intros Hnd Hlink; [reflexivity|].
  apply NoDup_app in Hnd as (Hnd & Hnotin & _).
  assert (Hp : p ∉ l).
  { intros Hin. apply (Hnotin p Hin). left. }
  assert (Hl : forall q, q ∈ l -> ~ linkable src q).
  { intros q Hq. apply Hlink, elem_of_app. left. exact Hq. }
  assert (Hpl : ~ linkable src p).
  { apply Hlink, elem_of_app. right. left. }
  pose proof (run_over_spares False (counterparts T (Py.str p)) args src p l (start T)
                Hpl Hp (start_spared False T (Py.str p) (False_ind _))) as Hs.
  assert (Hsame : find_target_by_reflected (tgt (run_over args src (start T) l)) p
                  = find_target_by_reflected T p).
  { rewrite !find_head_counterparts, (spared_counterparts _ _ _ _ Hs). reflexivity. }
  unfold run_over in *. rewrite foldl_app. cbn [foldl].
  rewrite step_parent_created_parent, List.filter_app, length_app, (IH Hnd Hl).
  f_equal. cbn [List.filter]. unfold root_unmatched. rewrite Hsame.
  destruct (batch_get src p parent_fields); [|reflexivity].
  destruct (find_target_by_reflected T p); reflexivity.
Qed.

(** C2 (amended). A dry run returns, sends no mutating call and leaves the
    target as it was. Its counter of created roots is the counter of a real
    run over the same range from the same target; its counter of other
    created items is that of the real run or larger; its related-links
    counter stays at zero. *)
Theorem dry_run_sends_nothing (args : Args) (src : Source) (T : Target) :
  dry_run args = true ->
  is_Some (main args src T
             (S (length (parent_rows src (exclude_ownerorg_field args)
                                         (exclude_ownerorg_value args))))) /\
  forall fuel rd,
    main args src T fuel = Some rd ->
    calls rd = [] /\ tgt rd = T /\ related_links rd = 0%nat /\
    forall args' rr,
      same_range args args' ->
      main args' src T fuel = Some rr ->
      created_parent rr = created_parent rd /\
      (created_other rr <= created_other rd)%nat.
Proof.
  intros Hd. split; [apply main_returns|].
  intros fuel rd Hrun. unfold main in *.
  destruct (iterate_parent_ids src (max_items args) (start_id args)
              (exclude_ownerorg_field args) (exclude_ownerorg_value args) fuel)
    as [pids|] eqn:Hpids; [|discriminate].
  simpl in Hrun. injection Hrun as <-.
  destruct (run_over_dry args src pids (start T) Hd) as (Ht & Hc & Hl).
  split; [exact Hc|]. split; [exact Ht|]. split; [exact Hl|].
  intros args' rr (Hmax & Hstart & Hf & Hv).
  rewrite <- Hmax, <- Hstart, <- Hf, <- Hv, Hpids. simpl. intros [= <-].
  destruct (enumerated_roots _ _ _ _ _ _ _ Hpids) as [Hnd Hrows].
  assert (Hlink : forall p, p ∈ pids -> ~ linkable src p)
    by (intros p Hp; eapply root_not_linkable, Hrows, Hp).
  split.
  - rewrite !run_over_created_parent by assumption. reflexivity.
  - apply (run_over_ahead args args' src pids (start T) (start T) Hd (ahead_refl _)).
Qed.

Lemma dry_run_sends_nothing_witness :
  exists rd,
    main Scenario.dry_args Scenario.source Scenario.empty_target 3 = Some rd /\
    calls rd = [] /\ tgt rd = Scenario.empty_target /\ related_links rd = 0%nat.
Proof.
  destruct (main Scenario.dry_args Scenario.source Scenario.empty_target 3)
    as [rd|] eqn:Hrd; [|vm_compute in Hrd; discriminate].
  destruct (dry_run_sends_nothing Scenario.dry_args Scenario.source
              Scenario.empty_target eq_refl) as [_ H].
  destruct (H 3%nat rd Hrd) as (Hc & Ht & Hl & _).
  exists rd. auto.
Defined.

(** ** Type filter, over a run *)

(** The claim of C7 fails as stated: in [Scenario.nested_bundles] the item 9
    is a child of the root 5 and its type, "Work Bundle", has no entry in the
    type mapping table; the run skips it as a child, but the enumeration
    yields it as a root, so the run creates a counterpart for it and adds a
    related link from that counterpart. *)
Lemma linked_root_is_created :
  ~ (forall args src T fuel r pid wid it,
       src_items src !! wid = Some it ->
       CHILD_TYPE_MAP_LOWER !!
         Py.lower (Py.strip (Py.or_empty (get_str (s_fields it) "System.WorkItemType")))
         = None ->
       wid ∈ (get_children_related src pid).1 ++ (get_children_related src pid).2 ->
       main args src T fuel = Some r ->
       counterparts (tgt r) (Py.str wid) = counterparts T (Py.str wid) /\
       forall m z, m ∈ calls r -> z ∈ touched m ->
                   z ∉ counterparts (tgt r) (Py.str wid)).
Proof.
  intros H.
  destruct (main Scenario.real_args Scenario.nested_bundles Scenario.empty_target 3)
    as [r|] eqn:Hr; [|vm_compute in Hr; discriminate].
  assert (Hty : CHILD_TYPE_MAP_LOWER !!
            Py.lower (Py.strip (Py.or_empty
              (get_str (s_fields Scenario.bundle_9) "System.WorkItemType"))) = None)
    by (vm_compute; reflexivity).
  assert (Hin : 9 ∈ (get_children_related Scenario.nested_bundles 5).1
                    ++ (get_children_related Scenario.nested_bundles 5).2)
    by (apply list_elem_of_In; vm_compute; tauto).
  destruct (H Scenario.real_args Scenario.nested_bundles Scenario.empty_target
              3%nat r 5 9 Scenario.bundle_9 eq_refl Hty Hin Hr) as [Hc _].
  vm_compute in Hr. injection Hr as <-. vm_compute in Hc. discriminate Hc.
Qed.

(** C7 (amended). A linked item whose type, stripped and lower-cased, has no
    entry in the type mapping table is skipped both as a child and as a
    related item, whatever the arguments of the run: the step returns the
    state it was given, so nothing is created, no link is added, no counter
    moves, no call is sent, and the step does not fail. Over a whole run
    that does not itself enumerate the item as a root, the run returns, the
    target holds the same counterparts of the item as before, no call creates
    one, and, the target being well formed, no call patches a counterpart of
    the item or adds a hierarchy or related link to one. (An item of a
    parent type that a root links to is enumerated as a root itself and is
    then created and linked as one.) *)
Theorem unmapped_type_is_skipped
    (args : Args) (src : Source) (T : Target) (wid : Z) (it : src_item) :
  src_items src !! wid = Some it ->
  CHILD_TYPE_MAP_LOWER !!
    Py.lower (Py.strip (Py.or_empty (get_str (s_fields it) "System.WorkItemType")))
    = None ->
  (forall tgt_parent st,
     step_child args src tgt_parent st wid = st /\
     step_related args src tgt_parent st wid = st) /\
  forall fuel pids,
    iterate_parent_ids src (max_items args) (start_id args)
      (exclude_ownerorg_field args) (exclude_ownerorg_value args) fuel = Some pids ->
    wid ∉ pids ->
    exists r,
      main args src T fuel = Some r /\
      counterparts (tgt r) (Py.str wid) = counterparts T (Py.str wid) /\
      Forall (fun m => ~ creates_for (Py.str wid) m) (calls r) /\
      (well_formed T ->
       Forall (fun m => forall z, z ∈ touched m -> z ∉ counterparts T (Py.str wid))
              (calls r)).
Proof.
  intros Hit Hty. split.
  - intros tgt_parent st. eapply unmapped_step_skips; eassumption.
  - intros fuel pids Hpids Hnotin.
    exists (run_over args src (start T) pids).
    split; [unfold main; rewrite Hpids; reflexivity|].
    pose proof (run_over_spares (well_formed T) (counterparts T (Py.str wid))
                  args src wid pids (start T)
                  (unmapped_not_linkable src wid it Hit Hty) Hnotin
                  (start_spared (well_formed T) T (Py.str wid) (fun H => H)))
      as [Hc Hn _ Hcalls].
    auto.
Qed.

Lemma unmapped_type_is_skipped_witness :
  exists r,
    main Scenario.real_args Scenario.nested_bundles Scenario.target_with_8 3 = Some r /\
    counterparts (tgt r) (Py.str 8) = [1] /\
    Forall (fun m => ~ creates_for (Py.str 8) m) (calls r) /\
    Forall (fun m => forall z, z ∈ touched m -> z ∉ [1]) (calls r).
Proof.
  destruct (unmapped_type_is_skipped Scenario.real_args Scenario.nested_bundles
              Scenario.target_with_8 8 Scenario.bug_8)
    as [_ H]; [reflexivity|vm_compute; reflexivity|].
  destruct (H 3%nat [5; 9]) as (r & Hr & Hc & Hn & Hl).
  - vm_compute. reflexivity.
  - intros Hin. apply list_elem_of_In in Hin. simpl in Hin.
    destruct Hin as [Heq|[Heq|[]]]; discriminate Heq.
  - exists r. split; [exact Hr|]. split; [exact Hc|]. split; [exact Hn|].
    apply Hl. split; [apply NoDup_singleton|].
    constructor; [reflexivity|constructor].
Defined.
